(** * Text2-SQL: the SQL post-processing and execution pipeline

    A shallow embedding of [src/db_utils.py] and of the executor and
    renderer nodes of [src/agent.py].

    Text is modelled by [String.string].  The Python code works on [str];
    the functions below agree with [str.strip], [str.upper], [str.split],
    [str.replace] and the [re] character classes on ASCII text, which is
    where every keyword and marker the code looks for lives.  A character
    outside ASCII is treated as a caseless non-space, non-word character.

    SQLite is outside the repository: it is a parameter, an arbitrary
    state machine whose calls may raise.  The computations that use it
    thread its state and a log of the calls made, so that "is executed in
    order", "is committed right after" and "is not called" are statements
    about that log. *)

From Stdlib Require Import String Ascii List ZArith Lia Bool Arith DecimalString.
Import ListNotations.
Open Scope list_scope.
Open Scope string_scope.

(* ================================================================== *)
(** ** Python string primitives *)
(* ================================================================== *)

Module PyStr.

(** [str.isspace] on one ASCII character: TAB, LF, VT, FF, CR, the four
  separators FS, GS, RS, US, and the space. *)
Definition is_space (c : ascii) : bool :=
let n := nat_of_ascii c in
(Nat.leb 9 n && Nat.leb n 13) || (Nat.leb 28 n && Nat.leb n 32).

Definition is_lower (c : ascii) : bool :=
let n := nat_of_ascii c in Nat.leb 97 n && Nat.leb n 122.

Definition is_upper (c : ascii) : bool :=
let n := nat_of_ascii c in Nat.leb 65 n && Nat.leb n 90.

Definition is_digit (c : ascii) : bool :=
let n := nat_of_ascii c in Nat.leb 48 n && Nat.leb n 57.

Definition upper_char (c : ascii) : ascii :=
if is_lower c then ascii_of_nat (nat_of_ascii c - 32) else c.

(** [s.upper()] *)
Fixpoint upper (s : string) : string :=
match s with
| EmptyString => EmptyString
| String c s' => String (upper_char c) (upper s')
end.

(** [s.lstrip()] *)
Fixpoint lstrip (s : string) : string :=
match s with
| EmptyString => EmptyString
| String c s' => if is_space c then lstrip s' else s
end.

Definition is_empty (s : string) : bool :=
match s with EmptyString => true | _ => false end.

(** [s.rstrip()] *)
Fixpoint rstrip (s : string) : string :=
match s with
| EmptyString => EmptyString
| String c s' =>
    let r := rstrip s' in
    if is_space c && is_empty r then EmptyString else String c r
end.

(** [s.strip()] *)
Definition strip (s : string) : string := rstrip (lstrip s).

(** [s.startswith(p)] *)
Definition startswith (p s : string) : bool := String.prefix p s.

(** [s[n:]] *)
Fixpoint drop (n : nat) (s : string) : string :=
match n, s with
| O, _ => s
| S _, EmptyString => EmptyString
| S n', String _ s' => drop n' s'
end.

(** [sep in s] *)
Fixpoint contains (sep s : string) : bool :=
match s with
| EmptyString => startswith sep s
| String _ s' => startswith sep s || contains sep s'
end.

(** [s.split(sep)] for a non-empty separator: the pieces between the
  non-overlapping occurrences of [sep], found from left to right.  The
  scan walks the text once; [skip] counts the characters of a separator
  that was just found and is still to be passed over.  The pair is the
  piece being built and the pieces after it. *)
Fixpoint split_go (sep s : string) (skip : nat) : string * list string :=
match s with
| EmptyString => (EmptyString, [])
| String c s' =>
    match skip with
    | S n => split_go sep s' n
    | O =>
        if startswith sep s
        then let (p, ps) := split_go sep s' (String.length sep - 1) in
             (EmptyString, p :: ps)
        else let (p, ps) := split_go sep s' 0 in
             (String c p, ps)
    end
end.

Definition split (sep s : string) : list string :=
let (p, ps) := split_go sep s 0 in p :: ps.

(** [s.replace(old, new, 1)]: the first occurrence only.  With an empty
  [old] Python inserts [new] in front. *)
Fixpoint replace_first (old new s : string) : string :=
if startswith old s then new ++ drop (String.length old) s
else match s with
     | EmptyString => EmptyString
     | String c s' => String c (replace_first old new s')
     end.

(** The text before the first occurrence of a marker (all of the text when
  the marker does not occur), and the text after it. *)
Fixpoint before (sep s : string) : string :=
match s with
| EmptyString => EmptyString
| String c s' => if startswith sep s then EmptyString else String c (before sep s')
end.

Fixpoint after (sep s : string) : string :=
match s with
| EmptyString => EmptyString
| String _ s' => if startswith sep s then drop (String.length sep) s else after sep s'
end.

End PyStr.

(* ================================================================== *)
(** ** The fragment of Python's [re] that the code uses *)
(* ================================================================== *)

Module Re.
Import PyStr.

(** Character classes: [\s], [\w], [.] under the [s] flag, and [[^c]]. *)
Inductive cclass : Type :=
| ClsSpace
| ClsWord
| ClsAny
| ClsNot (c : ascii).

Definition in_class (k : cclass) (c : ascii) : bool :=
match k with
| ClsSpace => is_space c
| ClsWord => is_lower c || is_upper c || is_digit c || Ascii.eqb c "_"
| ClsAny => true
| ClsNot x => negb (Ascii.eqb c x)
end.

(** Patterns.  Every quantifier in the source ranges over one character
  class, so [Rep] takes a class: [Rep true 0 k] is [k*], [Rep true 1 k]
  is [k+] and [Rep false 0 k] is [k*?].  [Lit] compares under the [i]
  flag, which both patterns of the source set. *)
Inductive regex : Type :=
| Lit (c : ascii)
| Cls (k : cclass)
| Rep (greedy : bool) (min : nat) (k : cclass)
| Cat (a b : regex)
| Grp (n : nat) (a : regex)
| NotAhead (a : regex).

Definition eqb_ci (a b : ascii) : bool := Ascii.eqb (upper_char a) (upper_char b).

Definition captures : Type := list (nat * string).

Fixpoint group (n : nat) (caps : captures) : string :=
match caps with
| [] => EmptyString
| (m, t) :: rest => if Nat.eqb m n then t else group n rest
end.

Definition orelse {A : Type} (x y : option A) : option A :=
match x with Some _ => x | None => y end.

(** The text of [s] that was consumed when [rest] is what remains. *)
Definition consumed (s rest : string) : string :=
substring 0 (String.length s - String.length rest) s.

(** A backtracking matcher in continuation-passing style, with the
  priorities of [re]: a greedy repetition tries one more character
  before it tries to stop, a lazy one the other way round. *)
Fixpoint rep_match {A : Type} (greedy : bool) (k : cclass) (min : nat) (s : string)
  (cont : string -> option A) : option A :=
let stop := match min with O => cont s | S _ => None end in
match s with
| EmptyString => stop
| String c s' =>
    if in_class k c then
      let more := rep_match greedy k (Nat.pred min) s' cont in
      if greedy then orelse more stop else orelse stop more
    else stop
end.

Fixpoint rmatch (r : regex) {A : Type} (s : string) (caps : captures)
  (cont : string -> captures -> option A) : option A :=
match r with
| Lit c =>
    match s with
    | String c' s' => if eqb_ci c c' then cont s' caps else None
    | EmptyString => None
    end
| Cls k =>
    match s with
    | String c' s' => if in_class k c' then cont s' caps else None
    | EmptyString => None
    end
| Rep g min k => rep_match g k min s (fun s' => cont s' caps)
| Cat a b => rmatch a s caps (fun s1 c1 => rmatch b s1 c1 cont)
| Grp n a => rmatch a s caps (fun s1 c1 => cont s1 ((n, consumed s s1) :: c1))
| NotAhead a =>
    match rmatch a s caps (fun _ _ => Some tt) with
    | Some _ => None
    | None => cont s caps
    end
end.

(** [re.match(r, s)]: a match anchored at the start; the result is the
  captured groups and the text left after the match. *)
Definition re_match (r : regex) (s : string) : option (captures * string) :=
rmatch r s [] (fun rest caps => Some (caps, rest)).

(** [re.sub(r, repl, s)]: every non-overlapping match from left to right
  is replaced.  After an empty match the character at that place is
  copied and the scan moves on, as [re] does. *)
Fixpoint sub_go (r : regex) (repl : captures -> string) (s : string) (skip : nat) : string :=
match s with
| EmptyString =>
    match skip, re_match r s with
    | O, Some (caps, _) => repl caps
    | _, _ => EmptyString
    end
| String c s' =>
    match skip with
    | S n => sub_go r repl s' n
    | O =>
        match re_match r s with
        | Some (caps, rest) =>
            match String.length s - String.length rest with
            | O => repl caps ++ String c (sub_go r repl s' 0)
            | S n => repl caps ++ sub_go r repl s' n
            end
        | None => String c (sub_go r repl s' 0)
        end
    end
end.

Definition re_sub (r : regex) (repl : captures -> string) (s : string) : string :=
sub_go r repl s 0.

(** A literal word, character by character. *)
Fixpoint lit (w : string) (tail : regex) : regex :=
match w with
| EmptyString => tail
| String c w' => Cat (Lit c) (lit w' tail)
end.

End Re.

(* ================================================================== *)
(** ** SQL helpers of [db_utils.py] *)
(* ================================================================== *)

Import PyStr Re.

Definition AGG_FUNCS : list string := ["COUNT"; "SUM"; "AVG"; "MIN"; "MAX"].

(** [(?is)\s*select\s+(.*?)\s+from\s+]; [from_re] is its end,
    [\s+from\s+]. *)
Definition from_re : regex :=
  Cat (Rep true 1 ClsSpace) (lit "from" (Rep true 1 ClsSpace)).

Definition select_re : regex :=
  Cat (Rep true 0 ClsSpace)
   (lit "select"
     (Cat (Rep true 1 ClsSpace)
      (Cat (Grp 1 (Rep false 0 ClsAny)) from_re))).

(** [(?i)(FUNC\s*\(\s*[^)]+\s*\))(?!(\s+AS\s+\w))], in three parts: the
    name [FUNC], the parenthesised argument [\s*\(\s*[^)]+\s*\)] that ends
    group 1, and the look-ahead [(?!(\s+AS\s+\w))]. *)
Definition call_tail : regex :=
  Cat (Rep true 0 ClsSpace)
   (Cat (Lit "(")
    (Cat (Rep true 0 ClsSpace)
     (Cat (Rep true 1 (ClsNot ")"))
      (Cat (Rep true 0 ClsSpace) (Lit ")"))))).

Definition alias_ahead : regex :=
  NotAhead
    (Grp 2
      (Cat (Rep true 1 ClsSpace)
       (lit "AS"
        (Cat (Rep true 1 ClsSpace) (Cls ClsWord))))).

Definition agg_re (func : string) : regex :=
  Cat (Grp 1 (lit func call_tail)) alias_ahead.

(** The inner [patch] of [ensure_aliases]: [re.sub(pattern, r"\1 AS alias", text)]. *)
Definition patch (select_text func alias : string) : string :=
  re_sub (agg_re func) (fun caps => group 1 caps ++ " AS " ++ alias) select_text.

Definition ensure_aliases (sql : string) : string :=
  match re_match select_re sql with
  | None => sql
  | Some (m, _) =>
      let select_part := group 1 m in
      let patched := select_part in
      let patched := patch patched "COUNT" "count" in
      let patched := patch patched "SUM" "total" in
      let patched := patch patched "AVG" "average" in
      let patched := patch patched "MIN" "min" in
      let patched := patch patched "MAX" "max" in
      if String.eqb patched select_part then sql
      else replace_first select_part patched sql
  end.

Definition clean_code_fences (text : string) : string :=
  if contains "```sql" text then
    strip (nth 0 (split "```" (nth 1 (split "```sql" text) EmptyString)) EmptyString)
  else if contains "```" text then
    strip (nth 1 (split "```" text) EmptyString)
  else strip text.

(** [[s.strip() for s in sql_query.strip().split(";") if s.strip()]] *)
Definition statements (sql_query : string) : list string :=
  map strip (filter (fun s => negb (is_empty (strip s))) (split ";" (strip sql_query))).

(** [stmt.lstrip().upper().startswith("SELECT")] *)
Definition is_select (stmt : string) : bool :=
  startswith "SELECT" (upper (lstrip stmt)).

Definition nl : string := String (ascii_of_nat 10) EmptyString.
Definition tab : string := String (ascii_of_nat 9) EmptyString.


(* ================================================================== *)
(** ** Python values and dictionaries *)
(* ================================================================== *)

#[local] Set Warnings "-register-all".

(** The values that travel through the pipeline: what SQLite hands back
    (NULL, integers, reals, text, blobs) and what the code builds from
    them.  A real is kept as the bit pattern of its double: the code never
    computes with one. *)
Inductive pyval : Type :=
| PNone
| PBool (b : bool)
| PInt (z : Z)
| PFloat (bits : Z)
| PStr (s : string)
| PBytes (b : list ascii)
| PTuple (l : list pyval)
| PList (l : list pyval).

(** A [dict] keeps its keys in insertion order, which the renderer relies
    on; assigning to a key that is present keeps its place. *)
Definition dict : Type := list (string * pyval).

Fixpoint dict_get (k : string) (d : dict) : option pyval :=
  match d with
  | [] => None
  | (k', v) :: d' => if String.eqb k' k then Some v else dict_get k d'
  end.

Definition dict_has (k : string) (d : dict) : bool :=
  match dict_get k d with Some _ => true | None => false end.

Fixpoint dict_set (k : string) (v : pyval) (d : dict) : dict :=
  match d with
  | [] => [(k, v)]
  | (k', v') :: d' => if String.eqb k' k then (k, v) :: d' else (k', v') :: dict_set k v d'
  end.

(** [dict(pairs)] *)
Definition dict_of_pairs (kvs : list (string * pyval)) : dict :=
  fold_left (fun d kv => dict_set (fst kv) (snd kv) d) kvs [].

Definition dict_keys (d : dict) : list string := map fst d.

(** [bool(v)] for an optional value, as [not valid.get("valid")] needs it. *)
Definition truthy (v : option pyval) : bool :=
  match v with
  | None | Some PNone => false
  | Some (PBool b) => b
  | Some (PInt z) => negb (Z.eqb z 0)
  | Some (PFloat bits) => negb (Z.eqb (Z.land bits (Z.ones 63)) 0)
  | Some (PStr s) => negb (is_empty s)
  | Some (PBytes b) => match b with [] => false | _ => true end
  | Some (PTuple l) | Some (PList l) => match l with [] => false | _ => true end
  end.

Definition str_of_Z (z : Z) : string := NilZero.string_of_int (Z.to_int z).
Definition str_of_nat (n : nat) : string := str_of_Z (Z.of_nat n).

(* ================================================================== *)
(** ** The database engine and the effects of the code *)
(* ================================================================== *)

(** What a call into the engine gives back: a value, or the text
    [str(e)] of the exception it raised. *)
Inductive res (A : Type) : Type :=
| Ok (a : A)
| Exn (msg : string).
Arguments Ok {A} a.
Arguments Exn {A} msg.

(** The attributes of the cursor that the code reads after [execute]:
    the column names of [cursor.description] ([None] when the statement
    yields no rows), [cursor.rowcount] and [cursor.lastrowid]. *)
Record cursor_attrs : Type := {
  description : option (list string);
  rowcount : Z;
  lastrowid : option Z
}.

Definition row : Type := list pyval.

(** SQLite is an external collaborator.  It is an arbitrary state machine
    over a state [W]: every call may change the state and may raise. *)
Record Engine (W : Type) : Type := {
  e_connect : W -> res unit * W;
  e_execute : string -> W -> res cursor_attrs * W;
  e_fetchall : W -> res (list row) * W;
  e_commit : W -> res unit * W;
  e_rollback : W -> res unit * W;
  e_close : W -> res unit * W
}.
Arguments e_connect {W}.
Arguments e_execute {W}.
Arguments e_fetchall {W}.
Arguments e_commit {W}.
Arguments e_rollback {W}.
Arguments e_close {W}.

(** The calls made into the engine, in the order they were made. *)
Inductive call : Type :=
| Connect
| Execute (stmt : string)
| Fetchall
| Commit
| Rollback
| Close.

Record world (W : Type) : Type := {
  eng : W;
  calls : list call
}.
Arguments eng {W}.
Arguments calls {W}.

(** Computations that thread the world and may raise. *)
Definition M (W A : Type) : Type := world W -> res A * world W.

Definition ret {W A : Type} (a : A) : M W A := fun w => (Ok a, w).

Definition bind {W A B : Type} (m : M W A) (k : A -> M W B) : M W B :=
  fun w => match m w with
           | (Ok a, w') => k a w'
           | (Exn e, w') => (Exn e, w')
           end.

(** [try: m  except Exception as e: h e] *)
Definition try_except {W A : Type} (m : M W A) (h : string -> M W A) : M W A :=
  fun w => match m w with
           | (Ok a, w') => (Ok a, w')
           | (Exn e, w') => h e w'
           end.

Declare Scope py_scope.
Delimit Scope py_scope with py.
Notation "x <- m ;; k" := (bind m (fun x => k))
  (at level 61, m at next level, right associativity) : py_scope.
Notation "m ;;; k" := (bind m (fun _ => k))
  (at level 61, right associativity) : py_scope.

Section Primitives.
Context {W : Type} (E : Engine W).

Definition engine_call {A : Type} (c : call) (op : W -> res A * W) : M W A :=
  fun w => let (r, e') := op (eng w) in
           (r, {| eng := e'; calls := (calls w ++ [c])%list |}).

(** [sqlite3.connect(_db_path())] followed by [conn.cursor()] *)
Definition sqlite3_connect : M W unit := engine_call Connect (e_connect E).
Definition cursor_execute (stmt : string) : M W cursor_attrs :=
  engine_call (Execute stmt) (e_execute E stmt).
Definition cursor_fetchall : M W (list row) := engine_call Fetchall (e_fetchall E).
Definition conn_commit : M W unit := engine_call Commit (e_commit E).
Definition conn_rollback : M W unit := engine_call Rollback (e_rollback E).
Definition conn_close : M W unit := engine_call Close (e_close E).
End Primitives.

(* ================================================================== *)
(** ** [execute_sql_query] and [validate_sql_query] *)
(* ================================================================== *)

Section Tools.
Context {W : Type} (E : Engine W).
Open Scope py_scope.

(** The loop variables [total_rows_affected], [last_row_id] and
    [select_result]. *)
Record exec_acc : Type := {
  total_rows_affected : Z;
  last_row_id : option Z;
  select_result : list dict
}.

(** [[d[0] for d in cursor.description] if cursor.description else []] *)
Definition column_names (cur : cursor_attrs) : list string :=
  match description cur with
  | Some cols => cols
  | None => []
  end.

(** [[dict(zip(cols, r)) for r in rows]] *)
Definition rows_as_dicts (cols : list string) (rows : list row) : list dict :=
  map (fun r => dict_of_pairs (combine cols r)) rows.

(** The [for] loop of [execute_sql_query]. *)
Fixpoint exec_loop (stmts : list string) (acc : exec_acc) : M W exec_acc :=
  match stmts with
  | [] => ret acc
  | stmt :: rest =>
      if is_select stmt then
        cur <- cursor_execute E stmt ;;
        let cols := column_names cur in
        rows <- cursor_fetchall E ;;
        exec_loop rest {| total_rows_affected := total_rows_affected acc;
                          last_row_id := last_row_id acc;
                          select_result := rows_as_dicts cols rows |}
      else
        cur <- cursor_execute E stmt ;;
        conn_commit E ;;;
        let total := if Z.eqb (rowcount cur) (-1) then total_rows_affected acc
                     else (total_rows_affected acc + rowcount cur)%Z in
        exec_loop rest {| total_rows_affected := total;
                          last_row_id := lastrowid cur;
                          select_result := select_result acc |}
  end.

Definition opt_int (o : option Z) : pyval :=
  match o with Some z => PInt z | None => PNone end.

Definition error_row (msg : string) : dict := [("error", PStr msg)].

Definition dml_summary (acc : exec_acc) : dict :=
  [("rows_affected", PInt (total_rows_affected acc));
   ("last_row_id", opt_int (last_row_id acc))].

Definition execute_sql_query (sql_query : string) : M W (list dict) :=
  try_except
    (sqlite3_connect E ;;;
     let stmts := statements sql_query in
     match stmts with
     | [] => ret [error_row "Empty SQL"]
     | _ :: _ =>
         acc <- exec_loop stmts {| total_rows_affected := 0;
                                   last_row_id := None;
                                   select_result := [] |} ;;
         conn_close E ;;;
         ret (if is_select (last stmts EmptyString)
              then select_result acc
              else [dml_summary acc])
     end)
    (fun e => ret [error_row ("Error executing query: " ++ e)]).

(** The [for] loop of [validate_sql_query]; [plans] is the list being
    appended to. *)
Fixpoint validate_loop (stmts : list string) (plans : list pyval) : M W (list pyval) :=
  match stmts with
  | [] => ret plans
  | stmt :: rest =>
      if is_select stmt then
        cursor_execute E ("EXPLAIN QUERY PLAN " ++ stmt) ;;;
        rows <- cursor_fetchall E ;;
        validate_loop rest (plans ++ [PList (map PTuple rows)])%list
      else
        try_except (cursor_execute E stmt ;;; conn_rollback E) (fun _ => ret tt) ;;;
        validate_loop rest plans
  end.

Definition validate_sql_query (sql_query : string) : M W dict :=
  try_except
    (sqlite3_connect E ;;;
     let stmts := statements sql_query in
     match stmts with
     | [] => ret [("valid", PBool false); ("error", PStr "Empty SQL")]
     | _ :: _ =>
         plans <- validate_loop stmts [] ;;
         conn_close E ;;;
         ret [("valid", PBool true); ("plan", PList plans)]
     end)
    (fun e => ret [("valid", PBool false); ("error", PStr e)]).

End Tools.

(* ================================================================== *)
(** ** Pretty printing ([db_utils.py]) *)
(* ================================================================== *)

Section Rendering.
(** [str(v)] for the values whose text form is not modelled: reals,
    blobs and containers. *)
Variable str_other : pyval -> string.

(** [str(v)], which is also what an f-string prints for [{v}]. *)
Definition py_str (v : pyval) : string :=
  match v with
  | PNone => "None"
  | PBool true => "True"
  | PBool false => "False"
  | PInt z => str_of_Z z
  | PStr s => s
  | other => str_other other
  end.

Definition mem_str (k : string) (l : list string) : bool :=
  existsb (String.eqb k) l.

(** The column list of [as_markdown_table]: every key of every row, in
    order of first appearance. *)
Definition collect_cols (rows : list dict) : list string :=
  fold_left
    (fun cols r =>
       fold_left (fun cols k => if mem_str k cols then cols else (cols ++ [k])%list)
                 (dict_keys r) cols)
    rows [].

Definition table_line (cells : list string) : string :=
  "| " ++ String.concat " | " cells ++ " |".

Definition as_markdown_table (rows : list dict) (max_rows : nat) : string :=
  match rows with
  | [] => "_No rows._"
  | _ :: _ =>
      let cols := collect_cols rows in
      let header := table_line cols in
      let sep := table_line (repeat "---" (List.length cols)) in
      let body :=
        map (fun r =>
               table_line
                 (map (fun c => py_str (match dict_get c r with
                                        | Some v => v
                                        | None => PStr ""
                                        end)) cols))
            (firstn max_rows rows) in
      let table := String.concat nl (header :: sep :: body) in
      if Nat.ltb max_rows (List.length rows)
      then table ++ nl ++ nl ++ "_Note: showing first " ++ str_of_nat max_rows
                 ++ " of " ++ str_of_nat (List.length rows) ++ " rows._"
      else table
  end.

(** The lines of one row in [as_row_details]; [i] counts from 1. *)
Definition row_detail_lines (i : nat) (r : dict) : list string :=
  (nl ++ "**Row " ++ str_of_nat i ++ "**")
    :: map (fun kv => "- **" ++ fst kv ++ "**: " ++ py_str (snd kv)) r.

Fixpoint detail_lines (i : nat) (rows : list dict) : list string :=
  match rows with
  | [] => []
  | r :: rest => (row_detail_lines i r ++ detail_lines (S i) rest)%list
  end.

Definition as_row_details (rows : list dict) (max_rows : nat) (title : string) : string :=
  match rows with
  | [] => ""
  | _ :: _ =>
      let lines := ("**" ++ title ++ ":**") :: detail_lines 1 (firstn max_rows rows) in
      let lines :=
        if Nat.ltb max_rows (List.length rows)
        then app lines [nl ++ "_Note: showing first " ++ str_of_nat max_rows
                              ++ " of " ++ str_of_nat (List.length rows) ++ " rows._"]
        else lines in
      String.concat nl lines
  end.

(* ================================================================ *)
(** ** The executor and renderer nodes ([agent.py]) *)
(* ================================================================ *)

(** [ChatBotState]; a key that is absent and a key bound to [None] read
    the same through [state.get]. *)
Record ChatBotState : Type := {
  user_query : string;
  sql_query : option string;
  query_result : option (list dict);
  final_response : option string
}.

(** [(state.get("sql_query") or "").strip()] *)
Definition stripped_sql (state : ChatBotState) : string :=
  strip (match sql_query state with Some q => q | None => "" end).

Definition opt_val (o : option pyval) : pyval :=
  match o with Some v => v | None => PNone end.

Section Executor.
Context {W : Type} (E : Engine W).
Open Scope py_scope.

Definition query_executor_node (state : ChatBotState) : M W ChatBotState :=
  let sql := stripped_sql state in
  let update (result : list dict) :=
    {| user_query := user_query state;
       sql_query := sql_query state;
       query_result := Some result;
       final_response := Some "" |} in
  if is_empty sql then
    ret (update [[("error", PStr "No SQL query provided")]])
  else
    valid <- validate_sql_query E sql ;;
    sv <- (if negb (truthy (dict_get "valid" valid)) then
             let fixed := ensure_aliases sql in
             if negb (String.eqb fixed sql) then
               valid' <- validate_sql_query E fixed ;;
               ret (fixed, valid')
             else ret (sql, valid)
           else ret (sql, valid)) ;;
    let sql := fst sv in
    let valid := snd sv in
    if negb (truthy (dict_get "valid" valid)) then
      ret (update [[("error",
                     PStr ("Invalid query: " ++ py_str (opt_val (dict_get "error" valid))))]])
    else
      result <- execute_sql_query E sql ;;
      ret (update result).
End Executor.

(** The two characters that stand in front of [Error:] in the source
    text, kept as the four bytes of their UTF-8 encoding. *)
Definition error_mark : string :=
  String (ascii_of_nat 195) (String (ascii_of_nat 162)
    (String (ascii_of_nat 197) (String (ascii_of_nat 146) EmptyString))).

Definition sql_block (sql_query : string) : string :=
  "**SQL**" ++ nl ++ "```sql" ++ nl ++ sql_query ++ nl ++ "```" ++ nl.

Definition response_generator_node (state : ChatBotState) : ChatBotState :=
  let sql := stripped_sql state in
  let result := match query_result state with Some r => r | None => [] end in
  let reply (text : string) :=
    {| user_query := user_query state;
       sql_query := sql_query state;
       query_result := query_result state;
       final_response := Some text |} in
  let is_error := match result with first :: _ => dict_has "error" first | [] => false end in
  let is_summary :=
    match result with first :: _ => dict_has "rows_affected" first | [] => false end in
  let first := match result with first :: _ => first | [] => [] end in
  if is_error then
    reply (error_mark ++ " Error: " ++ py_str (opt_val (dict_get "error" first)))
  else if is_summary then
    let ra := match dict_get "rows_affected" first with Some v => v | None => PInt 0 end in
    let lr := opt_val (dict_get "last_row_id" first) in
    reply (sql_block sql ++ "**Result**" ++ nl
             ++ "- Rows affected: **" ++ py_str ra ++ "**" ++ nl
             ++ "- Last inserted id: **" ++ py_str lr ++ "**")
  else
    reply (sql_block sql
             ++ "**Rows:** " ++ str_of_nat (List.length result) ++ nl ++ nl
             ++ as_markdown_table result 1000 ++ nl ++ nl
             ++ as_row_details result 100 "Row details").

End Rendering.

(* ================================================================== *)
(** ** A small engine to run the code on *)
(* ================================================================== *)

(** One table [t] with one text column [x].  The durable content is what
    a new connection sees; the working content is that of the open
    transaction. *)
Module Toy.

Record db : Type := {
  durable : list string;
  working : list string;
  fetched : list row;
  last_id : option Z
}.

Definition fresh (content : list string) : db :=
  {| durable := content; working := content; fetched := []; last_id := None |}.

Definition attrs (d : option (list string)) (n : Z) (w : db) : cursor_attrs :=
  {| description := d; rowcount := n; lastrowid := last_id w |}.

Definition execute (stmt : string) (w : db) : res cursor_attrs * db :=
  if String.eqb stmt "SELECT * FROM t" then
    (Ok (attrs (Some ["x"]) (-1) w),
     {| durable := durable w; working := working w;
        fetched := map (fun v => [PStr v]) (working w); last_id := last_id w |})
  else if String.eqb stmt "EXPLAIN QUERY PLAN SELECT * FROM t" then
    (Ok (attrs (Some ["id"; "parent"; "notused"; "detail"]) (-1) w),
     {| durable := durable w; working := working w;
        fetched := [[PInt 2; PInt 0; PInt 0; PStr "SCAN t"]]; last_id := last_id w |})
  else if startswith "INSERT INTO t VALUES " stmt then
    let v := drop 21 stmt in
    let content := (working w ++ [v])%list in
    let id := Some (Z.of_nat (List.length content)) in
    (Ok {| description := None; rowcount := 1; lastrowid := id |},
     {| durable := durable w; working := content; fetched := []; last_id := id |})
  else if startswith "DELETE FROM t WHERE x=" stmt then
    let v := drop 22 stmt in
    let content := filter (fun y => negb (String.eqb y v)) (working w) in
    (Ok (attrs None (Z.of_nat (List.length (working w) - List.length content)) w),
     {| durable := durable w; working := content; fetched := []; last_id := last_id w |})
  else
    (Exn "syntax error", w).

Definition commit (w : db) : res unit * db :=
  (Ok tt, {| durable := working w; working := working w;
             fetched := fetched w; last_id := last_id w |}).

Definition rollback (w : db) : res unit * db :=
  (Ok tt, {| durable := durable w; working := durable w;
             fetched := fetched w; last_id := last_id w |}).

Definition engine : Engine db := {|
  e_connect := fun w => (Ok tt, fresh (durable w));
  e_execute := execute;
  e_fetchall := fun w => (Ok (fetched w),
                          {| durable := durable w; working := working w;
                             fetched := []; last_id := last_id w |});
  e_commit := commit;
  e_rollback := rollback;
  e_close := fun w => (Ok tt, fresh (durable w))
|}.

Definition start (content : list string) : world db :=
  {| eng := fresh content; calls := [] |}.

End Toy.


(* ================================================================== *)
(** ** What the engine answers to a statement sequence *)
(* ================================================================== *)

(** The answer of the engine to one statement: for a read the cursor
    attributes and the rows fetched, for a write the cursor attributes. *)
Inductive obs : Type :=
| ObsRead (cur : cursor_attrs) (rows : list row)
| ObsWrite (cur : cursor_attrs).

Section EngineRuns.
Context {W : Type} (E : Engine W).

(** The engine taken through a statement sequence with every call
    succeeding: a read is executed and fetched, a write is executed and
    committed.  [None] when some call raises. *)
Fixpoint engine_run (stmts : list string) (w : W) : option (list obs * W) :=
  match stmts with
  | [] => Some ([], w)
  | stmt :: rest =>
      match e_execute E stmt w with
      | (Ok cur, w1) =>
          if is_select stmt then
            match e_fetchall E w1 with
            | (Ok rows, w2) =>
                match engine_run rest w2 with
                | Some (os, w3) => Some (ObsRead cur rows :: os, w3)
                | None => None
                end
            | (Exn _, _) => None
            end
          else
            match e_commit E w1 with
            | (Ok _, w2) =>
                match engine_run rest w2 with
                | Some (os, w3) => Some (ObsWrite cur :: os, w3)
                | None => None
                end
            | (Exn _, _) => None
            end
      | (Exn _, _) => None
      end
  end.
End EngineRuns.

(** The engine calls that a statement costs when it succeeds. *)
Definition calls_of (stmt : string) : list call :=
  if is_select stmt then [Execute stmt; Fetchall] else [Execute stmt; Commit].

(** The cursors of the writes of a run, in order; no row data is kept. *)
Fixpoint writes (os : list obs) : list cursor_attrs :=
  match os with
  | [] => []
  | ObsWrite cur :: rest => cur :: writes rest
  | ObsRead _ _ :: rest => writes rest
  end.

(** The rows of the reads of a run, as the code turns them into
    mappings. *)
Fixpoint reads (os : list obs) : list (list dict) :=
  match os with
  | [] => []
  | ObsRead cur rows :: rest => rows_as_dicts (column_names cur) rows :: reads rest
  | ObsWrite _ :: rest => reads rest
  end.

(** The last element of a list, when there is one. *)
Fixpoint last_opt {A : Type} (l : list A) : option A :=
  match l with
  | [] => None
  | x :: l' => match last_opt l' with Some y => Some y | None => Some x end
  end.

(** Rows affected, summed over the writes that report a count. *)
Definition rows_affected (ws : list cursor_attrs) : Z :=
  fold_right Z.add 0%Z
    (map rowcount (filter (fun cur => negb (Z.eqb (rowcount cur) (-1))) ws)).

(** [lastrowid] as the last write left it. *)
Definition last_inserted (ws : list cursor_attrs) : option Z :=
  match last_opt ws with
  | Some cur => lastrowid cur
  | None => None
  end.

(** The value that [dict(pairs)] binds to a key: that of the last pair
    with the key. *)
Fixpoint last_binding (k : string) (kvs : list (string * pyval)) : option pyval :=
  match kvs with
  | [] => None
  | (k', v) :: rest =>
      match last_binding k rest with
      | Some v' => Some v'
      | None => if String.eqb k' k then Some v else None
      end
  end.

(** [d] is the mapping from column name to value for the row [r] under
    the column names [cols]: it has each key once, it binds a name to the
    value that stands with the last occurrence of the name, and when no
    name occurs twice it is the list of the pairs of name and value, in
    the order of the columns. *)
Definition maps_columns (cols : list string) (r : row) (d : dict) : Prop :=
  NoDup (dict_keys d)
  /\ (forall k : string, dict_get k d = last_binding k (combine cols r))
  /\ (NoDup cols -> d = combine cols r).

(** The mutation summary of a run: it is made from the writes alone. *)
Definition summary_of (ws : list cursor_attrs) : dict :=
  [("rows_affected", PInt (rows_affected ws));
   ("last_row_id", opt_int (last_inserted ws))].

(** The rows of the final statement of a run, when it is a read. *)
Definition final_rows (os : list obs) : list dict :=
  match last_opt os with
  | Some (ObsRead cur rows) => rows_as_dicts (column_names cur) rows
  | _ => []
  end.

(** The loop variables of [execute_sql_query] after a run that succeeds. *)
Definition acc_after (acc : exec_acc) (os : list obs) : exec_acc :=
  {| total_rows_affected := (total_rows_affected acc + rows_affected (writes os))%Z;
     last_row_id := match last_opt (writes os) with
                    | Some cur => lastrowid cur
                    | None => last_row_id acc
                    end;
     select_result := match last_opt (reads os) with
                      | Some r => r
                      | None => select_result acc
                      end |}.

(** Whether every character of a text passes a test. *)
Fixpoint all_chars (p : ascii -> bool) (s : string) : bool :=
  match s with
  | EmptyString => true
  | String c s' => p c && all_chars p s'
  end.

(** Whether every character of a text is white space. *)
Definition all_space (s : string) : bool := all_chars is_space s.

(** A stand-in for [str] on the values whose text form is not modelled,
    for the runs on the small engine. *)
Definition str_plain (v : pyval) : string := "?".

(** The validation phase of [query_executor_node] ends in a rejection
    [valid] in one of two ways: the first validation rejects and alias
    repair changes nothing, or it rejects, the repaired text is validated
    once more, and that is rejected too. *)
Definition rejected {W : Type} (E : Engine W) (sql : string) (w : world W)
    (valid : dict) (w' : world W) : Prop :=
  truthy (dict_get "valid" valid) = false /\
  ((ensure_aliases sql = sql /\ validate_sql_query E sql w = (Ok valid, w'))
   \/ (ensure_aliases sql <> sql /\
       exists (first : dict) (w1 : world W),
         validate_sql_query E sql w = (Ok first, w1) /\
         truthy (dict_get "valid" first) = false /\
         validate_sql_query E (ensure_aliases sql) w1 = (Ok valid, w'))).

(** The five patches of [ensure_aliases], in the order it applies them. *)
Definition patch_all (select_part : string) : string :=
  patch (patch (patch (patch (patch select_part "COUNT" "count")
                         "SUM" "total") "AVG" "average") "MIN" "min") "MAX" "max".

(** The alias that goes with each function name. *)
Definition alias_table : list (string * string) :=
  [("COUNT", "count"); ("SUM", "total"); ("AVG", "average"); ("MIN", "min"); ("MAX", "max")].

(** [F] holds of no text that starts inside [x] and runs on through [y]. *)
Definition nowhere (F : string -> Prop) (x y : string) : Prop :=
  forall x1 x2 : string, x = x1 ++ x2 -> x2 <> EmptyString -> F (x2 ++ y).

(** What is tried after each candidate for group 1 of [select_re]: the
    rest of the pattern, with the candidate recorded. *)
Definition from_cont (s0 : string) (s' : string) : option (captures * string) :=
  rmatch from_re s' [(1, consumed s0 s')] (fun rest caps => Some (caps, rest)).

Definition not_space (c : ascii) : bool := negb (is_space c).
Definition not_open (c : ascii) : bool := negb (Ascii.eqb c "(").
Definition not_close (c : ascii) : bool := negb (Ascii.eqb c ")").

(** The characters allowed in the argument of a simple call: no white
    space and no parenthesis. *)
Definition arg_char (c : ascii) : bool := not_space c && not_open c && not_close c.

(** The first character of a text, tested against a class. *)
Definition starts_in (k : cclass) (s : string) : bool :=
  match s with
  | EmptyString => false
  | String c _ => in_class k c
  end.

(** Whether a text is over, or goes on with a closing parenthesis. *)
Definition closes (s : string) : bool :=
  match s with
  | EmptyString => true
  | String c _ => Ascii.eqb c ")"
  end.

(** A character that the letter [a] does not match, whatever the case. *)
Definition not_ci (c a : ascii) : bool := negb (eqb_ci a c).

(** Equality of two words up to the case of their letters. *)
Fixpoint ci_eq (w w' : string) : bool :=
  match w, w' with
  | EmptyString, EmptyString => true
  | String a w1, String b w2 => eqb_ci a b && ci_eq w1 w2
  | _, _ => false
  end.

(** The end of [select_re] does not match at the start of a text. *)
Definition no_from (t : string) : Prop := forall s0 : string, from_cont s0 t = None.

(** The pattern of the function [g] does not match at the start of a
    text. *)
Definition no_call (g : string) (t : string) : Prop := re_match (agg_re g) t = None.

(** A call [f(arg)] followed by [tl]. *)
Definition call_text (f arg tl : string) : string :=
  f ++ String "(" (arg ++ String ")" tl).

(* ================================================================== *)
(** ** A SELECT clause as calls and the text between them *)
(* ================================================================== *)





















(* ================================================================== *)
(** ** The schema tool ([db_utils.py]) *)
(* ================================================================== *)

Definition raise {W A : Type} (msg : string) : M W A := fun w => (Exn msg, w).

(** [t[i]] on a tuple: an index past the end raises [IndexError]. *)
Definition tuple_item {W : Type} (t : row) (i : nat) : M W pyval :=
  match nth_error t i with
  | Some v => ret v
  | None => raise "tuple index out of range"
  end.

Section Schema.
Variable str_other : pyval -> string.
Context {W : Type} (E : Engine W).
Open Scope py_scope.

(** [[t[0] for t in rows]] *)
Fixpoint first_items (rows : list row) : M W (list pyval) :=
  match rows with
  | [] => ret []
  | t :: rest =>
      v <- tuple_item t 0 ;;
      vs <- first_items rest ;;
      ret (v :: vs)
  end.

(** The inner loop of [get_database_schema], over the columns of one
    table. *)
Fixpoint columns_loop (columns : list row) (schema_info : list string) : M W (list string) :=
  match columns with
  | [] => ret schema_info
  | col :: rest =>
      col_name <- tuple_item col 1 ;;
      col_type <- tuple_item col 2 ;;
      columns_loop rest
        (app schema_info ["  - " ++ py_str str_other col_name ++ ": "
                            ++ py_str str_other col_type])
  end.

(** The outer loop, over the tables. *)
Fixpoint tables_loop (tables : list pyval) (schema_info : list string) : M W (list string) :=
  match tables with
  | [] => ret schema_info
  | table_name :: rest =>
      cursor_execute E ("PRAGMA table_info(" ++ py_str str_other table_name ++ ")") ;;;
      columns <- cursor_fetchall E ;;
      schema_info <- columns_loop columns
                       (app schema_info [nl ++ "Table: " ++ py_str str_other table_name]) ;;
      tables_loop rest schema_info
  end.

Definition catalog_query : string :=
  "SELECT name FROM sqlite_master WHERE type='table' AND name!='sqlite_sequence'".

Definition get_database_schema : M W string :=
  sqlite3_connect E ;;;
  cursor_execute E catalog_query ;;;
  rows <- cursor_fetchall E ;;
  tables <- first_items rows ;;
  schema_info <- tables_loop tables [] ;;
  conn_close E ;;;
  ret (String.concat nl schema_info).

(* ================================================================ *)
(** ** The helpers of [app.py] *)
(* ================================================================ *)

(** [get_schema_text] *)
Definition get_schema_text : M W string :=
  try_except get_database_schema (fun e => ret ("-- Failed to load schema: " ++ e)).

(** [run_sql] *)
Definition run_sql (sql : string) : M W (list dict) :=
  try_except (execute_sql_query E sql)
    (fun e => ret [[("error", PStr ("Error executing query: " ++ e))]]).

End Schema.

Definition lower_char (c : ascii) : ascii :=
  if is_upper c then ascii_of_nat (nat_of_ascii c + 32) else c.

(** [s.lower()] *)
Fixpoint lower (s : string) : string :=
  match s with
  | EmptyString => EmptyString
  | String c s' => String (lower_char c) (lower s')
  end.

Definition DML_PREFIXES : list string :=
  ["insert"; "update"; "delete"; "drop"; "alter"; "create"; "truncate"].

(** [is_dml]; [sql] may be [None]. *)
Definition is_dml (sql : option string) : bool :=
  let sql := lower (strip (match sql with Some q => q | None => EmptyString end)) in
  existsb (fun p => startswith p sql) DML_PREFIXES.

(* ================================================================== *)
(** ** The nodes over message states ([agent.py]) *)
(* ================================================================== *)

(** A message is an object with optional attributes [type], [role] and
    [content], or a plain [dict]. *)
Inductive message : Type :=
| MsgObj (type role : option string) (content : option pyval)
| MsgDict (d : dict).

(** [AIMessage(content=text)] *)
Definition AIMessage (text : string) : message :=
  MsgObj (Some "ai") None (Some (PStr text)).

(** [MsgState] *)
Record MsgState : Type := {
  messages : list message;
  m_sql_query : option string;
  m_query_result : option (list dict);
  m_final_response : option string
}.

Definition is_str (v : option pyval) (s : string) : bool :=
  match v with
  | Some (PStr t) => String.eqb t s
  | _ => false
  end.

(** The body of the loop of [_extract_last_user_message]: what the
    message makes the function return, if anything. *)
Definition user_content (m : message) : option pyval :=
  match m with
  | MsgObj type role content =>
      if is_str (option_map PStr type) "human" || is_str (option_map PStr role) "user"
      then Some (match content with Some v => v | None => PStr "" end)
      else None
  | MsgDict d =>
      if is_str (dict_get "type" d) "human" || is_str (dict_get "role" d) "user"
      then Some (match dict_get "content" d with Some v => v | None => PStr "" end)
      else None
  end.

Fixpoint first_user_content (ms : list message) : pyval :=
  match ms with
  | [] => PStr ""
  | m :: rest =>
      match user_content m with
      | Some v => v
      | None => first_user_content rest
      end
  end.

(** [_extract_last_user_message]: the loop runs over [reversed(messages)]. *)
Definition _extract_last_user_message (state : MsgState) : pyval :=
  first_user_content (rev (messages state)).

Section MsgNodes.
Variable str_other : pyval -> string.
Context {W : Type} (E : Engine W).
Open Scope py_scope.

Definition query_executor_node_msgs (state : MsgState) : M W MsgState :=
  let sql := strip (match m_sql_query state with Some q => q | None => EmptyString end) in
  let update (result : list dict) :=
    {| messages := messages state;
       m_sql_query := m_sql_query state;
       m_query_result := Some result;
       m_final_response := m_final_response state |} in
  if is_empty sql then
    ret (update [[("error", PStr "No SQL query provided")]])
  else
    valid <- validate_sql_query E sql ;;
    sv <- (if negb (truthy (dict_get "valid" valid)) then
             let fixed := ensure_aliases sql in
             if negb (String.eqb fixed sql) then
               valid' <- validate_sql_query E fixed ;;
               ret (fixed, valid')
             else ret (sql, valid)
           else ret (sql, valid)) ;;
    let sql := fst sv in
    let valid := snd sv in
    if negb (truthy (dict_get "valid" valid)) then
      ret (update [[("error",
                     PStr ("Invalid query: "
                             ++ py_str str_other (opt_val (dict_get "error" valid))))]])
    else
      result <- execute_sql_query E sql ;;
      ret (update result).

End MsgNodes.

Section MsgRenderer.
Variable str_other : pyval -> string.

Definition response_generator_node_msgs (state : MsgState) : MsgState :=
  let sql := strip (match m_sql_query state with Some q => q | None => EmptyString end) in
  let result := match m_query_result state with Some r => r | None => [] end in
  let reply (final : string) :=
    {| messages := [AIMessage final];
       m_sql_query := m_sql_query state;
       m_query_result := m_query_result state;
       m_final_response := Some final |} in
  let is_error := match result with first :: _ => dict_has "error" first | [] => false end in
  let is_summary :=
    match result with first :: _ => dict_has "rows_affected" first | [] => false end in
  let first := match result with first :: _ => first | [] => [] end in
  if is_error then
    reply (error_mark ++ " Error: " ++ py_str str_other (opt_val (dict_get "error" first)))
  else if is_summary then
    let ra := match dict_get "rows_affected" first with Some v => v | None => PInt 0 end in
    let lr := opt_val (dict_get "last_row_id" first) in
    reply (sql_block sql ++ "**Result**" ++ nl
             ++ "- Rows affected: **" ++ py_str str_other ra ++ "**" ++ nl
             ++ "- Last inserted id: **" ++ py_str str_other lr ++ "**")
  else
    reply (sql_block sql
             ++ "**Rows:** " ++ str_of_nat (List.length result) ++ nl ++ nl
             ++ as_markdown_table str_other result 1000 ++ nl ++ nl
             ++ as_row_details str_other result 100 "Row details").

End MsgRenderer.

(* ================================================================== *)
(** ** Vocabulary for the properties of the calls made *)
(* ================================================================== *)

(** The calls that [execute_sql_query] may make after [connect], for the
    statements [stmts]: executions of these statements, fetches, commits
    and the closing of the connection. *)
Definition exec_call_ok (stmts : list string) (c : call) : bool :=
  match c with
  | Execute s => existsb (String.eqb s) stmts
  | Fetchall | Commit | Close => true
  | Connect | Rollback => false
  end.

(** The statement that the validator hands to the engine for [stmt]. *)
Definition trial_of (stmt : string) : string :=
  if is_select stmt then "EXPLAIN QUERY PLAN " ++ stmt else stmt.

(** The calls that [validate_sql_query] may make after [connect]. *)
Definition validate_call_ok (stmts : list string) (c : call) : bool :=
  match c with
  | Execute s => existsb (fun stmt => String.eqb s (trial_of stmt)) stmts
  | Fetchall | Rollback | Close => true
  | Connect | Commit => false
  end.

Definition is_connect (c : call) : bool :=
  match c with Connect => true | _ => false end.

(** [s] is what is left of [t] when some characters of [t] are taken
    out: [t] is [s] with text inserted. *)
Inductive inserted_into : string -> string -> Prop :=
| ins_done : inserted_into EmptyString EmptyString
| ins_keep (c : ascii) (s t : string) :
    inserted_into s t -> inserted_into (String c s) (String c t)
| ins_more (c : ascii) (s t : string) :
    inserted_into s t -> inserted_into s (String c t).

(** What both executor nodes compute for the stripped text: the value
    that they store under [query_result]. *)
Definition executor_result (str_other : pyval -> string) {W : Type} (E : Engine W)
    (sql : string) : M W (list dict) :=
  if is_empty sql then
    ret [[("error", PStr "No SQL query provided")]]
  else
    bind (validate_sql_query E sql) (fun valid =>
    bind (if negb (truthy (dict_get "valid" valid)) then
            let fixed := ensure_aliases sql in
            if negb (String.eqb fixed sql) then
              bind (validate_sql_query E fixed) (fun valid' => ret (fixed, valid'))
            else ret (sql, valid)
          else ret (sql, valid)) (fun sv =>
    if negb (truthy (dict_get "valid" (snd sv))) then
      ret [[("error",
             PStr ("Invalid query: "
                     ++ py_str str_other (opt_val (dict_get "error" (snd sv)))))]]
    else execute_sql_query E (fst sv))).

(** The calls that [get_database_schema] makes between opening and
    closing the connection: the query of the catalogue, a [PRAGMA
    table_info] and fetches. *)
Definition schema_read (c : call) : bool :=
  match c with
  | Execute s => String.eqb s catalog_query || startswith "PRAGMA table_info(" s
  | Fetchall => true
  | Connect | Commit | Rollback | Close => false
  end.

(** The statements among the pieces of a split: each piece stripped, the
    blank ones left out. *)
Definition clean_pieces (l : list string) : list string :=
  map strip (filter (fun s => negb (is_empty (strip s))) l).

(* ================================================================== *)
(** ** The analyser node, the graph and the chat bot ([agent.py]) *)
(* ================================================================== *)

(** The system prompt of [query_analyzer_node], an f-string over the
    schema text and the question. *)
Definition system_prompt (schema question : string) : string :=
  nl
    ++ "You are a database expert for SQLite."
    ++ nl
    ++ nl
    ++ "Database schema:"
    ++ nl
    ++ schema
    ++ nl
    ++ nl
    ++ "Rules:"
    ++ nl
    ++ "1) Use exact table/column names from the schema."
    ++ nl
    ++ "2) Valid SQLite syntax only."
    ++ nl
    ++ "3) Use JOINs when needed to link tables."
    ++ nl
    ++ "4) If the user asks for multiple actions (e.g., delete then show), output multiple statements separated by semicolons ';'."
    ++ nl
    ++ "5) Do NOT include explanations, output SQL only."
    ++ nl
    ++ "6) When using aggregations (COUNT/SUM/AVG/MIN/MAX), add a short alias (e.g., COUNT(*) AS count)."
    ++ nl
    ++ nl
    ++ "Examples:"
    ++ nl
    ++ "Q: Delete Mona Ahmed then show customers."
    ++ nl
    ++ "A: DELETE FROM customers WHERE name = 'Mona Ahmed'; SELECT * FROM customers;"
    ++ nl
    ++ nl
    ++ "Q: How many customers?"
    ++ nl
    ++ "A: SELECT COUNT(*) AS count FROM customers;"
    ++ nl
    ++ nl
    ++ "User question: "
    ++ question
    ++ nl
    ++ nl
    ++ "Write the SQL (one or more statements separated by ';') only:"
    ++ nl.

(** An entry of [chat_history]; the time stamp is left out. *)
Record chat_entry : Type := {
  h_user : string;
  h_bot : option string;
  h_sql_query : option string
}.

Section ChatBot.
Variable str_other : pyval -> string.
Context {W : Type} (E : Engine W).

(** [llm.invoke([SystemMessage(content=system), HumanMessage(content=user)]).content]:
    the language model is outside the repository; it answers with some
    text, or the call raises. *)
Variable llm : string -> string -> res string.
Open Scope py_scope.

Definition llm_invoke (system user : string) : M W string :=
  fun w => (llm system user, w).

Definition query_analyzer_node (state : ChatBotState) : M W ChatBotState :=
  let question := user_query state in
  if is_empty question then
    ret {| user_query := user_query state;
           sql_query := Some "";
           query_result := Some [];
           final_response := Some "Please provide a question in the user_query field." |}
  else
    schema <- get_database_schema str_other E ;;
    response <- llm_invoke (system_prompt schema question) question ;;
    ret {| user_query := user_query state;
           sql_query := Some (ensure_aliases (clean_code_fences response));
           query_result := Some [];
           final_response := Some "" |}.

(** The compiled graph of [create_chatbot_graph]: a chain of the three
    nodes.  Each node returns the whole state, which is handed to the
    next one. *)
Definition chatbot_graph (state : ChatBotState) : M W ChatBotState :=
  s1 <- query_analyzer_node state ;;
  s2 <- query_executor_node str_other E s1 ;;
  ret (response_generator_node str_other s2).

(** [DatabaseChatBot.chat].  The history of the bot is threaded through:
    an entry is appended after the graph has returned, so a call that
    raises leaves the history as it was. *)
Definition chat (user_input : string) (chat_history : list chat_entry) (w : world W)
  : res (option string) * list chat_entry * world W :=
  match chatbot_graph {| user_query := user_input;
                         sql_query := Some "";
                         query_result := Some [];
                         final_response := Some "" |} w with
  | (Ok result, w') =>
      (Ok (final_response result),
       app chat_history [{| h_user := user_input;
                            h_bot := final_response result;
                            h_sql_query := sql_query result |}],
       w')
  | (Exn e, w') => (Exn e, chat_history, w')
  end.

End ChatBot.

(** An engine on which every call succeeds and every result is empty. *)
Module Quiet.

Definition engine : Engine unit := {|
  e_connect := fun w => (Ok tt, w);
  e_execute := fun _ w =>
    (Ok {| description := None; rowcount := (-1)%Z; lastrowid := None |}, w);
  e_fetchall := fun w => (Ok [], w);
  e_commit := fun w => (Ok tt, w);
  e_rollback := fun w => (Ok tt, w);
  e_close := fun w => (Ok tt, w)
|}.

Definition start : world unit := {| eng := tt; calls := [] |}.

End Quiet.

(* ================================================================== *)
(** ** Mappings built from pairs *)
(* ================================================================== *)

Lemma dict_get_set_eq k v d : dict_get k (dict_set k v d) = Some v.
Proof.
  induction d as [|[k' v'] d IH]; simpl.
  - now rewrite String.eqb_refl.
  - destruct (String.eqb k' k) eqn:E; simpl.
    + now rewrite String.eqb_refl.
    + now rewrite E.
Qed.

Lemma dict_get_set_ne k k0 v d :
  String.eqb k0 k = false -> dict_get k (dict_set k0 v d) = dict_get k d.
Proof.
  intros Hne. induction d as [|[k' v'] d IH]; simpl.
  - now rewrite Hne.
  - destruct (String.eqb k' k0) eqn:E; simpl.
    + apply String.eqb_eq in E. subst k'. now rewrite Hne.
    + now rewrite IH.
Qed.

Lemma dict_keys_set k v d x :
  In x (dict_keys (dict_set k v d)) <-> x = k \/ In x (dict_keys d).
Proof.
  unfold dict_keys. induction d as [|[k' v'] d IH]; simpl.
  - intuition.
  - destruct (String.eqb k' k) eqn:E; simpl.
    + apply String.eqb_eq in E. subst k'. intuition.
    + rewrite IH. intuition.
Qed.

Lemma dict_set_nodup k v d :
  NoDup (dict_keys d) -> NoDup (dict_keys (dict_set k v d)).
Proof.
  unfold dict_keys. induction d as [|[k' v'] d IH]; simpl; intros H.
  - constructor; [intros [] | constructor].
  - inversion H as [|? ? Hnin Hd]; subst.
    destruct (String.eqb k' k) eqn:E; simpl.
    + apply String.eqb_eq in E. subst k'. now constructor.
    + constructor; [|now apply IH].
      intros Hin. apply (dict_keys_set k v d k') in Hin.
      destruct Hin as [->|Hin]; [|contradiction].
      rewrite String.eqb_refl in E. discriminate.
Qed.

Lemma dict_of_pairs_from kvs :
  forall d,
    NoDup (dict_keys d) ->
    NoDup (dict_keys (fold_left (fun d kv => dict_set (fst kv) (snd kv) d) kvs d))
    /\ (forall k,
           dict_get k (fold_left (fun d kv => dict_set (fst kv) (snd kv) d) kvs d)
           = match last_binding k kvs with
             | Some v => Some v
             | None => dict_get k d
             end)
    /\ (forall k,
           In k (dict_keys (fold_left (fun d kv => dict_set (fst kv) (snd kv) d) kvs d)) ->
           In k (map fst kvs) \/ In k (dict_keys d)).
Proof.
  induction kvs as [|[k0 v0] kvs IH]; intros d Hd; simpl.
  - repeat split; auto.
  - destruct (IH (dict_set k0 v0 d) (dict_set_nodup k0 v0 d Hd)) as [H1 [H2 H3]].
    split; [exact H1|]. split.
    + intros k. rewrite H2. destruct (last_binding k kvs); [reflexivity|].
      destruct (String.eqb k0 k) eqn:E.
      * apply String.eqb_eq in E. subst. apply dict_get_set_eq.
      * now apply dict_get_set_ne.
    + intros k Hk. destruct (H3 k Hk) as [Hin|Hin]; [auto|].
      apply dict_keys_set in Hin. destruct Hin as [->|Hin]; auto.
Qed.

Lemma dict_of_pairs_get kvs k : dict_get k (dict_of_pairs kvs) = last_binding k kvs.
Proof.
  unfold dict_of_pairs.
  destruct (dict_of_pairs_from kvs [] (NoDup_nil _)) as [_ [H _]].
  rewrite H. now destruct (last_binding k kvs).
Qed.

Lemma dict_set_fresh k v d :
  ~ In k (dict_keys d) -> dict_set k v d = (d ++ [(k, v)])%list.
Proof.
  unfold dict_keys. induction d as [|[k' v'] d IH]; simpl; intros H; [reflexivity|].
  destruct (String.eqb k' k) eqn:E.
  - apply String.eqb_eq in E. subst. exfalso. apply H. now left.
  - rewrite IH; [reflexivity|]. intros Hin. apply H. now right.
Qed.

Lemma dict_of_distinct_pairs kvs :
  forall d,
    NoDup (dict_keys d ++ map fst kvs)%list ->
    fold_left (fun d kv => dict_set (fst kv) (snd kv) d) kvs d = (d ++ kvs)%list.
Proof.
  induction kvs as [|[k v] kvs IH]; intros d H; simpl.
  - now rewrite app_nil_r.
  - simpl in H. rewrite dict_set_fresh.
    + rewrite IH.
      * now rewrite <- app_assoc.
      * unfold dict_keys in *. rewrite map_app, <- app_assoc. exact H.
    + intros Hin. apply NoDup_remove_2 in H. apply H. apply in_app_iff. now left.
Qed.

Lemma keys_of_combine (cols : list string) :
  forall r : row, List.length cols <= List.length r -> map fst (combine cols r) = cols.
Proof.
  induction cols as [|c cols IH]; intros r H; [reflexivity|].
  destruct r as [|v r]; simpl in H; [lia|].
  simpl. rewrite IH; [reflexivity | lia].
Qed.

Lemma keys_of_combine_nodup (cols : list string) :
  forall r : row, NoDup cols -> NoDup (map fst (combine cols r)).
Proof.
  induction cols as [|c cols IH]; intros r H; [constructor|].
  destruct r as [|v r]; [constructor|].
  inversion H as [|? ? Hc Hcols]; subst. simpl. constructor; [|now apply IH].
  intros Hin. apply Hc. apply in_map_iff in Hin.
  destruct Hin as [[k v'] [Hk Hin]]. simpl in Hk. subst k.
  now apply in_combine_l in Hin.
Qed.

(** [dict(zip(cols, r))] is the mapping of the row. *)
Lemma dict_of_row cols (r : row) : maps_columns cols r (dict_of_pairs (combine cols r)).
Proof.
  destruct (dict_of_pairs_from (combine cols r) [] (NoDup_nil _)) as [H1 _].
  split; [exact H1|]. split.
  - intros k. apply dict_of_pairs_get.
  - intros Hnd. unfold dict_of_pairs. rewrite dict_of_distinct_pairs; [reflexivity|].
    simpl. now apply keys_of_combine_nodup.
Qed.

(** Every row gets its mapping, in the order of the rows. *)
Lemma rows_get_their_mappings cols rows :
  Forall2 (maps_columns cols) rows (rows_as_dicts cols rows).
Proof.
  unfold rows_as_dicts. induction rows as [|r rows IH]; simpl; constructor;
    [apply dict_of_row | exact IH].
Qed.

(* ================================================================== *)
(** ** Running the tools *)
(* ================================================================== *)

Lemma rows_affected_cons cur ws :
  rows_affected (cur :: ws) =
  ((if Z.eqb (rowcount cur) (-1) then 0 else rowcount cur) + rows_affected ws)%Z.
Proof.
  unfold rows_affected. simpl.
  destruct (Z.eqb (rowcount cur) (-1)); simpl; reflexivity.
Qed.

Lemma last_opt_last (l : list string) (d : string) :
  l <> [] -> last_opt l = Some (last l d).
Proof.
  induction l as [|x l IH]; intros Hne; [congruence|].
  destruct l as [|y l'].
  - reflexivity.
  - change (last (x :: y :: l') d) with (last (y :: l') d).
    change (last_opt (x :: y :: l'))
      with (match last_opt (y :: l') with Some z => Some z | None => Some x end).
    rewrite IH by discriminate. reflexivity.
Qed.

Section ToolFacts.
Context {W : Type} (E : Engine W).

Lemma engine_call_ok {A : Type} (c : call) (op : W -> res A * W) w l r w' :
  op w = (r, w') ->
  engine_call c op {| eng := w; calls := l |} = (r, {| eng := w'; calls := (l ++ [c])%list |}).
Proof. intros H. unfold engine_call. simpl. rewrite H. reflexivity. Qed.

(** The loop follows the engine: when every call succeeds the loop
    variables are those of [acc_after], and the calls made are those of
    the statements, in order. *)
Lemma exec_loop_ok stmts :
  forall acc w l os w',
    engine_run E stmts w = Some (os, w') ->
    exec_loop E stmts acc {| eng := w; calls := l |} =
    (Ok (acc_after acc os),
     {| eng := w'; calls := (l ++ flat_map calls_of stmts)%list |}).
Proof.
  induction stmts as [|stmt rest IH]; intros acc w l os w' Hrun; simpl in Hrun.
  - inversion Hrun; subst. simpl. unfold ret, acc_after. simpl.
    rewrite app_nil_r, Z.add_0_r. destruct acc; reflexivity.
  - destruct (e_execute E stmt w) as [[cur|e] w1] eqn:Hex; [|discriminate].
    simpl. unfold calls_of.
    destruct (is_select stmt) eqn:Hsel.
    + destruct (e_fetchall E w1) as [[rows|e] w2] eqn:Hf; [|discriminate].
      destruct (engine_run E rest w2) as [[os' w3]|] eqn:Hrest; [|discriminate].
      inversion Hrun; subst.
      unfold bind, cursor_execute, cursor_fetchall.
      rewrite (engine_call_ok _ _ _ _ _ _ Hex).
      rewrite (engine_call_ok _ _ _ _ _ _ Hf).
      rewrite (IH _ _ _ _ _ Hrest).
      f_equal.
      * f_equal. unfold acc_after. simpl. f_equal.
        destruct (last_opt (reads os')); reflexivity.
      * f_equal. simpl. rewrite <- !app_assoc. reflexivity.
    + destruct (e_commit E w1) as [[u|e] w2] eqn:Hc; [|discriminate].
      destruct (engine_run E rest w2) as [[os' w3]|] eqn:Hrest; [|discriminate].
      inversion Hrun; subst.
      unfold bind, cursor_execute, conn_commit.
      rewrite (engine_call_ok _ _ _ _ _ _ Hex).
      rewrite (engine_call_ok _ _ _ _ _ _ Hc).
      rewrite (IH _ _ _ _ _ Hrest).
      f_equal.
      * f_equal. unfold acc_after. simpl. f_equal.
        -- rewrite rows_affected_cons.
           destruct (Z.eqb (rowcount cur) (-1)); lia.
        -- destruct (last_opt (writes os')); reflexivity.
      * f_equal. simpl. rewrite <- !app_assoc. reflexivity.
Qed.

(** When the last statement of a run is a read, its rows are the last
    rows read. *)
Lemma engine_run_final_read stmts :
  forall w os w',
    engine_run E stmts w = Some (os, w') ->
    match last_opt stmts with
    | Some stmt => is_select stmt = true
    | None => False
    end ->
    last_opt (reads os) = Some (final_rows os).
Proof.
  induction stmts as [|stmt rest IH]; intros w os w' Hrun Hlast; simpl in *.
  - contradiction.
  - destruct (e_execute E stmt w) as [[cur|e] w1] eqn:Hex; [|discriminate].
    destruct (is_select stmt) eqn:Hsel.
    + destruct (e_fetchall E w1) as [[rows|e] w2] eqn:Hf; [|discriminate].
      destruct (engine_run E rest w2) as [[os' w3]|] eqn:Hrest; [|discriminate].
      inversion Hrun; subst. unfold final_rows. simpl.
      destruct (last_opt rest) as [s|] eqn:Hl.
      * specialize (IH _ _ _ Hrest Hlast). rewrite IH.
        unfold final_rows.
        destruct (last_opt os') as [o|] eqn:Ho; [reflexivity|].
        destruct os'; [|simpl in Ho; destruct (last_opt os'); discriminate].
        simpl in IH. discriminate.
      * destruct rest; [|simpl in Hl; destruct (last_opt rest); discriminate].
        simpl in Hrest. inversion Hrest; subst. reflexivity.
    + destruct (e_commit E w1) as [[u|e] w2] eqn:Hc; [|discriminate].
      destruct (engine_run E rest w2) as [[os' w3]|] eqn:Hrest; [|discriminate].
      inversion Hrun; subst. unfold final_rows. simpl.
      destruct (last_opt rest) as [s|] eqn:Hl; [|congruence].
      specialize (IH _ _ _ Hrest Hlast). rewrite IH.
      unfold final_rows.
      destruct (last_opt os') as [o|] eqn:Ho; [reflexivity|].
      destruct os'; [|simpl in Ho; destruct (last_opt os'); discriminate].
      simpl in IH. discriminate.
Qed.

(** The whole of [execute_sql_query] when no engine call raises. *)
Lemma execute_sql_query_ok sql w0 l w1 os w2 w3 :
  statements sql <> [] ->
  e_connect E w0 = (Ok tt, w1) ->
  engine_run E (statements sql) w1 = Some (os, w2) ->
  e_close E w2 = (Ok tt, w3) ->
  execute_sql_query E sql {| eng := w0; calls := l |} =
  (Ok (if is_select (last (statements sql) EmptyString)
       then final_rows os
       else [summary_of (writes os)]),
   {| eng := w3;
      calls := (l ++ Connect :: flat_map calls_of (statements sql) ++ [Close])%list |}).
Proof.
  intros Hne Hconn Hrun Hclose.
  unfold execute_sql_query, try_except, bind, sqlite3_connect, conn_close.
  rewrite (engine_call_ok _ _ _ _ _ _ Hconn).
  destruct (statements sql) as [|s0 stmts] eqn:Hst; [congruence|].
  rewrite (exec_loop_ok _ _ _ _ _ _ Hrun).
  rewrite (engine_call_ok _ _ _ _ _ _ Hclose).
  unfold ret. f_equal.
  - f_equal.
    destruct (is_select (last (s0 :: stmts) EmptyString)) eqn:Hsel.
    + unfold acc_after; simpl select_result.
      rewrite (engine_run_final_read _ _ _ _ Hrun); [reflexivity|].
      rewrite (last_opt_last _ EmptyString) by discriminate. exact Hsel.
    + unfold dml_summary, summary_of, acc_after, last_inserted. simpl.
      destruct (last_opt (writes os)); reflexivity.
  - f_equal. rewrite <- !app_assoc. reflexivity.
Qed.

(** The loop stops at the first statement whose execution raises: the
    statements before it have been executed, and committed when they are
    writes; nothing is rolled back and nothing more is called. *)
Lemma exec_loop_fails pre :
  forall bad post acc w l os w1 e w2,
    engine_run E pre w = Some (os, w1) ->
    e_execute E bad w1 = (Exn e, w2) ->
    exec_loop E (pre ++ bad :: post)%list acc {| eng := w; calls := l |} =
    (Exn e, {| eng := w2; calls := (l ++ flat_map calls_of pre ++ [Execute bad])%list |}).
Proof.
  induction pre as [|stmt rest IH]; intros bad post acc w l os w1 e w2 Hrun Hbad;
    simpl in Hrun.
  - inversion Hrun; subst. simpl.
    unfold bind, cursor_execute.
    destruct (is_select bad); rewrite (engine_call_ok _ _ _ _ _ _ Hbad); reflexivity.
  - destruct (e_execute E stmt w) as [[cur|e'] w1'] eqn:Hex; [|discriminate].
    simpl. unfold calls_of.
    destruct (is_select stmt) eqn:Hsel.
    + destruct (e_fetchall E w1') as [[rows|e'] w2'] eqn:Hf; [|discriminate].
      destruct (engine_run E rest w2') as [[os' w3]|] eqn:Hrest; [|discriminate].
      inversion Hrun; subst.
      unfold bind, cursor_execute, cursor_fetchall.
      rewrite (engine_call_ok _ _ _ _ _ _ Hex).
      rewrite (engine_call_ok _ _ _ _ _ _ Hf).
      rewrite (IH _ _ _ _ _ _ _ _ _ Hrest Hbad).
      do 2 f_equal. simpl. rewrite <- !app_assoc. reflexivity.
    + destruct (e_commit E w1') as [[u|e'] w2'] eqn:Hc; [|discriminate].
      destruct (engine_run E rest w2') as [[os' w3]|] eqn:Hrest; [|discriminate].
      inversion Hrun; subst.
      unfold bind, cursor_execute, conn_commit.
      rewrite (engine_call_ok _ _ _ _ _ _ Hex).
      rewrite (engine_call_ok _ _ _ _ _ _ Hc).
      rewrite (IH _ _ _ _ _ _ _ _ _ Hrest Hbad).
      do 2 f_equal. simpl. rewrite <- !app_assoc. reflexivity.
Qed.

(** Neither tool lets an exception out. *)
Lemma execute_sql_query_returns sql w :
  exists r w', execute_sql_query E sql w = (Ok r, w').
Proof.
  unfold execute_sql_query, try_except.
  match goal with |- context [match ?m w with _ => _ end] => destruct (m w) as [[a|e] w'] end.
  - eauto.
  - unfold ret. eauto.
Qed.

Lemma validate_sql_query_returns sql w :
  exists r w', validate_sql_query E sql w = (Ok r, w').
Proof.
  unfold validate_sql_query, try_except.
  match goal with |- context [match ?m w with _ => _ end] => destruct (m w) as [[a|e] w'] end.
  - eauto.
  - unfold ret. eauto.
Qed.

End ToolFacts.

(* ================================================================== *)
(** ** The executor: what is returned, and what stays committed *)
(* ================================================================== *)

(** The final answer of a run is a read exactly when the final statement
    starts with SELECT. *)
Lemma engine_run_final_kind {W : Type} (E : Engine W) stmts :
  forall w os w',
    engine_run E stmts w = Some (os, w') ->
    stmts <> [] ->
    match last_opt os with
    | Some (ObsRead _ _) => is_select (last stmts EmptyString) = true
    | Some (ObsWrite _) => is_select (last stmts EmptyString) = false
    | None => False
    end.
Proof.
  induction stmts as [|stmt rest IH]; intros w os w' Hrun Hne; [congruence|].
  simpl in Hrun.
  destruct (e_execute E stmt w) as [[cur|e] w1]; [|discriminate].
  destruct (is_select stmt) eqn:Hsel.
  - destruct (e_fetchall E w1) as [[rows|e] w2]; [|discriminate].
    destruct (engine_run E rest w2) as [[os' w3]|] eqn:Hrest; [|discriminate].
    inversion Hrun; subst. destruct rest as [|s rest'].
    + simpl in Hrest. inversion Hrest; subst. simpl. exact Hsel.
    + specialize (IH _ _ _ Hrest ltac:(discriminate)).
      change (last (stmt :: s :: rest') EmptyString) with (last (s :: rest') EmptyString).
      cbn [last_opt]. destruct (last_opt os') as [o|]; [exact IH | contradiction].
  - destruct (e_commit E w1) as [[u|e] w2]; [|discriminate].
    destruct (engine_run E rest w2) as [[os' w3]|] eqn:Hrest; [|discriminate].
    inversion Hrun; subst. destruct rest as [|s rest'].
    + simpl in Hrest. inversion Hrest; subst. simpl. exact Hsel.
    + specialize (IH _ _ _ Hrest ltac:(discriminate)).
      change (last (stmt :: s :: rest') EmptyString) with (last (s :: rest') EmptyString).
      cbn [last_opt]. destruct (last_opt os') as [o|]; [exact IH | contradiction].
Qed.

(** C1.  When no engine call raises, [execute_sql_query] makes the calls
    of the statements in their order, between one [connect] and one
    [close], and what it returns comes from the final statement.  When
    that statement starts with SELECT, the result has one mapping for
    each row that the engine returned for it, in the order of the rows,
    from the column names of its cursor to the values of the row.
    Otherwise the result is one mapping: [rows_affected] is the sum of the
    row counts of the writes of the run, and [last_row_id] is the row id
    that the last write left, [None] when it left none.  The text
    ["DELETE FROM t WHERE x=1; SELECT * FROM t;"] splits into two
    statements, the second a SELECT. *)
Theorem execute_sql_query_reflects_final_statement :
  (forall (W : Type) (E : Engine W) (sql : string) (w0 : W) (l : list call)
          (w1 : W) (os : list obs) (w2 w3 : W),
      statements sql <> [] ->
      e_connect E w0 = (Ok tt, w1) ->
      engine_run E (statements sql) w1 = Some (os, w2) ->
      e_close E w2 = (Ok tt, w3) ->
      exists result : list dict,
        execute_sql_query E sql {| eng := w0; calls := l |} =
        (Ok result,
         {| eng := w3;
            calls := (l ++ Connect :: flat_map calls_of (statements sql) ++ [Close])%list |})
        /\ match last_opt os with
           | Some (ObsRead cur rows) =>
               is_select (last (statements sql) EmptyString) = true
               /\ Forall2 (maps_columns (match description cur with
                                         | Some names => names
                                         | None => []
                                         end)) rows result
           | Some (ObsWrite _) =>
               is_select (last (statements sql) EmptyString) = false
               /\ result = [[("rows_affected", PInt (rows_affected (writes os)));
                             ("last_row_id",
                              match last_inserted (writes os) with
                              | Some id => PInt id
                              | None => PNone
                              end)]]
           | None => False
           end)
  /\ statements "DELETE FROM t WHERE x=1; SELECT * FROM t;"
     = ["DELETE FROM t WHERE x=1"; "SELECT * FROM t"]
  /\ is_select "DELETE FROM t WHERE x=1" = false
  /\ is_select "SELECT * FROM t" = true.
Proof.
  split; [|repeat split; reflexivity].
  intros W E sql w0 l w1 os w2 w3 Hne Hconn Hrun Hclose.
  eexists. split.
  - exact (execute_sql_query_ok E sql w0 l w1 os w2 w3 Hne Hconn Hrun Hclose).
  - pose proof (engine_run_final_kind E _ _ _ _ Hrun Hne) as Hkind.
    unfold final_rows.
    destruct (last_opt os) as [[cur rows|cur]|]; [| |contradiction].
    + split; [exact Hkind|]. rewrite Hkind. apply rows_get_their_mappings.
    + split; [exact Hkind|]. rewrite Hkind.
      unfold summary_of, opt_int. reflexivity.
Qed.

Lemma execute_sql_query_reflects_final_statement_witness :
  (exists result : list dict,
      execute_sql_query Toy.engine "INSERT INTO t VALUES 7; SELECT * FROM t;"
        (Toy.start ["1"; "2"])
      = (Ok result,
         {| eng := Toy.fresh ["1"; "2"; "7"];
            calls := [Connect; Execute "INSERT INTO t VALUES 7"; Commit;
                      Execute "SELECT * FROM t"; Fetchall; Close] |})
      /\ Forall2 (maps_columns ["x"]) [[PStr "1"]; [PStr "2"]; [PStr "7"]] result)
  /\ (exists result : list dict,
        execute_sql_query Toy.engine
          "SELECT * FROM t; INSERT INTO t VALUES 7; DELETE FROM t WHERE x=1"
          (Toy.start ["1"; "2"])
        = (Ok result,
           {| eng := Toy.fresh ["2"; "7"];
              calls := [Connect; Execute "SELECT * FROM t"; Fetchall;
                        Execute "INSERT INTO t VALUES 7"; Commit;
                        Execute "DELETE FROM t WHERE x=1"; Commit; Close] |})
        /\ result = [[("rows_affected", PInt 2); ("last_row_id", PInt 3)]]).
Proof.
  split.
  - pose (sql := "INSERT INTO t VALUES 7; SELECT * FROM t;").
    pose (w1 := snd (e_connect Toy.engine (Toy.fresh ["1"; "2"]))).
    pose (run := engine_run Toy.engine (statements sql) w1).
    pose (os := match run with Some (os, _) => os | None => [] end).
    pose (w2 := match run with Some (_, w) => w | None => w1 end).
    pose (w3 := snd (e_close Toy.engine w2)).
    assert (H1 : statements sql <> []) by (vm_compute; discriminate).
    assert (H2 : e_connect Toy.engine (Toy.fresh ["1"; "2"]) = (Ok tt, w1)) by reflexivity.
    assert (H3 : engine_run Toy.engine (statements sql) w1 = Some (os, w2)) by reflexivity.
    assert (H4 : e_close Toy.engine w2 = (Ok tt, w3)) by reflexivity.
    destruct (proj1 execute_sql_query_reflects_final_statement
                _ Toy.engine sql _ [] w1 os w2 w3 H1 H2 H3 H4) as [result [Hres Hlast]].
    exists result. split; [exact Hres | exact (proj2 Hlast)].
  - pose (sql := "SELECT * FROM t; INSERT INTO t VALUES 7; DELETE FROM t WHERE x=1").
    pose (w1 := snd (e_connect Toy.engine (Toy.fresh ["1"; "2"]))).
    pose (run := engine_run Toy.engine (statements sql) w1).
    pose (os := match run with Some (os, _) => os | None => [] end).
    pose (w2 := match run with Some (_, w) => w | None => w1 end).
    pose (w3 := snd (e_close Toy.engine w2)).
    assert (H1 : statements sql <> []) by (vm_compute; discriminate).
    assert (H2 : e_connect Toy.engine (Toy.fresh ["1"; "2"]) = (Ok tt, w1)) by reflexivity.
    assert (H3 : engine_run Toy.engine (statements sql) w1 = Some (os, w2)) by reflexivity.
    assert (H4 : e_close Toy.engine w2 = (Ok tt, w3)) by reflexivity.
    destruct (proj1 execute_sql_query_reflects_final_statement
                _ Toy.engine sql _ [] w1 os w2 w3 H1 H2 H3 H4) as [result [Hres Hlast]].
    exists result. split; [exact Hres | exact (proj2 Hlast)].
Defined.

(** C6.  Every statement that is not a SELECT is committed right after
    it is executed.  When a later statement raises, the call is answered
    with the error row; the calls made are those of the statements before
    it, each write followed by its commit, and the execution that failed;
    no rollback is among them, and the engine is left as the failing
    execution left it after those commits. *)
Theorem writes_are_committed_one_by_one :
  forall (W : Type) (E : Engine W) (sql : string) (pre : list string) (bad : string)
         (post : list string) (w0 : W) (l : list call) (w1 : W) (os : list obs)
         (w2 : W) (e : string) (w3 : W),
    statements sql = (pre ++ bad :: post)%list ->
    e_connect E w0 = (Ok tt, w1) ->
    engine_run E pre w1 = Some (os, w2) ->
    e_execute E bad w2 = (Exn e, w3) ->
    execute_sql_query E sql {| eng := w0; calls := l |} =
    (Ok [error_row ("Error executing query: " ++ e)],
     {| eng := w3;
        calls := (l ++ Connect :: flat_map calls_of pre ++ [Execute bad])%list |})
    /\ (forall stmt, In stmt pre -> is_select stmt = false ->
        calls_of stmt = [Execute stmt; Commit])
    /\ ~ In Rollback (flat_map calls_of pre ++ [Execute bad])%list.
Proof.
  intros W E sql pre bad post w0 l w1 os w2 e w3 Hst Hconn Hrun Hbad.
  split; [|split].
  - unfold execute_sql_query, try_except, bind, sqlite3_connect.
    rewrite (engine_call_ok _ _ _ _ _ _ Hconn).
    rewrite Hst.
    destruct (pre ++ bad :: post)%list as [|s0 rest] eqn:Hsplit.
    + destruct pre; discriminate.
    + rewrite <- Hsplit.
      rewrite (exec_loop_fails _ _ _ _ _ _ _ _ _ _ _ Hrun Hbad).
      unfold ret. do 2 f_equal. rewrite <- !app_assoc. reflexivity.
  - intros stmt _ Hsel. unfold calls_of. rewrite Hsel. reflexivity.
  - intros Hin. apply in_app_or in Hin. destruct Hin as [Hin|Hin].
    + apply in_flat_map in Hin. destruct Hin as [stmt [_ Hin]].
      unfold calls_of in Hin.
      destruct (is_select stmt); simpl in Hin;
        destruct Hin as [Hin|[Hin|[]]]; discriminate.
    + destruct Hin as [Hin|[]]. discriminate.
Qed.

Lemma writes_are_committed_one_by_one_witness :
  execute_sql_query Toy.engine "INSERT INTO t VALUES 7; SELECT * FROM t; bogus"
    (Toy.start ["1"])
  = (Ok [error_row ("Error executing query: " ++ "syntax error")],
     {| eng := {| Toy.durable := ["1"; "7"]; Toy.working := ["1"; "7"];
                  Toy.fetched := []; Toy.last_id := Some 2%Z |};
        calls := [Connect; Execute "INSERT INTO t VALUES 7"; Commit;
                  Execute "SELECT * FROM t"; Fetchall; Execute "bogus"] |}).
Proof.
  pose (sql := "INSERT INTO t VALUES 7; SELECT * FROM t; bogus").
  pose (pre := ["INSERT INTO t VALUES 7"; "SELECT * FROM t"]).
  pose (w1 := snd (e_connect Toy.engine (Toy.fresh ["1"]))).
  pose (run := engine_run Toy.engine pre w1).
  pose (os := match run with Some (os, _) => os | None => [] end).
  pose (w2 := match run with Some (_, w) => w | None => w1 end).
  pose (w3 := snd (e_execute Toy.engine "bogus" w2)).
  assert (H1 : statements sql = (pre ++ "bogus" :: [])%list) by reflexivity.
  assert (H2 : e_connect Toy.engine (Toy.fresh ["1"]) = (Ok tt, w1)) by reflexivity.
  assert (H3 : engine_run Toy.engine pre w1 = Some (os, w2)) by reflexivity.
  assert (H4 : e_execute Toy.engine "bogus" w2 = (Exn "syntax error", w3)) by reflexivity.
  exact (proj1 (writes_are_committed_one_by_one
                  _ Toy.engine sql pre "bogus" [] _ [] w1 os w2 _ w3 H1 H2 H3 H4)).
Defined.

(** C8.  When the final statement is a write and no engine call raises,
    the result is one mapping whose keys are exactly [rows_affected] and
    [last_row_id]; it is made from the cursors of the writes of the run
    and holds nothing of the rows that an earlier SELECT produced. *)
Theorem successful_write_yields_summary_only :
  forall (W : Type) (E : Engine W) (sql : string) (w0 : W) (l : list call)
         (w1 : W) (os : list obs) (w2 w3 : W),
    statements sql <> [] ->
    is_select (last (statements sql) EmptyString) = false ->
    e_connect E w0 = (Ok tt, w1) ->
    engine_run E (statements sql) w1 = Some (os, w2) ->
    e_close E w2 = (Ok tt, w3) ->
    exists d : dict,
      fst (execute_sql_query E sql {| eng := w0; calls := l |}) = Ok [d]
      /\ dict_keys d = ["rows_affected"; "last_row_id"]
      /\ d = summary_of (writes os).
Proof.
  intros W E sql w0 l w1 os w2 w3 Hne Hsel Hconn Hrun Hclose.
  exists (summary_of (writes os)).
  rewrite (execute_sql_query_ok E sql w0 l w1 os w2 w3 Hne Hconn Hrun Hclose).
  rewrite Hsel. repeat split.
Qed.

Lemma successful_write_yields_summary_only_witness :
  exists d : dict,
    fst (execute_sql_query Toy.engine
           "SELECT * FROM t; INSERT INTO t VALUES 7; DELETE FROM t WHERE x=1"
           (Toy.start ["1"; "2"])) = Ok [d]
    /\ dict_keys d = ["rows_affected"; "last_row_id"]
    /\ d = [("rows_affected", PInt 2); ("last_row_id", PInt 3)].
Proof.
  pose (sql := "SELECT * FROM t; INSERT INTO t VALUES 7; DELETE FROM t WHERE x=1").
  pose (w1 := snd (e_connect Toy.engine (Toy.fresh ["1"; "2"]))).
  pose (run := engine_run Toy.engine (statements sql) w1).
  pose (os := match run with Some (os, _) => os | None => [] end).
  pose (w2 := match run with Some (_, w) => w | None => w1 end).
  pose (w3 := snd (e_close Toy.engine w2)).
  assert (H1 : statements sql <> []) by (vm_compute; discriminate).
  assert (H0 : is_select (last (statements sql) EmptyString) = false) by reflexivity.
  assert (H2 : e_connect Toy.engine (Toy.fresh ["1"; "2"]) = (Ok tt, w1)) by reflexivity.
  assert (H3 : engine_run Toy.engine (statements sql) w1 = Some (os, w2)) by reflexivity.
  assert (H4 : e_close Toy.engine w2 = (Ok tt, w3)) by reflexivity.
  exact (successful_write_yields_summary_only
           _ Toy.engine sql _ [] w1 os w2 w3 H1 H0 H2 H3 H4).
Defined.

(* ================================================================== *)
(** ** The executor node and the renderer *)
(* ================================================================== *)

Lemma lstrip_all_space s : all_space s = true -> lstrip s = EmptyString.
Proof.
  unfold all_space. induction s as [|c s IH]; simpl; intros H; [reflexivity|].
  apply andb_true_iff in H. destruct H as [Hc Hs].
  rewrite Hc. now apply IH.
Qed.

Lemma strip_all_space s : all_space s = true -> strip s = EmptyString.
Proof. intros H. unfold strip. now rewrite (lstrip_all_space _ H). Qed.

(** C7.  When the generated SQL is absent, empty or made of white space
    only, the executor node answers with one row carrying the [error] key
    and leaves the world as it found it: the log of engine calls has not
    grown, so neither the validator nor the engine was called. *)
Theorem blank_sql_is_an_error_without_engine_call :
  forall (str_other : pyval -> string) (W : Type) (E : Engine W)
         (state : ChatBotState) (w : world W),
    all_space (match sql_query state with Some q => q | None => EmptyString end) = true ->
    exists state' : ChatBotState,
      query_executor_node str_other E state w = (Ok state', w)
      /\ query_result state' = Some [[("error", PStr "No SQL query provided")]]
      /\ dict_has "error" [("error", PStr "No SQL query provided")] = true.
Proof.
  intros str_other W E state w Hblank.
  unfold query_executor_node, stripped_sql.
  rewrite (strip_all_space _ Hblank). simpl.
  eexists. split; [reflexivity|]. split; reflexivity.
Qed.

Lemma blank_sql_is_an_error_without_engine_call_witness :
  exists state' : ChatBotState,
    query_executor_node str_plain Toy.engine
      {| user_query := "how many?"; sql_query := Some ("  " ++ nl ++ tab);
         query_result := Some []; final_response := Some "" |}
      (Toy.start ["1"])
    = (Ok state', Toy.start ["1"])
    /\ query_result state' = Some [[("error", PStr "No SQL query provided")]]
    /\ dict_has "error" [("error", PStr "No SQL query provided")] = true.
Proof.
  apply (blank_sql_is_an_error_without_engine_call str_plain Toy.db Toy.engine).
  reflexivity.
Defined.

(** Called on its own with such a text, [execute_sql_query] answers
    [Empty SQL] after it has opened a connection, and calls nothing else. *)
Lemma statements_all_space sql : all_space sql = true -> statements sql = [].
Proof.
  intros H. unfold statements. now rewrite (strip_all_space _ H).
Qed.

Lemma execute_sql_query_blank {W : Type} (E : Engine W) sql w0 l w1 :
  all_space sql = true ->
  e_connect E w0 = (Ok tt, w1) ->
  execute_sql_query E sql {| eng := w0; calls := l |}
  = (Ok [error_row "Empty SQL"], {| eng := w1; calls := (l ++ [Connect])%list |}).
Proof.
  intros Hblank Hconn.
  unfold execute_sql_query, try_except, bind, sqlite3_connect.
  rewrite (engine_call_ok _ _ _ _ _ _ Hconn), (statements_all_space _ Hblank).
  reflexivity.
Qed.

(** A rejection by the validator always has the shape
    [{"valid": False, "error": <text>}]. *)
Lemma validate_sql_query_rejection {W : Type} (E : Engine W) sql w valid w' :
  validate_sql_query E sql w = (Ok valid, w') ->
  truthy (dict_get "valid" valid) = false ->
  exists msg, valid = [("valid", PBool false); ("error", PStr msg)].
Proof.
  unfold validate_sql_query, try_except, bind, ret.
  destruct (sqlite3_connect E w) as [[u|e] w1].
  - destruct (statements sql) as [|s0 rest].
    + intros H _. inversion H; subst. eauto.
    + destruct (validate_loop E (s0 :: rest) [] w1) as [[plans|e] w2].
      * destruct (conn_close E w2) as [[u'|e] w3].
        -- intros H Hv. inversion H; subst. discriminate.
        -- intros H _. inversion H; subst. eauto.
      * intros H _. inversion H; subst. eauto.
  - intros H _. inversion H; subst. eauto.
Qed.

(** What the executor node does with a rejection. *)
Lemma query_executor_node_rejected (str_other : pyval -> string) {W : Type} (E : Engine W)
    state w valid w' :
  is_empty (stripped_sql state) = false ->
  rejected E (stripped_sql state) w valid w' ->
  query_executor_node str_other E state w =
  (Ok {| user_query := user_query state;
         sql_query := sql_query state;
         query_result :=
           Some [[("error",
                   PStr ("Invalid query: "
                           ++ py_str str_other (opt_val (dict_get "error" valid))))]];
         final_response := Some "" |}, w').
Proof.
  intros Hne [Hv Hcase].
  unfold query_executor_node. rewrite Hne. unfold bind.
  destruct Hcase as [[Hsame Hval]|[Hdiff [first [w1 [Hval1 [Hv1 Hval2]]]]]].
  - rewrite Hval. cbv beta iota. rewrite Hv. cbn [negb].
    rewrite Hsame, String.eqb_refl. cbn [negb].
    unfold ret. cbn [fst snd]. rewrite Hv. reflexivity.
  - rewrite Hval1. cbv beta iota. rewrite Hv1. cbn [negb].
    destruct (String.eqb (ensure_aliases (stripped_sql state)) (stripped_sql state)) eqn:Heq.
    + apply String.eqb_eq in Heq. contradiction.
    + cbn [negb]. rewrite Hval2.
      unfold ret. cbn [fst snd]. rewrite Hv. reflexivity.
Qed.

(** C4, as the code has it.  When the validation phase of the executor
    node ends in a rejection, the reply that the renderer makes from the
    node's result is the error prefix of the renderer, then
    [Invalid query: ], then the message of the rejection; so the reply
    begins with the prefix and not with [Invalid query:]. *)
Theorem rejected_reply_is_prefixed_error :
  forall (str_other : pyval -> string) (W : Type) (E : Engine W)
         (state : ChatBotState) (w : world W) (valid : dict) (w' : world W),
    is_empty (stripped_sql state) = false ->
    rejected E (stripped_sql state) w valid w' ->
    exists (state' : ChatBotState) (msg : string),
      query_executor_node str_other E state w = (Ok state', w')
      /\ dict_get "error" valid = Some (PStr msg)
      /\ final_response (response_generator_node str_other state')
         = Some (error_mark ++ " Error: Invalid query: " ++ msg).
Proof.
  intros str_other W E state w valid w' Hne Hrej.
  pose proof (query_executor_node_rejected str_other E state w valid w' Hne Hrej) as Hnode.
  assert (Hshape : exists msg, valid = [("valid", PBool false); ("error", PStr msg)]).
  { destruct Hrej as [Hv [[_ Hval]|[_ [first [w1 [_ [_ Hval]]]]]]];
      eapply validate_sql_query_rejection; eauto. }
  destruct Hshape as [msg ->].
  eexists. exists msg. split; [exact Hnode|]. split; reflexivity.
Qed.

Lemma rejected_reply_is_prefixed_error_witness :
  exists (state' : ChatBotState) (msg : string),
    query_executor_node str_plain Toy.engine
      {| user_query := "show all"; sql_query := Some "SELECT * FORM t";
         query_result := Some []; final_response := Some "" |}
      (Toy.start ["1"])
    = (Ok state',
       {| eng := Toy.fresh ["1"];
          calls := [Connect; Execute "EXPLAIN QUERY PLAN SELECT * FORM t"] |})
    /\ dict_get "error" [("valid", PBool false); ("error", PStr "syntax error")]
       = Some (PStr msg)
    /\ final_response (response_generator_node str_plain state')
       = Some (error_mark ++ " Error: Invalid query: " ++ msg).
Proof.
  apply (rejected_reply_is_prefixed_error str_plain Toy.db Toy.engine).
  - reflexivity.
  - split; [reflexivity|]. left. split; reflexivity.
Defined.

(** C4, as the claim words it, fails: the reply to a rejected statement
    does not begin with [Invalid query:]. *)
Lemma rejected_reply_does_not_begin_with_invalid_query :
  let state := {| user_query := "show all"; sql_query := Some "SELECT * FORM t";
                  query_result := Some []; final_response := Some "" |} in
  exists (state' : ChatBotState) (w' : world Toy.db) (reply : string),
    fst (validate_sql_query Toy.engine "SELECT * FORM t" (Toy.start ["1"]))
    = Ok [("valid", PBool false); ("error", PStr "syntax error")]
    /\ query_executor_node str_plain Toy.engine state (Toy.start ["1"]) = (Ok state', w')
    /\ final_response (response_generator_node str_plain state') = Some reply
    /\ startswith "Invalid query:" reply = false
    /\ reply = error_mark ++ " Error: Invalid query: syntax error".
Proof.
  simpl. do 3 eexists. repeat split; reflexivity.
Qed.

(* ================================================================== *)
(** ** The validator *)
(* ================================================================== *)

(** C5, at its failing input.  The engine refuses the write
    [DELETE FORM t] with a syntax error, and the validator accepts it. *)
Theorem invalid_write_passes_validation :
  is_select "DELETE FORM t" = false
  /\ fst (e_execute Toy.engine "DELETE FORM t" (Toy.fresh ["1"])) = Exn "syntax error"
  /\ validate_sql_query Toy.engine "DELETE FORM t" (Toy.start ["1"])
     = (Ok [("valid", PBool true); ("plan", PList [])],
        {| eng := Toy.fresh ["1"];
           calls := [Connect; Execute "DELETE FORM t"; Close] |}).
Proof. repeat split; reflexivity. Qed.

(** C9, at its failing input.  An exception raised by the trial execution
    of a write inside [validate_sql_query] is dropped: the value returned
    says [valid] and carries no [error] key. *)
Theorem swallowed_write_failure_carries_no_error :
  forall (W : Type) (E : Engine W) (sql stmt : string) (w0 : W) (l : list call)
         (w1 : W) (e : string) (w2 w3 : W),
    statements sql = [stmt] ->
    is_select stmt = false ->
    e_connect E w0 = (Ok tt, w1) ->
    e_execute E stmt w1 = (Exn e, w2) ->
    e_close E w2 = (Ok tt, w3) ->
    exists valid : dict,
      validate_sql_query E sql {| eng := w0; calls := l |}
      = (Ok valid, {| eng := w3; calls := (l ++ [Connect; Execute stmt; Close])%list |})
      /\ dict_get "valid" valid = Some (PBool true)
      /\ dict_has "error" valid = false.
Proof.
  intros W E sql stmt w0 l w1 e w2 w3 Hst Hsel Hconn Hbad Hclose.
  exists [("valid", PBool true); ("plan", PList [])].
  split; [|split; reflexivity].
  unfold validate_sql_query, try_except, bind, sqlite3_connect, conn_close.
  rewrite (engine_call_ok _ _ _ _ _ _ Hconn), Hst.
  simpl validate_loop. rewrite Hsel.
  unfold try_except, bind, cursor_execute.
  rewrite (engine_call_ok _ _ _ _ _ _ Hbad).
  unfold ret.
  rewrite (engine_call_ok _ _ _ _ _ _ Hclose).
  do 2 f_equal. rewrite <- !app_assoc. reflexivity.
Qed.

Lemma swallowed_write_failure_carries_no_error_witness :
  exists valid : dict,
    validate_sql_query Toy.engine "UPDATE t SET x=3" (Toy.start ["1"])
    = (Ok valid, {| eng := Toy.fresh ["1"];
                    calls := ([] ++ [Connect; Execute "UPDATE t SET x=3"; Close])%list |})
    /\ dict_get "valid" valid = Some (PBool true)
    /\ dict_has "error" valid = false.
Proof.
  apply (swallowed_write_failure_carries_no_error
           Toy.db Toy.engine "UPDATE t SET x=3" "UPDATE t SET x=3"
           (Toy.fresh ["1"]) [] (Toy.fresh ["1"]) "syntax error"
           (Toy.fresh ["1"]) (Toy.fresh ["1"]));
    reflexivity.
Defined.

(* ================================================================== *)
(** ** Splitting at markers *)
(* ================================================================== *)

#[local] Arguments startswith : simpl never.

Lemma str_app_nil_r (s : string) : s ++ EmptyString = s.
Proof. induction s as [|c s IH]; simpl; [reflexivity | now rewrite IH]. Qed.

Lemma str_app_assoc (a b c : string) : (a ++ b) ++ c = a ++ b ++ c.
Proof. induction a as [|x a IH]; simpl; [reflexivity | now rewrite IH]. Qed.

Lemma str_length_app (a b : string) :
  String.length (a ++ b) = String.length a + String.length b.
Proof. induction a as [|x a IH]; simpl; [reflexivity | now rewrite IH]. Qed.

Lemma startswith_cons sep c s :
  startswith sep (String c s) =
  match sep with
  | EmptyString => true
  | String a sep' => Ascii.eqb a c && startswith sep' s
  end.
Proof.
  unfold startswith. destruct sep as [|a sep']; [reflexivity|].
  simpl. destruct (Ascii.ascii_dec a c) as [->|Hne].
  - now rewrite Ascii.eqb_refl.
  - apply Ascii.eqb_neq in Hne. now rewrite Hne.
Qed.

Lemma startswith_nil sep : startswith sep EmptyString = is_empty sep.
Proof. destruct sep; reflexivity. Qed.

Lemma startswith_app sep s : startswith sep (sep ++ s) = true.
Proof.
  induction sep as [|a sep IH]; [destruct s; reflexivity|].
  simpl. rewrite startswith_cons, Ascii.eqb_refl. exact IH.
Qed.

Lemma startswith_decompose sep s :
  startswith sep s = true -> s = sep ++ drop (String.length sep) s.
Proof.
  revert s. induction sep as [|a sep IH]; intros s H.
  - destruct s; reflexivity.
  - destruct s as [|b s]; [discriminate|].
    rewrite startswith_cons in H. apply andb_true_iff in H. destruct H as [Hab H].
    apply Ascii.eqb_eq in Hab. subst b. simpl. f_equal. now apply IH.
Qed.

Lemma startswith_longer a b s :
  startswith (a ++ b) s = true -> startswith a s = true.
Proof.
  revert s. induction a as [|x a IH]; intros s H.
  - destruct s; reflexivity.
  - destruct s as [|y s]; [discriminate|].
    simpl in H. rewrite startswith_cons in *.
    apply andb_true_iff in H. destruct H as [Hxy H].
    rewrite Hxy. simpl. now apply IH.
Qed.

Lemma drop_0 s : drop 0 s = s.
Proof. destruct s; reflexivity. Qed.

Section SplitFacts.
Variable sep : string.
Lemma split_go_fst s : forall n, fst (split_go sep s n) = before sep (drop n s).
Proof.
  induction s as [|c s IH]; intros n.
  - destruct n; reflexivity.
  - destruct n as [|n].
    + simpl drop. simpl split_go. simpl before.
      destruct (startswith sep (String c s)).
      * destruct (split_go sep s (String.length sep - 1)); reflexivity.
      * specialize (IH 0). rewrite drop_0 in IH.
        destruct (split_go sep s 0) as [p ps]. simpl in *. now rewrite IH.
    + simpl. apply IH.
Qed.

(** The first piece of a split is the text before the first marker. *)
Lemma split_first s : nth 0 (split sep s) EmptyString = before sep s.
Proof.
  unfold split. pose proof (split_go_fst s 0) as H. rewrite drop_0 in H.
  destruct (split_go sep s 0); exact H.
Qed.

(** The second piece is the text after the first marker, up to the
    next one. *)
Lemma split_second s :
  sep <> EmptyString ->
  contains sep s = true ->
  nth 1 (split sep s) EmptyString = before sep (after sep s).
Proof.
  intros Hsep. unfold split.
  induction s as [|c s IH]; intros Hin.
  - simpl in Hin. rewrite startswith_nil in Hin.
    destruct sep; [congruence|discriminate].
  - simpl split_go. simpl after.
    destruct (startswith sep (String c s)) eqn:Hp.
    + pose proof (split_go_fst s (String.length sep - 1)) as H.
      destruct (split_go sep s (String.length sep - 1)) as [p ps].
      simpl in *. rewrite H.
      destruct sep as [|a sep']; [congruence|].
      simpl. rewrite Nat.sub_0_r. reflexivity.
    + simpl in Hin. rewrite Hp in Hin. simpl in Hin.
      specialize (IH Hin).
      destruct (split_go sep s 0) as [p ps]. exact IH.
Qed.

(** A marker that occurs cuts the text in three. *)
Lemma before_sep_after s :
  contains sep s = true -> s = before sep s ++ sep ++ after sep s.
Proof.
  induction s as [|c s IH]; intros Hin.
  - simpl in Hin. rewrite startswith_nil in Hin.
    destruct sep; [reflexivity|discriminate].
  - simpl in Hin. simpl before. simpl after.
    destruct (startswith sep (String c s)) eqn:Hp.
    + simpl. now apply startswith_decompose.
    + simpl in Hin. simpl. f_equal. now apply IH.
Qed.

Lemma contains_longer b s :
  contains (sep ++ b) s = true -> contains sep s = true.
Proof.
  induction s as [|c s IH]; simpl; intros H.
  - now apply startswith_longer with (b := b).
  - apply orb_true_iff in H. apply orb_true_iff. destruct H as [H|H].
    + left. now apply startswith_longer with (b := b).
    + right. now apply IH.
Qed.

End SplitFacts.

Lemma before_prefix sep s :
  exists rest, s = before sep s ++ rest /\ (rest = EmptyString \/ startswith sep rest = true).
Proof.
  induction s as [|c s [rest [Hs Hrest]]].
  - exists EmptyString. simpl. auto.
  - simpl before. destruct (startswith sep (String c s)) eqn:Hp.
    + exists (String c s). simpl. auto.
    + exists rest. simpl. split; [f_equal; exact Hs | exact Hrest].
Qed.

Lemma startswith_app_r p x y : startswith p x = true -> startswith p (x ++ y) = true.
Proof.
  revert x. induction p as [|a p IH]; intros x H.
  - destruct (x ++ y); reflexivity.
  - destruct x as [|b x]; [discriminate|].
    simpl. rewrite startswith_cons in *.
    apply andb_true_iff in H. destruct H as [-> H]. simpl. now apply IH.
Qed.

(** Without four backticks in a row, cutting at the next [```sql] marker
    first does not move the cut at the next [```] marker. *)
Lemma before_fence_cut r :
  contains "````" r = false ->
  before "```" (before "```sql" r) = before "```" r.
Proof.
  induction r as [|c r IH]; intros H4; [reflexivity|].
  simpl in H4. apply orb_false_iff in H4. destruct H4 as [H4 H4r].
  specialize (IH H4r).
  simpl before at 2. simpl before at 3.
  destruct (startswith "```sql" (String c r)) eqn:Hsql.
  - rewrite (startswith_longer "```" "sql" _ Hsql). reflexivity.
  - simpl before. rewrite IH.
    destruct (before_prefix "```sql" r) as [rest [Hr Hrest]].
    destruct (startswith "```" (String c r)) eqn:H3.
    + assert (Hx : startswith "```" (String c (before "```sql" r)) = true);
        [|now rewrite Hx].
      rewrite Hr in H3, H4, Hsql.
      destruct Hrest as [->|Hrest].
      * now rewrite str_app_nil_r in H3.
      * apply startswith_decompose in Hrest. simpl in Hrest.
        rewrite Hrest in H3, H4, Hsql.
        destruct (before "```sql" r) as [|x1 [|x2 X]]; cbn [append] in *;
          repeat rewrite startswith_cons in H3;
          repeat rewrite startswith_cons in H4;
          repeat rewrite startswith_cons;
          repeat (apply andb_true_iff in H3; destruct H3 as [? H3]);
          repeat match goal with
                 | Hc : Ascii.eqb _ _ = true |- _ => apply Ascii.eqb_eq in Hc; subst
                 end;
          rewrite ?Ascii.eqb_refl in *; cbn [andb] in *;
          try discriminate; try reflexivity.
        now destruct X.
    + destruct (startswith "```" (String c (before "```sql" r))) eqn:Hx; [|reflexivity].
      apply (startswith_app_r _ _ rest) in Hx. simpl in Hx. rewrite <- Hr in Hx. congruence.
Qed.

(** C10, as the code has it.  With a [```sql] marker in the text the
    result is the text after the first such marker, cut at the next
    [```sql] marker and then at the first [```] marker, stripped; when the
    text after the first [```sql] marker has no four backticks in a row
    this is the content between that marker and the next [```] marker.
    With a [```] marker but no [```sql] marker it is the content between
    the first [```] marker and the next one, stripped.  With no marker it
    is the text, stripped. *)
Theorem clean_code_fences_cuts_at_markers :
  forall text : string,
    (contains "```sql" text = true ->
     clean_code_fences text
     = strip (before "```" (before "```sql" (after "```sql" text)))
     /\ (contains "````" (after "```sql" text) = false ->
         clean_code_fences text = strip (before "```" (after "```sql" text))))
    /\ (contains "```sql" text = false -> contains "```" text = true ->
        clean_code_fences text = strip (before "```" (after "```" text)))
    /\ (contains "```" text = false -> clean_code_fences text = strip text).
Proof.
  intros text. unfold clean_code_fences. split; [|split].
  - intros H. rewrite H.
    rewrite split_first, split_second by (congruence || discriminate).
    split; [reflexivity|].
    intros H4. now rewrite before_fence_cut.
  - intros H1 H2. rewrite H1, H2.
    rewrite split_second by (congruence || discriminate). reflexivity.
  - intros H.
    destruct (contains "```sql" text) eqn:H1.
    + apply (contains_longer "```" "sql") in H1. congruence.
    + rewrite H. reflexivity.
Qed.

Lemma clean_code_fences_cuts_at_markers_witness :
  clean_code_fences ("Here you go: ```sql" ++ nl ++ "SELECT 1;" ++ nl ++ "``` Done.")
  = "SELECT 1;"
  /\ clean_code_fences ("```" ++ nl ++ "SELECT 2;" ++ nl ++ "``` Done.") = "SELECT 2;"
  /\ clean_code_fences (" SELECT 3;" ++ nl) = "SELECT 3;".
Proof.
  split; [|split].
  - apply (proj1 (clean_code_fences_cuts_at_markers
                    ("Here you go: ```sql" ++ nl ++ "SELECT 1;" ++ nl ++ "``` Done."))
                 eq_refl).
    reflexivity.
  - apply (proj1 (proj2 (clean_code_fences_cuts_at_markers
                           ("```" ++ nl ++ "SELECT 2;" ++ nl ++ "``` Done.")))
                 eq_refl eq_refl).
  - apply (proj2 (proj2 (clean_code_fences_cuts_at_markers (" SELECT 3;" ++ nl)))
                 eq_refl).
Defined.

(** C10, as the claim words it, fails twice.  A text with [```] markers
    and no [```sql] marker loses what follows the second marker, so the
    result is not the content after the first one; and after four
    backticks in a row the cut at the next [```sql] marker comes first, so
    the result is not the content up to the next [```] marker. *)
Lemma clean_code_fences_is_not_all_after_the_fence :
  (contains "```sql" "```SELECT 1``` rest" = false
   /\ contains "```" "```SELECT 1``` rest" = true
   /\ clean_code_fences "```SELECT 1``` rest" = "SELECT 1"
   /\ strip (after "```" "```SELECT 1``` rest") = "SELECT 1``` rest")
  /\ (contains "```sql" "```sql a ````sql b" = true
      /\ clean_code_fences "```sql a ````sql b" = "a `"
      /\ strip (before "```" (after "```sql" "```sql a ````sql b")) = "a").
Proof. repeat split; reflexivity. Qed.

(* ================================================================== *)
(** ** Facts about the matcher *)
(* ================================================================== *)

Lemma orelse_none_r {A : Type} (x : option A) : orelse x None = x.
Proof. destruct x; reflexivity. Qed.

Lemma consumed_app (x y : string) : consumed (x ++ y) y = x.
Proof.
  unfold consumed. rewrite str_length_app.
  replace (String.length x + String.length y - String.length y) with (String.length x) by lia.
  induction x as [|c x IH]; simpl.
  - destruct y; reflexivity.
  - now rewrite IH.
Qed.

Lemma all_chars_app p x y :
  all_chars p (x ++ y) = all_chars p x && all_chars p y.
Proof.
  induction x as [|c x IH]; simpl; [reflexivity|].
  now rewrite IH, andb_assoc.
Qed.

(** Whatever a repetition answers, it is the continuation that answered,
    after a run of the class that is long enough. *)
Lemma rep_match_inv {A : Type} g k s :
  forall min (cont : string -> option A) v,
    rep_match g k min s cont = Some v ->
    exists p s', s = p ++ s' /\ all_chars (in_class k) p = true
                 /\ min <= String.length p /\ cont s' = Some v.
Proof.
  induction s as [|c s IH]; intros min cont v H; simpl in H.
  - destruct min; [|discriminate].
    exists EmptyString, EmptyString. repeat split; auto.
  - assert (Hstop : match min with 0 => cont (String c s) | S _ => None end = Some v ->
                    exists p s', String c s = p ++ s' /\ all_chars (in_class k) p = true
                                 /\ min <= String.length p /\ cont s' = Some v).
    { destruct min; [|discriminate]. intros Hs.
      exists EmptyString, (String c s). repeat split; auto. }
    destruct (in_class k c) eqn:Hc; [|now apply Hstop].
    assert (Hmore : rep_match g k (Nat.pred min) s cont = Some v ->
                    exists p s', String c s = p ++ s' /\ all_chars (in_class k) p = true
                                 /\ min <= String.length p /\ cont s' = Some v).
    { intros Hm. destruct (IH _ _ _ Hm) as [p [s' [Hs [Hp [Hlen Hk]]]]].
      exists (String c p), s'. simpl. rewrite Hs, Hc, Hp. repeat split; auto. lia. }
    destruct g; unfold orelse in H.
    + destruct (rep_match true k (Nat.pred min) s cont) eqn:Hm; [now apply Hmore | now apply Hstop].
    + destruct (match min with 0 => cont (String c s) | S _ => None end) eqn:Hs;
        [now apply Hstop | now apply Hmore].
Qed.

Lemma rep_match_none {A : Type} g k s min (cont : string -> option A) :
  (forall p s', s = p ++ s' -> all_chars (in_class k) p = true ->
                min <= String.length p -> cont s' = None) ->
  rep_match g k min s cont = None.
Proof.
  intros H. destruct (rep_match g k min s cont) as [v|] eqn:Hm; [|reflexivity].
  destruct (rep_match_inv _ _ _ _ _ _ Hm) as [p [s' [Hs [Hp [Hlen Hk]]]]].
  rewrite (H p s' Hs Hp Hlen) in Hk. discriminate.
Qed.

(** A repetition that meets no character of its class stops at once. *)
Lemma rep_match_stop {A : Type} g k s (cont : string -> option A) :
  starts_in k s = false -> rep_match g k 0 s cont = cont s.
Proof.
  destruct s as [|c s]; simpl; [reflexivity|]. now intros ->.
Qed.

Lemma rep_match_short {A : Type} g k m s (cont : string -> option A) :
  starts_in k s = false -> rep_match g k (S m) s cont = None.
Proof.
  destruct s as [|c s]; simpl; [reflexivity|]. now intros ->.
Qed.

(** A greedy repetition takes the whole run when the continuation accepts
    what follows. *)
Lemma rep_greedy_run {A : Type} k x :
  forall min y (cont : string -> option A) v,
    all_chars (in_class k) x = true ->
    starts_in k y = false ->
    min <= String.length x ->
    cont y = Some v ->
    rep_match true k min (x ++ y) cont = Some v.
Proof.
  induction x as [|c x IH]; intros min y cont v Hx Hy Hmin Hk.
  - simpl in Hmin. assert (min = 0) by lia. subst.
    simpl. now rewrite rep_match_stop.
  - simpl in Hx. apply andb_true_iff in Hx. destruct Hx as [Hc Hx].
    simpl. rewrite Hc.
    rewrite (IH (Nat.pred min) y cont v Hx Hy); [reflexivity| simpl in Hmin; lia | exact Hk].
Qed.

(** A greedy repetition in front of a continuation that always accepts. *)
Lemma rep_greedy_accepts {A : Type} k s (f : string -> A) :
  exists s', rep_match true k 0 s (fun t => Some (f t)) = Some (f s').
Proof.
  induction s as [|c s [s' IH]]; simpl.
  - eauto.
  - destruct (in_class k c); [|eauto].
    simpl. rewrite IH. simpl. eauto.
Qed.

(** A lazy repetition stops as soon as the continuation accepts. *)
Lemma rep_lazy_stop {A : Type} k s (cont : string -> option A) v :
  cont s = Some v -> rep_match false k 0 s cont = Some v.
Proof.
  intros H. destruct s as [|c s]; simpl; [exact H|].
  destruct (in_class k c); [|exact H]. now rewrite H.
Qed.

(** A lazy [.*?] walks over a stretch where the continuation accepts
    nowhere. *)
Lemma rep_lazy_skip {A : Type} x :
  forall y (cont : string -> option A),
    nowhere (fun t => cont t = None) x y ->
    rep_match false ClsAny 0 (x ++ y) cont = rep_match false ClsAny 0 y cont.
Proof.
  induction x as [|c x IH]; intros y cont H; [reflexivity|].
  simpl. rewrite (H EmptyString (String c x) eq_refl) by discriminate.
  simpl. apply IH. intros x1 x2 Hx Hne.
  apply (H (String c x1) x2); [simpl; now rewrite Hx | exact Hne].
Qed.

Section Nowhere.
Variable F : string -> Prop.

Lemma nowhere_nil y : nowhere F EmptyString y.
Proof.
  intros x1 x2 H Hne. destruct x1; destruct x2; simpl in H; congruence.
Qed.

Lemma nowhere_cons c x y :
  F (String c (x ++ y)) -> nowhere F x y -> nowhere F (String c x) y.
Proof.
  intros Hc Hx x1 x2 H Hne.
  destruct x1 as [|c1 x1]; simpl in H.
  - subst x2. exact Hc.
  - inversion H; subst. exact (Hx x1 x2 eq_refl Hne).
Qed.

Lemma nowhere_app a b y :
  nowhere F a (b ++ y) -> nowhere F b y -> nowhere F (a ++ b) y.
Proof.
  revert b y. induction a as [|c a IH]; intros b y Ha Hb; [exact Hb|].
  simpl. apply nowhere_cons.
  - rewrite str_app_assoc.
    apply (Ha EmptyString (String c a) eq_refl). discriminate.
  - apply IH; [|exact Hb].
    intros x1 x2 Hx Hne. apply (Ha (String c x1) x2); [simpl; now rewrite Hx | exact Hne].
Qed.

(** When [F] holds of every text that starts with a character passing
    [p], it holds nowhere in a stretch of such characters. *)
Lemma nowhere_all p x y :
  (forall c t, p c = true -> F (String c t)) ->
  all_chars p x = true -> nowhere F x y.
Proof.
  intros HF. induction x as [|c x IH]; intros Hx.
  - apply nowhere_nil.
  - simpl in Hx. apply andb_true_iff in Hx. destruct Hx as [Hc Hx].
    apply nowhere_cons; [now apply HF | now apply IH].
Qed.
End Nowhere.

(* ================================================================== *)
(** ** Facts about characters *)
(* ================================================================== *)

Ltac each_char c :=
  destruct c as [[|] [|] [|] [|] [|] [|] [|] [|]]; try reflexivity; try discriminate.

Lemma eqb_ci_refl c : eqb_ci c c = true.
Proof. unfold eqb_ci. apply Ascii.eqb_refl. Qed.

Lemma eqb_ci_open c : eqb_ci "(" c = Ascii.eqb c "(".
Proof. each_char c. Qed.

Lemma eqb_ci_close c : eqb_ci ")" c = Ascii.eqb c ")".
Proof. each_char c. Qed.

Lemma space_not_open c : is_space c = true -> not_open c = true.
Proof. each_char c. Qed.

Lemma word_not_space c : in_class ClsWord c = true -> is_space c = false.
Proof.
  destruct c as [[|] [|] [|] [|] [|] [|] [|] [|]]; vm_compute; congruence.
Qed.

Lemma arg_char_not_space c : arg_char c = true -> is_space c = false.
Proof.
  unfold arg_char, not_space. intros H.
  apply andb_true_iff in H. destruct H as [H _].
  apply andb_true_iff in H. destruct H as [H _].
  now apply negb_true_iff in H.
Qed.

Lemma arg_char_not_open c : arg_char c = true -> Ascii.eqb c "(" = false.
Proof.
  unfold arg_char, not_open. intros H.
  apply andb_true_iff in H. destruct H as [H _].
  apply andb_true_iff in H. destruct H as [_ H].
  now apply negb_true_iff in H.
Qed.

Lemma arg_char_not_close c : arg_char c = true -> Ascii.eqb c ")" = false.
Proof.
  unfold arg_char, not_close. intros H.
  apply andb_true_iff in H. destruct H as [_ H].
  now apply negb_true_iff in H.
Qed.

Lemma all_arg_not_close x : all_chars arg_char x = true -> all_chars not_close x = true.
Proof.
  induction x as [|c x IH]; simpl; [reflexivity|]. intros H.
  apply andb_true_iff in H. destruct H as [Hc Hx].
  unfold not_close at 1. now rewrite (arg_char_not_close _ Hc), IH.
Qed.

(* ================================================================== *)
(** ** The pattern of an aggregate call *)
(* ================================================================== *)

(** A literal word matches itself. *)
Lemma lit_self {A : Type} w r s caps (cont : string -> captures -> option A) :
  rmatch (lit w r) (w ++ s) caps cont = rmatch r s caps cont.
Proof.
  induction w as [|c w IH]; simpl; [reflexivity|].
  now rewrite eqb_ci_refl.
Qed.

(** The argument part of the pattern needs an opening parenthesis after
    optional white space. *)
Lemma call_tail_miss {A : Type} s caps (cont : string -> captures -> option A) :
  starts_in ClsSpace s = false ->
  match s with EmptyString => true | String c _ => negb (Ascii.eqb c "(") end = true ->
  rmatch call_tail s caps cont = None.
Proof.
  intros Hsp Hop. unfold call_tail. cbn [rmatch].
  rewrite rep_match_stop by exact Hsp.
  destruct s as [|c s]; [reflexivity|].
  rewrite eqb_ci_open. apply negb_true_iff in Hop. now rewrite Hop.
Qed.

(** Inside an argument without parentheses, or in front of a closing
    parenthesis, no function name followed by an opening parenthesis is
    found. *)
Lemma lit_call_miss {A : Type} g :
  forall x y caps (cont : string -> captures -> option A),
    all_chars arg_char x = true ->
    closes y = true ->
    all_chars (not_ci ")") g = true ->
    rmatch (lit g call_tail) (x ++ y) caps cont = None.
Proof.
  induction g as [|a g IH]; intros x y caps cont Hx Hy Hg.
  - simpl lit. apply call_tail_miss.
    + destruct x as [|c x]; simpl in *.
      * destruct y as [|c y]; [reflexivity|]. simpl in *.
        apply Ascii.eqb_eq in Hy. subst. reflexivity.
      * apply andb_true_iff in Hx. destruct Hx as [Hc _].
        now apply arg_char_not_space.
    + destruct x as [|c x]; simpl in *.
      * destruct y as [|c y]; [reflexivity|]. simpl in *.
        apply Ascii.eqb_eq in Hy. subst. reflexivity.
      * apply andb_true_iff in Hx. destruct Hx as [Hc _].
        now rewrite (arg_char_not_open _ Hc).
  - simpl in Hg. apply andb_true_iff in Hg. destruct Hg as [Ha Hg].
    simpl lit. cbn [rmatch].
    destruct x as [|c x]; simpl append.
    + destruct y as [|c y]; [reflexivity|]. simpl in Hy.
      apply Ascii.eqb_eq in Hy. subst.
      unfold not_ci in Ha. apply negb_true_iff in Ha. now rewrite Ha.
    + simpl in Hx. apply andb_true_iff in Hx. destruct Hx as [_ Hx].
      destruct (eqb_ci a c); [|reflexivity].
      now apply IH.
Qed.

(** Where a run without closing parenthesis ends inside
    [arg ++ ")" ++ tl], the rest of [arg] is still to come. *)
Lemma split_before_close arg :
  forall p s' tl,
    arg ++ String ")" tl = p ++ s' ->
    all_chars not_close arg = true ->
    all_chars not_close p = true ->
    exists x2, arg = p ++ x2 /\ s' = x2 ++ String ")" tl.
Proof.
  induction arg as [|a arg IH]; intros p s' tl H Harg Hp.
  - destruct p as [|c p].
    + exists EmptyString. simpl in *. auto.
    + simpl in H. inversion H; subst. simpl in Hp. discriminate.
  - destruct p as [|c p].
    + exists (String a arg). simpl in *. auto.
    + simpl in H. inversion H; subst.
      simpl in Harg, Hp.
      apply andb_true_iff in Harg. destruct Harg as [_ Harg].
      apply andb_true_iff in Hp. destruct Hp as [_ Hp].
      destruct (IH _ _ _ H2 Harg Hp) as [x2 [Hx Hs]].
      exists x2. simpl. now rewrite <- Hx.
Qed.

(** On a call with a plain argument the argument part of the pattern has
    one way to match: up to the closing parenthesis. *)
Lemma call_tail_on_call {A : Type} arg tl caps (cont : string -> captures -> option A) :
  arg <> EmptyString ->
  all_chars arg_char arg = true ->
  rmatch call_tail (String "(" (arg ++ String ")" tl)) caps cont = cont tl caps.
Proof.
  intros Hne Harg. unfold call_tail. cbn [rmatch].
  rewrite rep_match_stop by reflexivity.
  rewrite eqb_ci_open. simpl Ascii.eqb. cbv iota.
  rewrite rep_match_stop.
  2:{ destruct arg as [|a arg]; [congruence|]. simpl in *.
      apply andb_true_iff in Harg. destruct Harg as [Ha _].
      now apply arg_char_not_space. }
  set (k3 := fun s' : string =>
               rep_match true ClsSpace 0 s'
                 (fun s'0 : string =>
                    match s'0 with
                    | EmptyString => None
                    | String c' s'1 => if eqb_ci ")" c' then cont s'1 caps else None
                    end)).
  assert (Hk3 : k3 (String ")" tl) = cont tl caps).
  { unfold k3. rewrite rep_match_stop by reflexivity. now rewrite eqb_ci_refl. }
  destruct (cont tl caps) as [v|] eqn:Hcont.
  - apply rep_greedy_run.
    + now apply all_arg_not_close.
    + reflexivity.
    + destruct arg; [congruence | simpl; lia].
    + exact Hk3.
  - apply rep_match_none. intros p s' Hs Hp _.
    destruct (split_before_close _ _ _ _ Hs (all_arg_not_close _ Harg) Hp) as [x2 [Hx ->]].
    destruct x2 as [|c x2]; [exact Hk3|].
    assert (Hc : arg_char c = true).
    { rewrite Hx, all_chars_app in Harg. apply andb_true_iff in Harg.
      destruct Harg as [_ Harg]. simpl in Harg.
      now apply andb_true_iff in Harg. }
    unfold k3. simpl append. rewrite rep_match_stop.
    + rewrite eqb_ci_close. now rewrite (arg_char_not_close _ Hc).
    + simpl. now apply arg_char_not_space.
Qed.

(** The whole pattern on a call with a plain argument: only the
    look-ahead is left to decide. *)
Lemma agg_re_on_call f arg tl :
  arg <> EmptyString ->
  all_chars arg_char arg = true ->
  re_match (agg_re f) (f ++ String "(" (arg ++ String ")" tl))
  = rmatch alias_ahead tl [(1, f ++ String "(" (arg ++ ")"))]
      (fun rest caps => Some (caps, rest)).
Proof.
  intros Hne Harg. unfold re_match, agg_re. cbn [rmatch].
  rewrite lit_self, call_tail_on_call by assumption.
  replace (f ++ String "(" (arg ++ String ")" tl))
    with ((f ++ String "(" (arg ++ ")")) ++ tl).
  - now rewrite consumed_app.
  - rewrite str_app_assoc. simpl. now rewrite str_app_assoc.
Qed.

(** The pattern finds nothing that starts inside a plain argument. *)
Lemma agg_re_miss_in_arg g x y :
  all_chars arg_char x = true ->
  closes y = true ->
  all_chars (not_ci ")") g = true ->
  re_match (agg_re g) (x ++ y) = None.
Proof.
  intros Hx Hy Hg. unfold re_match, agg_re. cbn [rmatch].
  now apply lit_call_miss.
Qed.

(* ================================================================== *)
(** ** Substitution and replacement *)
(* ================================================================== *)

Section SubFacts.
Variable r : regex.
Variable repl : captures -> string.

Lemma sub_go_skip x : forall y,
  sub_go r repl (x ++ y) (String.length x) = sub_go r repl y 0.
Proof.
  induction x as [|c x IH]; intros y; [reflexivity|]. simpl. apply IH.
Qed.

(** A match at the front is replaced, and the scan goes on behind it. *)
Lemma sub_go_hit m rest caps :
  m <> EmptyString ->
  re_match r (m ++ rest) = Some (caps, rest) ->
  sub_go r repl (m ++ rest) 0 = repl caps ++ sub_go r repl rest 0.
Proof.
  intros Hne Hm. destruct m as [|c m]; [congruence|].
  simpl append in *. cbn [sub_go]. rewrite Hm.
  replace (String.length (String c (m ++ rest)) - String.length rest)
    with (S (String.length m)) by (cbn [String.length]; rewrite str_length_app; lia).
  now rewrite sub_go_skip.
Qed.

(** A stretch where the pattern matches nowhere is copied. *)
Lemma sub_go_miss x : forall y,
  nowhere (fun t => re_match r t = None) x y ->
  sub_go r repl (x ++ y) 0 = x ++ sub_go r repl y 0.
Proof.
  induction x as [|c x IH]; intros y H; [reflexivity|].
  simpl append. cbn [sub_go].
  rewrite (H EmptyString (String c x) eq_refl) by discriminate.
  f_equal. apply IH. intros x1 x2 Hx Hne.
  apply (H (String c x1) x2); [simpl; now rewrite Hx | exact Hne].
Qed.

Lemma re_sub_miss x :
  nowhere (fun t => re_match r t = None) x EmptyString ->
  re_match r EmptyString = None ->
  re_sub r repl x = x.
Proof.
  intros H He. unfold re_sub.
  rewrite <- (str_app_nil_r x) at 1. rewrite sub_go_miss by exact H.
  simpl. rewrite He. apply str_app_nil_r.
Qed.
End SubFacts.

(** A text that is a prefix of itself shifted to the right repeats the
    characters in front of it: it cannot hold a character that they lack. *)
Lemma startswith_shifted x :
  forall pre c y post,
    pre <> EmptyString ->
    all_chars (fun a => negb (Ascii.eqb a c)) pre = true ->
    all_chars (fun a => negb (Ascii.eqb a c)) x = true ->
    startswith (x ++ String c y) (pre ++ (x ++ String c y) ++ post) = false.
Proof.
  induction x as [|b x IH]; intros pre c y post Hne Hpre Hx.
  - destruct pre as [|a pre]; [congruence|]. simpl in *.
    rewrite startswith_cons.
    apply andb_true_iff in Hpre. destruct Hpre as [Ha _].
    apply negb_true_iff in Ha. rewrite Ascii.eqb_sym, Ha. reflexivity.
  - destruct pre as [|a pre]; [congruence|].
    simpl in Hx. apply andb_true_iff in Hx. destruct Hx as [Hb Hx].
    simpl append. rewrite startswith_cons.
    destruct (Ascii.eqb b a) eqn:Hba; [|reflexivity]. simpl andb.
    replace (pre ++ String b ((x ++ String c y) ++ post))
      with ((pre ++ String b EmptyString) ++ (x ++ String c y) ++ post)
      by (rewrite str_app_assoc; reflexivity).
    apply IH.
    + destruct pre; discriminate.
    + simpl in Hpre. apply andb_true_iff in Hpre. destruct Hpre as [_ Hpre].
      rewrite all_chars_app, Hpre. simpl. now rewrite Hb.
    + exact Hx.
Qed.

Lemma drop_app x y : drop (String.length x) (x ++ y) = y.
Proof.
  induction x as [|c x IH]; simpl; [apply drop_0 | exact IH].
Qed.

(** [replace] rewrites the clause where it stands, when the clause holds
    a character that the text in front of it lacks. *)
Lemma replace_first_at pre :
  forall x c y post new,
    all_chars (fun a => negb (Ascii.eqb a c)) pre = true ->
    all_chars (fun a => negb (Ascii.eqb a c)) x = true ->
    replace_first (x ++ String c y) new (pre ++ (x ++ String c y) ++ post)
    = pre ++ new ++ post.
Proof.
  induction pre as [|a pre IH]; intros x c y post new Hpre Hx.
  - simpl append.
    assert (H : replace_first (x ++ String c y) new ((x ++ String c y) ++ post)
                = new ++ drop (String.length (x ++ String c y)) ((x ++ String c y) ++ post)).
    { destruct ((x ++ String c y) ++ post) eqn:E; simpl;
        rewrite <- E, startswith_app; reflexivity. }
    rewrite H, drop_app. reflexivity.
  - simpl append. cbn [replace_first].
    change (String a (pre ++ (x ++ String c y) ++ post))
      with (String a pre ++ (x ++ String c y) ++ post).
    rewrite startswith_shifted by (assumption || discriminate).
    simpl append. f_equal. apply IH; [|exact Hx].
    simpl in Hpre. now apply andb_true_iff in Hpre.
Qed.

Lemma eqb_longer x t : t <> EmptyString -> String.eqb (x ++ t) x = false.
Proof.
  intros Hne. apply String.eqb_neq. intros H.
  assert (Hl : String.length (x ++ t) = String.length x) by now rewrite H.
  rewrite str_length_app in Hl. destruct t; [congruence | simpl in Hl; lia].
Qed.

(* ================================================================== *)
(** ** The SELECT clause of a simple call *)
(* ================================================================== *)

Lemma lit_ci {A : Type} w :
  forall w' r s caps (cont : string -> captures -> option A),
    ci_eq w w' = true ->
    rmatch (lit w r) (w' ++ s) caps cont = rmatch r s caps cont.
Proof.
  induction w as [|a w IH]; intros w' r s caps cont H; destruct w' as [|b w'];
    try discriminate; [reflexivity|].
  simpl in H. apply andb_true_iff in H. destruct H as [Hab H].
  simpl. rewrite Hab. now apply IH.
Qed.

Lemma from_cont_short s0 c t : is_space c = false -> from_cont s0 (String c t) = None.
Proof.
  intros Hc. unfold from_cont, from_re. cbn [rmatch].
  apply rep_match_short. exact Hc.
Qed.

Lemma from_cont_hit s0 rest :
  exists rest',
    from_cont s0 (" FROM " ++ rest)
    = Some ([(1, consumed s0 (" FROM " ++ rest))], rest').
Proof.
  unfold from_cont, from_re. cbn [rmatch].
  destruct (rep_greedy_accepts ClsSpace rest
              (fun t => ([(1, consumed s0 (" FROM " ++ rest))], t))) as [rest' Hrest].
  exists rest'.
  apply (rep_greedy_run ClsSpace " " 1 ("FROM " ++ rest));
    [reflexivity | reflexivity | simpl; lia |].
  cbv beta. change ("FROM " ++ rest) with ("FROM" ++ " " ++ rest).
  rewrite (lit_ci "from" "FROM") by reflexivity.
  cbn [rmatch]. simpl rep_match. rewrite orelse_none_r. exact Hrest.
Qed.

(** The clause that [select_re] captures, when the pattern does not find
    its end anywhere inside it. *)
Lemma select_re_on_clause part rest :
  part <> EmptyString ->
  starts_in ClsSpace part = false ->
  nowhere no_from part (" FROM " ++ rest) ->
  exists rest',
    re_match select_re ("SELECT " ++ part ++ " FROM " ++ rest) = Some ([(1, part)], rest').
Proof.
  intros Hne Hstart Hno.
  destruct (from_cont_hit (part ++ " FROM " ++ rest) rest) as [rest' Hhit].
  rewrite consumed_app in Hhit.
  exists rest'. unfold re_match, select_re. cbn [rmatch].
  rewrite rep_match_stop by reflexivity.
  rewrite (lit_ci "select" "SELECT" _ (" " ++ part ++ " FROM " ++ rest)) by reflexivity.
  cbn [rmatch].
  apply (rep_greedy_run ClsSpace " " 1 (part ++ " FROM " ++ rest)).
  - reflexivity.
  - destruct part; [congruence | exact Hstart].
  - simpl; lia.
  - change (rep_match false ClsAny 0 (part ++ " FROM " ++ rest)
              (from_cont (part ++ " FROM " ++ rest))
            = Some ([(1, part)], rest')).
    rewrite rep_lazy_skip.
    + apply rep_lazy_stop. exact Hhit.
    + intros x1 x2 Hx Hx2. apply (Hno x1 x2 Hx Hx2).
Qed.

Lemma ensure_aliases_unfold sql m rest :
  re_match select_re sql = Some (m, rest) ->
  ensure_aliases sql
  = if String.eqb (patch_all (group 1 m)) (group 1 m) then sql
    else replace_first (group 1 m) (patch_all (group 1 m)) sql.
Proof. intros H. unfold ensure_aliases. rewrite H. reflexivity. Qed.

Lemma all_arg_not_space x : all_chars arg_char x = true -> all_chars not_space x = true.
Proof.
  induction x as [|c x IH]; simpl; [reflexivity|]. intros H.
  apply andb_true_iff in H. destruct H as [Hc Hx].
  unfold not_space at 1. now rewrite (arg_char_not_space _ Hc), IH.
Qed.

(** No end of the SELECT clause is found in a stretch without white
    space. *)
Lemma no_from_without_space x y : all_chars not_space x = true -> nowhere no_from x y.
Proof.
  apply nowhere_all. intros c t Hc s0.
  apply from_cont_short. now apply negb_true_iff in Hc.
Qed.

Lemma call_text_app f arg tl z : call_text f arg tl ++ z = call_text f arg (tl ++ z).
Proof.
  unfold call_text. rewrite str_app_assoc. simpl. now rewrite str_app_assoc.
Qed.

Lemma call_text_tail f arg tl : call_text f arg tl = call_text f arg EmptyString ++ tl.
Proof. now rewrite call_text_app. Qed.

Lemma call_text_cut f arg tl :
  call_text f arg tl = (f ++ String "(" arg) ++ String ")" tl.
Proof.
  unfold call_text. rewrite str_app_assoc. reflexivity.
Qed.

(* ================================================================== *)
(** ** Patching a simple call *)
(* ================================================================== *)

Lemma agg_re_empty g : re_match (agg_re g) EmptyString = None.
Proof.
  unfold re_match, agg_re. cbn [rmatch].
  induction g as [|a g IH]; [reflexivity|reflexivity].
Qed.

(** An unaliased call is given its alias. *)
Lemma patch_hit f alias arg :
  arg <> EmptyString ->
  all_chars arg_char arg = true ->
  patch (call_text f arg EmptyString) f alias
  = call_text f arg (" AS " ++ alias).
Proof.
  intros Hne Harg. unfold patch, re_sub.
  rewrite <- (str_app_nil_r (call_text f arg EmptyString)).
  rewrite sub_go_hit with (caps := [(1, call_text f arg EmptyString)]).
  - simpl sub_go. rewrite agg_re_empty. simpl group.
    rewrite str_app_nil_r. now rewrite call_text_app.
  - unfold call_text. destruct f; discriminate.
  - rewrite str_app_nil_r. unfold call_text.
    now rewrite agg_re_on_call.
Qed.

(** A call that is followed by an alias is left alone by the pattern of
    its own function. *)
Lemma aliased_call_blocked f arg alias z :
  arg <> EmptyString ->
  all_chars arg_char arg = true ->
  all_chars (in_class ClsWord) alias = true ->
  alias <> EmptyString ->
  no_call f (call_text f arg (" AS " ++ alias ++ z)).
Proof.
  intros Hne Harg Hal Hne2. unfold no_call, call_text.
  rewrite agg_re_on_call by assumption.
  unfold alias_ahead. cbn [rmatch].
  destruct alias as [|a alias]; [congruence|].
  cbn [all_chars] in Hal. apply andb_true_iff in Hal. destruct Hal as [Ha _].
  simpl append.
  rewrite (rep_greedy_run ClsSpace " " 1 (String "A" (String "S" (String " " (String a (alias ++ z)))))
             _ tt).
  - reflexivity.
  - reflexivity.
  - reflexivity.
  - simpl; lia.
  - cbn [lit rmatch]. simpl eqb_ci. cbv iota.
    rewrite (rep_greedy_run ClsSpace " " 1 (String a (alias ++ z)) _ tt).
    + reflexivity.
    + reflexivity.
    + simpl. now apply word_not_space.
    + simpl; lia.
    + cbn [rmatch]. now rewrite Ha.
Qed.

(** The pattern of a function finds nothing that starts inside the plain
    argument of a call. *)
Lemma no_call_in_arg g arg tl :
  all_chars arg_char arg = true ->
  all_chars (not_ci ")") g = true ->
  nowhere (no_call g) arg (String ")" tl).
Proof.
  intros Harg Hg x1 x2 Hx _. unfold no_call.
  apply agg_re_miss_in_arg; [|reflexivity|exact Hg].
  rewrite Hx, all_chars_app in Harg. now apply andb_true_iff in Harg.
Qed.

(** A pattern that matches nowhere in a call and behind it changes
    nothing. *)
Lemma patch_miss g alias f arg tl :
  nowhere (no_call g) (f ++ String "(" arg) (String ")" tl) ->
  re_sub (agg_re g) (fun caps => group 1 caps ++ " AS " ++ alias) (String ")" tl)
  = String ")" tl ->
  patch (call_text f arg tl) g alias = call_text f arg tl.
Proof.
  intros Hno Htl. unfold patch, re_sub. rewrite call_text_cut.
  rewrite sub_go_miss by exact Hno.
  unfold re_sub in Htl. now rewrite Htl.
Qed.

(* ================================================================== *)
(** ** One simple call *)
(* ================================================================== *)

Lemma call_text_plain f arg tl :
  all_chars not_space f = true ->
  all_chars arg_char arg = true ->
  all_chars not_space tl = true ->
  all_chars not_space (call_text f arg tl) = true.
Proof.
  intros Hf Harg Htl. unfold call_text.
  rewrite all_chars_app, Hf. simpl.
  rewrite all_chars_app, (all_arg_not_space _ Harg). simpl. exact Htl.
Qed.

Lemma word_chars_plain x : all_chars (in_class ClsWord) x = true -> all_chars not_space x = true.
Proof.
  induction x as [|c x IH]; cbn [all_chars]; [reflexivity|]. intros H.
  apply andb_true_iff in H. destruct H as [Hc Hx].
  unfold not_space at 1. now rewrite (word_not_space _ Hc), IH.
Qed.

(** [ensure_aliases] on a text whose SELECT clause is one call, given
    what the five patches do to the call before and after its alias is
    there. *)
Lemma ensure_aliases_on_simple_call f a alias arg rest :
  f <> EmptyString ->
  all_chars not_space f = true ->
  all_chars not_open f = true ->
  eqb_ci "f" a = false ->
  all_chars (in_class ClsWord) (String a alias) = true ->
  all_chars arg_char arg = true ->
  patch_all (call_text f arg EmptyString) = call_text f arg (" AS " ++ String a alias) ->
  patch_all (call_text f arg (" AS " ++ String a alias))
  = call_text f arg (" AS " ++ String a alias) ->
  ensure_aliases ("SELECT " ++ call_text f arg EmptyString ++ " FROM " ++ rest)
  = "SELECT " ++ call_text f arg (" AS " ++ String a alias) ++ " FROM " ++ rest
  /\ ensure_aliases ("SELECT " ++ call_text f arg (" AS " ++ String a alias) ++ " FROM " ++ rest)
     = "SELECT " ++ call_text f arg (" AS " ++ String a alias) ++ " FROM " ++ rest.
Proof.
  intros Hf Hfs Hfo Ha Hal Harg H1 H2.
  assert (Hstart : forall tl, starts_in ClsSpace (call_text f arg tl) = false).
  { intros tl. unfold call_text. destruct f as [|c f]; [congruence|].
    simpl in *. apply andb_true_iff in Hfs. destruct Hfs as [Hc _].
    now apply negb_true_iff in Hc. }
  assert (Hnonempty : forall tl, call_text f arg tl <> EmptyString).
  { intros tl. unfold call_text. destruct f; [congruence | discriminate]. }
  split.
  - destruct (select_re_on_clause (call_text f arg EmptyString) rest)
      as [rest' Hm]; [apply Hnonempty | apply Hstart | |].
    { apply no_from_without_space. now apply call_text_plain. }
    rewrite (ensure_aliases_unfold _ _ _ Hm). cbn [group Nat.eqb]. rewrite H1.
    rewrite (call_text_tail f arg (" AS " ++ String a alias)) at 1.
    rewrite eqb_longer by discriminate.
    unfold call_text at 1 3.
    change (arg ++ String ")" EmptyString) with (arg ++ ")").
    apply (replace_first_at "SELECT " f "(" (arg ++ ")") (" FROM " ++ rest)).
    + reflexivity.
    + exact Hfo.
  - destruct (select_re_on_clause (call_text f arg (" AS " ++ String a alias)) rest)
      as [rest' Hm]; [apply Hnonempty | apply Hstart | |].
    { rewrite (call_text_tail f arg (" AS " ++ String a alias)).
      apply nowhere_app.
      - apply no_from_without_space. now apply call_text_plain.
      - simpl append.
        apply nowhere_cons; [intros s0; reflexivity|].
        apply nowhere_cons; [intros s0; reflexivity|].
        apply nowhere_cons; [intros s0; reflexivity|].
        apply nowhere_cons.
        + intros s0. unfold from_cont, from_re. cbn [rmatch]. simpl append.
          apply rep_match_none. intros p s' Hs Hp Hlen.
          destruct p as [|c1 p]; [simpl in Hlen; lia|].
          simpl in Hs. inversion Hs; subst c1.
          destruct p as [|c2 p].
          * simpl in H3. subst s'. cbn [lit rmatch]. now rewrite Ha.
          * simpl in H3. inversion H3; subst c2.
            cbn [all_chars] in Hp, Hal.
            apply andb_true_iff in Hal. destruct Hal as [Hw _].
            apply andb_true_iff in Hp. destruct Hp as [_ Hp].
            apply andb_true_iff in Hp. destruct Hp as [Hsp _].
            simpl in Hsp. rewrite (word_not_space _ Hw) in Hsp. discriminate.
        + apply no_from_without_space. now apply word_chars_plain. }
    rewrite (ensure_aliases_unfold _ _ _ Hm). cbn [group Nat.eqb]. rewrite H2.
    now rewrite String.eqb_refl.
Qed.

Ltac no_call_here f alias Hne Harg :=
  first [ exact eq_refl
        | exact (aliased_call_blocked f _ alias EmptyString Hne Harg eq_refl
                   ltac:(discriminate)) ].

Ltac no_call_anywhere f alias Hne Harg :=
  apply nowhere_app;
  [ repeat (apply nowhere_cons; [no_call_here f alias Hne Harg|]); apply nowhere_nil
  | apply nowhere_cons;
    [ exact eq_refl | apply no_call_in_arg; [exact Harg | reflexivity] ] ].

Ltac patch_step f alias Hne Harg :=
  first [ rewrite patch_hit by assumption
        | rewrite patch_miss; [ | no_call_anywhere f alias Hne Harg | reflexivity ] ].

Ltac patch_steps Hne Harg :=
  match goal with
  | |- _ = call_text ?f _ (" AS " ++ ?alias) => repeat patch_step f alias Hne Harg
  end.

Lemma patch_all_on_simple_call f alias arg :
  In (f, alias) alias_table ->
  arg <> EmptyString ->
  all_chars arg_char arg = true ->
  patch_all (call_text f arg EmptyString) = call_text f arg (" AS " ++ alias)
  /\ patch_all (call_text f arg (" AS " ++ alias)) = call_text f arg (" AS " ++ alias).
Proof.
  intros Hin Hne Harg. unfold alias_table in Hin. simpl in Hin.
  destruct Hin as [H|[H|[H|[H|[H|[]]]]]]; inversion H; subst f alias; clear H;
    unfold patch_all; split; patch_steps Hne Harg; reflexivity.
Qed.


(* ================================================================== *)
(** ** The clause that [ensure_aliases] rewrites *)
(* ================================================================== *)

Lemma lit_inv {A : Type} w :
  forall r s caps (cont : string -> captures -> option A) v,
    rmatch (lit w r) s caps cont = Some v ->
    exists w' s', s = w' ++ s' /\ ci_eq w w' = true /\ rmatch r s' caps cont = Some v.
Proof.
  induction w as [|a w IH]; intros r s caps cont v H.
  - exists EmptyString, s. auto.
  - simpl in H. destruct s as [|c s]; [discriminate|].
    destruct (eqb_ci a c) eqn:Hac; [|discriminate].
    destruct (IH _ _ _ _ _ H) as [w' [s' [Hs [Hw Hr]]]].
    exists (String c w'), s'. simpl. rewrite Hs, Hac, Hw. auto.
Qed.

(** What a match of [select_re] looks like: white space, the keyword,
    white space, the captured clause, white space, [from], white space. *)
Lemma select_re_inv sql m rest :
  re_match select_re sql = Some (m, rest) ->
  exists ws1 kw ws2 part ws3 kw2 ws4,
    sql = ws1 ++ kw ++ ws2 ++ part ++ ws3 ++ kw2 ++ ws4 ++ rest
    /\ m = [(1, part)]
    /\ all_space ws1 = true /\ ci_eq "select" kw = true
    /\ all_space ws2 = true /\ ws2 <> EmptyString
    /\ all_space ws3 = true /\ ws3 <> EmptyString
    /\ ci_eq "from" kw2 = true
    /\ all_space ws4 = true /\ ws4 <> EmptyString.
Proof.
  unfold re_match, select_re. cbn [rmatch]. intros H.
  apply rep_match_inv in H. destruct H as [ws1 [s1 [E1 [Hws1 [_ H]]]]].
  apply lit_inv in H. destruct H as [kw [s2 [E2 [Hkw H]]]].
  cbn [rmatch] in H.
  apply rep_match_inv in H. destruct H as [ws2 [s3 [E3 [Hws2 [Hl2 H]]]]].
  apply rep_match_inv in H. destruct H as [part [s4 [E4 [_ [_ H]]]]].
  unfold from_re in H. cbn [rmatch] in H.
  apply rep_match_inv in H. destruct H as [ws3 [s5 [E5 [Hws3 [Hl3 H]]]]].
  apply lit_inv in H. destruct H as [kw2 [s6 [E6 [Hkw2 H]]]].
  cbn [rmatch] in H.
  apply rep_match_inv in H. destruct H as [ws4 [s7 [E7 [Hws4 [Hl4 H]]]]].
  inversion H; subst m rest.
  exists ws1, kw, ws2, part, ws3, kw2, ws4.
  assert (Hlen : forall x, 1 <= String.length x -> x <> EmptyString).
  { intros x Hx ->. simpl in Hx. lia. }
  repeat split; auto.
  - now rewrite E1, E2, E3, E4, E5, E6, E7.
  - now rewrite E4, consumed_app.
Qed.

Lemma lstrip_spaces ws s : all_space ws = true -> lstrip (ws ++ s) = lstrip s.
Proof.
  unfold all_space. induction ws as [|c ws IH]; simpl; intros H; [reflexivity|].
  apply andb_true_iff in H. destruct H as [Hc H]. rewrite Hc. now apply IH.
Qed.

Lemma upper_app a b : upper (a ++ b) = upper a ++ upper b.
Proof. induction a as [|c a IH]; simpl; [reflexivity | now rewrite IH]. Qed.

Lemma ci_eq_upper w : forall w', ci_eq w w' = true -> upper w' = upper w.
Proof.
  induction w as [|a w IH]; intros [|b w'] H; try discriminate; [reflexivity|].
  simpl in H. apply andb_true_iff in H. destruct H as [Hab H].
  unfold eqb_ci in Hab. apply Ascii.eqb_eq in Hab.
  simpl. now rewrite Hab, (IH _ H).
Qed.

Lemma ci_s_not_space c : eqb_ci "s" c = true -> is_space c = false.
Proof.
  destruct c as [[|] [|] [|] [|] [|] [|] [|] [|]]; vm_compute; congruence.
Qed.

Lemma ci_letter_not_open a c :
  is_lower a = true -> eqb_ci a c = true -> not_open c = true.
Proof.
  intros Ha Hac. unfold not_open. destruct (Ascii.eqb c "(") eqn:Hc; [|reflexivity].
  apply Ascii.eqb_eq in Hc. subst c. exfalso. revert Ha Hac. clear.
  destruct a as [[|] [|] [|] [|] [|] [|] [|] [|]]; vm_compute; congruence.
Qed.

Lemma ci_word_no_open w :
  forall w', all_chars is_lower w = true -> ci_eq w w' = true ->
             all_chars not_open w' = true.
Proof.
  induction w as [|a w IH]; intros [|b w'] Hw H; try discriminate; [reflexivity|].
  simpl in *. apply andb_true_iff in H. destruct H as [Hab H].
  apply andb_true_iff in Hw. destruct Hw as [Ha Hw].
  now rewrite (ci_letter_not_open _ _ Ha Hab), (IH _ Hw H).
Qed.

Lemma spaces_no_open ws : all_space ws = true -> all_chars not_open ws = true.
Proof.
  unfold all_space. induction ws as [|c ws IH]; simpl; intros H; [reflexivity|].
  apply andb_true_iff in H. destruct H as [Hc H].
  now rewrite (space_not_open _ Hc), IH.
Qed.

(** A text that [select_re] matches starts with SELECT. *)
Lemma select_re_is_select sql m rest :
  re_match select_re sql = Some (m, rest) -> is_select sql = true.
Proof.
  intros H. apply select_re_inv in H.
  destruct H as [ws1 [kw [ws2 [part [ws3 [kw2 [ws4 H]]]]]]].
  destruct H as [E [_ [Hws1 [Hkw _]]]].
  unfold is_select. rewrite E, (lstrip_spaces _ _ Hws1).
  destruct kw as [|k kw]; [discriminate|].
  assert (Hk : is_space k = false).
  { simpl in Hkw. apply andb_true_iff in Hkw. destruct Hkw as [Hk _].
    now apply ci_s_not_space. }
  simpl append. cbn [lstrip]. rewrite Hk.
  change (String k (kw ++ ws2 ++ part ++ ws3 ++ kw2 ++ ws4 ++ rest))
    with (String k kw ++ ws2 ++ part ++ ws3 ++ kw2 ++ ws4 ++ rest).
  rewrite upper_app, (ci_eq_upper _ _ Hkw).
  apply startswith_app.
Qed.

(** Without an opening parenthesis there is no call to patch. *)
Lemma lit_call_no_open {A : Type} g :
  forall s caps (cont : string -> captures -> option A),
    all_chars not_open s = true ->
    rmatch (lit g call_tail) s caps cont = None.
Proof.
  induction g as [|a g IH]; intros s caps cont Hs.
  - simpl lit. unfold call_tail. cbn [rmatch].
    apply rep_match_none. intros p s' E _ _.
    destruct s' as [|c s']; [reflexivity|].
    rewrite E, all_chars_app in Hs. apply andb_true_iff in Hs. destruct Hs as [_ Hs].
    simpl in Hs. apply andb_true_iff in Hs. destruct Hs as [Hc _].
    unfold not_open in Hc. apply negb_true_iff in Hc.
    now rewrite eqb_ci_open, Hc.
  - simpl lit. cbn [rmatch]. destruct s as [|c s]; [reflexivity|].
    destruct (eqb_ci a c); [|reflexivity].
    apply IH. simpl in Hs. now apply andb_true_iff in Hs.
Qed.

Lemma patch_no_open s g alias : all_chars not_open s = true -> patch s g alias = s.
Proof.
  intros Hs. unfold patch. apply re_sub_miss; [|apply agg_re_empty].
  intros x1 x2 E _. unfold re_match, agg_re. cbn [rmatch].
  apply lit_call_no_open.
  rewrite str_app_nil_r. rewrite E, all_chars_app in Hs.
  now apply andb_true_iff in Hs.
Qed.

Lemma patch_all_no_open s : all_chars not_open s = true -> patch_all s = s.
Proof.
  intros Hs. unfold patch_all.
  rewrite (patch_no_open s "COUNT" "count" Hs), (patch_no_open s "SUM" "total" Hs),
    (patch_no_open s "AVG" "average" Hs), (patch_no_open s "MIN" "min" Hs).
  exact (patch_no_open s "MAX" "max" Hs).
Qed.

Lemma first_open s :
  all_chars not_open s = false ->
  exists x y, s = x ++ String "(" y /\ all_chars not_open x = true.
Proof.
  induction s as [|c s IH]; simpl; intros H; [discriminate|].
  destruct (not_open c) eqn:Hc.
  - destruct (IH H) as [x [y [E Hx]]].
    exists (String c x), y. simpl. now rewrite E, Hc, Hx.
  - exists EmptyString, s. unfold not_open in Hc.
    apply negb_false_iff, Ascii.eqb_eq in Hc. subst. auto.
Qed.

(** Where [ensure_aliases] rewrites.  A text that [select_re] does not
    match at its start is returned as it is.  When it matches, the
    captured clause is replaced where it stands by what the five patches
    make of it; the text before and after the clause is kept. *)
Lemma ensure_aliases_rewrites_in_place :
  forall sql : string,
    (is_select sql = false -> ensure_aliases sql = sql)
    /\ (forall (m : captures) (rest : string),
           re_match select_re sql = Some (m, rest) ->
           exists ws1 kw ws2 post : string,
             sql = (ws1 ++ kw ++ ws2) ++ group 1 m ++ post
             /\ all_space ws1 = true /\ upper kw = "SELECT"
             /\ all_space ws2 = true /\ ws2 <> EmptyString
             /\ ensure_aliases sql = (ws1 ++ kw ++ ws2) ++ patch_all (group 1 m) ++ post).
Proof.
  intros sql. split.
  - intros Hsel. unfold ensure_aliases.
    destruct (re_match select_re sql) as [[m rest]|] eqn:Hm; [|reflexivity].
    apply select_re_is_select in Hm. congruence.
  - intros m rest Hm.
    rewrite (ensure_aliases_unfold _ _ _ Hm).
    apply select_re_inv in Hm.
    destruct Hm as [ws1 [kw [ws2 [part [ws3 [kw2 [ws4 H]]]]]]].
    destruct H as [E [-> [Hws1 [Hkw [Hws2 [Hne2 _]]]]]].
    exists ws1, kw, ws2, (ws3 ++ kw2 ++ ws4 ++ rest).
    cbn [group Nat.eqb].
    assert (Esql : sql = (ws1 ++ kw ++ ws2) ++ part ++ ws3 ++ kw2 ++ ws4 ++ rest).
    { rewrite E. now rewrite !str_app_assoc. }
    repeat split; auto.
    + now rewrite (ci_eq_upper _ _ Hkw).
    + destruct (String.eqb (patch_all part) part) eqn:Hp.
      * apply String.eqb_eq in Hp. now rewrite Hp.
      * destruct (all_chars not_open part) eqn:Hopen.
        -- rewrite (patch_all_no_open _ Hopen), String.eqb_refl in Hp. discriminate.
        -- destruct (first_open _ Hopen) as [x [y [Ex Hx]]].
           subst part. rewrite Esql.
           apply replace_first_at; [|exact Hx].
           change (all_chars not_open (ws1 ++ kw ++ ws2) = true).
           rewrite !all_chars_app.
           rewrite (spaces_no_open _ Hws1), (spaces_no_open _ Hws2).
           now rewrite (ci_word_no_open "select" kw eq_refl Hkw).
Qed.


(* ================================================================== *)
(** ** More about the statement list *)
(* ================================================================== *)

Lemma all_chars_lstrip p s : all_chars p s = true -> all_chars p (lstrip s) = true.
Proof.
  induction s as [|c s IH]; simpl; intros H; [reflexivity|].
  apply andb_true_iff in H. destruct H as [Hc H].
  destruct (is_space c); [now apply IH|]. simpl. now rewrite Hc, H.
Qed.

Lemma all_chars_rstrip p s : all_chars p s = true -> all_chars p (rstrip s) = true.
Proof.
  induction s as [|c s IH]; simpl; intros H; [reflexivity|].
  apply andb_true_iff in H. destruct H as [Hc H].
  destruct (is_space c && is_empty (rstrip s)); [reflexivity|].
  simpl. now rewrite Hc, IH.
Qed.

Lemma all_chars_strip p s : all_chars p s = true -> all_chars p (strip s) = true.
Proof. intros H. unfold strip. now apply all_chars_rstrip, all_chars_lstrip. Qed.

Lemma rstrip_idempotent s : rstrip (rstrip s) = rstrip s.
Proof.
  induction s as [|c s IH]; [reflexivity|]. simpl.
  destruct (is_space c && is_empty (rstrip s)) eqn:H; [reflexivity|].
  simpl. now rewrite IH, H.
Qed.

(** What [lstrip] leaves is empty or starts with a character that is not
    white space. *)
Lemma lstrip_starts s : starts_in ClsSpace (lstrip s) = false.
Proof.
  induction s as [|c s IH]; [reflexivity|]. simpl.
  destruct (is_space c) eqn:Hc; [exact IH|]. simpl. exact Hc.
Qed.

Lemma rstrip_keeps_start s :
  starts_in ClsSpace s = false -> starts_in ClsSpace (rstrip s) = false.
Proof.
  destruct s as [|c s]; [reflexivity|]. simpl. intros Hc.
  change (in_class ClsSpace c) with (is_space c) in Hc. now rewrite Hc.
Qed.

Lemma lstrip_fixed s : starts_in ClsSpace s = false -> lstrip s = s.
Proof.
  destruct s as [|c s]; [reflexivity|]. simpl. intros Hc.
  change (in_class ClsSpace c) with (is_space c) in Hc. now rewrite Hc.
Qed.

Lemma strip_idempotent s : strip (strip s) = strip s.
Proof.
  unfold strip.
  rewrite (lstrip_fixed (rstrip (lstrip s))).
  - apply rstrip_idempotent.
  - apply rstrip_keeps_start, lstrip_starts.
Qed.

(** The pieces that a split at a one-character separator gives do not
    hold the separator. *)
Lemma split_go_char_free c s :
  all_chars (fun a => negb (Ascii.eqb a c)) (fst (split_go (String c EmptyString) s 0)) = true
  /\ Forall (fun p => all_chars (fun a => negb (Ascii.eqb a c)) p = true)
       (snd (split_go (String c EmptyString) s 0)).
Proof.
  induction s as [|a s [IH1 IH2]]; [split; [reflexivity | constructor]|].
  cbn [split_go]. rewrite startswith_cons. cbn [String.length Nat.sub].
  destruct (split_go (String c EmptyString) s 0) as [p ps]. simpl in IH1, IH2.
  destruct (Ascii.eqb c a) eqn:Hca.
  - assert (Hs : startswith EmptyString s = true) by (destruct s; reflexivity).
    rewrite Hs. simpl. split; [reflexivity | now constructor].
  - simpl. rewrite Ascii.eqb_sym, Hca. simpl. now split.
Qed.

Lemma split_char_free c s p :
  In p (split (String c EmptyString) s) ->
  all_chars (fun a => negb (Ascii.eqb a c)) p = true.
Proof.
  unfold split. destruct (split_go_char_free c s) as [H1 H2].
  destruct (split_go (String c EmptyString) s 0) as [p0 ps]. simpl in *.
  intros [<-|Hin]; [exact H1|].
  rewrite Forall_forall in H2. now apply H2.
Qed.

(** X1.  Every statement that the tools take from a text is non-empty,
    has no white space at either end and holds no semicolon. *)
Theorem statements_are_clean :
  forall (sql_query s : string),
    In s (statements sql_query) ->
    s <> EmptyString
    /\ strip s = s
    /\ all_chars (fun a => negb (Ascii.eqb a ";")) s = true.
Proof.
  intros q s Hin. unfold statements in Hin.
  apply in_map_iff in Hin. destruct Hin as [p [<- Hp]].
  apply filter_In in Hp. destruct Hp as [Hp Hne].
  split; [|split].
  - intros E. rewrite E in Hne. discriminate.
  - apply strip_idempotent.
  - apply all_chars_strip. now apply (split_char_free ";" (strip q)).
Qed.

Lemma statements_are_clean_witness :
  "SELECT * FROM t" <> EmptyString
  /\ strip "SELECT * FROM t" = "SELECT * FROM t"
  /\ all_chars (fun a => negb (Ascii.eqb a ";")) "SELECT * FROM t" = true.
Proof.
  apply (statements_are_clean " DELETE FROM t ;; SELECT * FROM t ; " "SELECT * FROM t").
  simpl. right. left. reflexivity.
Defined.

(* ================================================================== *)
(** ** More about [clean_code_fences] *)
(* ================================================================== *)

Lemma contains_nil sep : contains sep EmptyString = is_empty sep.
Proof. destruct sep; reflexivity. Qed.

Lemma contains_cons sep c s :
  contains sep (String c s) = startswith sep (String c s) || contains sep s.
Proof. reflexivity. Qed.

(** There is no marker in the text before the first marker. *)
Lemma before_has_no_sep sep s :
  sep <> EmptyString -> contains sep (before sep s) = false.
Proof.
  intros Hsep. induction s as [|c s IH].
  - simpl. rewrite startswith_nil. destruct sep; [congruence | reflexivity].
  - simpl before. destruct (startswith sep (String c s)) eqn:Hp.
    + rewrite contains_nil. destruct sep; [congruence | reflexivity].
    + rewrite contains_cons, IH, orb_false_r.
      destruct (startswith sep (String c (before sep s))) eqn:Hq; [|reflexivity].
      destruct (before_prefix sep s) as [rest [Hs _]].
      apply (startswith_app_r _ _ rest) in Hq. simpl in Hq. rewrite <- Hs in Hq.
      congruence.
Qed.

Lemma contains_app_l sep x y : contains sep x = true -> contains sep (x ++ y) = true.
Proof.
  induction x as [|c x IH]; intros H.
  - rewrite contains_nil in H. destruct sep; [|discriminate].
    destruct y; reflexivity.
  - rewrite contains_cons in H. simpl append. rewrite contains_cons.
    apply orb_true_iff in H. apply orb_true_iff. destruct H as [H|H].
    + left. now apply (startswith_app_r sep (String c x) y).
    + right. now apply IH.
Qed.

Lemma rstrip_prefix s : exists r, s = rstrip s ++ r.
Proof.
  induction s as [|c s [r IH]]; [now exists EmptyString|].
  simpl. destruct (is_space c && is_empty (rstrip s)).
  - now exists (String c s).
  - exists r. simpl. now rewrite <- IH.
Qed.

Lemma contains_lstrip sep s :
  sep <> EmptyString -> contains sep (lstrip s) = true -> contains sep s = true.
Proof.
  intros Hsep. induction s as [|c s IH]; [auto|].
  simpl lstrip. destruct (is_space c); [|auto].
  intros H. rewrite contains_cons, (IH H). apply orb_true_r.
Qed.

Lemma contains_strip sep s :
  sep <> EmptyString -> contains sep s = false -> contains sep (strip s) = false.
Proof.
  intros Hsep H. destruct (contains sep (strip s)) eqn:Hc; [|reflexivity].
  unfold strip in Hc. destruct (rstrip_prefix (lstrip s)) as [r Hr].
  apply (contains_app_l _ _ r) in Hc. rewrite <- Hr in Hc.
  apply contains_lstrip in Hc; congruence.
Qed.

(** X2.  The text that [clean_code_fences] returns holds no fence marker
    and has no white space at either end; cleaning it again changes
    nothing. *)
Theorem clean_code_fences_leaves_clean_text :
  forall text : string,
    contains "```" (clean_code_fences text) = false
    /\ strip (clean_code_fences text) = clean_code_fences text
    /\ clean_code_fences (clean_code_fences text) = clean_code_fences text.
Proof.
  intros text.
  assert (H1 : contains "```" (clean_code_fences text) = false).
  { unfold clean_code_fences.
    destruct (contains "```sql" text) eqn:Hsql.
    - rewrite split_first. apply contains_strip; [discriminate|].
      apply before_has_no_sep. discriminate.
    - destruct (contains "```" text) eqn:Hf.
      + rewrite split_second by (congruence || discriminate).
        apply contains_strip; [discriminate|].
        apply before_has_no_sep. discriminate.
      + apply contains_strip; [discriminate | exact Hf]. }
  assert (H2 : strip (clean_code_fences text) = clean_code_fences text).
  { unfold clean_code_fences.
    destruct (contains "```sql" text); [|destruct (contains "```" text)];
      apply strip_idempotent. }
  split; [exact H1|]. split; [exact H2|].
  unfold clean_code_fences at 1.
  destruct (contains "```sql" (clean_code_fences text)) eqn:Hsql.
  - apply (contains_longer "```" "sql") in Hsql. congruence.
  - rewrite H1. exact H2.
Qed.

(* ================================================================== *)
(** ** Rows as mappings *)
(* ================================================================== *)

(** X3.  Every row that a SELECT returns becomes a mapping, in the order
    of the rows: the result has one mapping for each row, without repeated
    keys; a column name is bound to the value that stands with its last
    occurrence, and when no column name occurs twice the mapping is the
    list of the pairs of column name and value in the order of the
    columns. *)
Theorem rows_as_dicts_keys_and_values :
  forall (cols : list string) (rows : list row),
    Forall2 (maps_columns cols) rows (rows_as_dicts cols rows).
Proof. exact rows_get_their_mappings. Qed.

(* ================================================================== *)
(** ** The calls that the tools make, on every path *)
(* ================================================================== *)

Lemma engine_call_calls {W A : Type} (c : call) (op : W -> res A * W) w r w' :
  engine_call c op w = (r, w') -> calls w' = (calls w ++ [c])%list.
Proof.
  unfold engine_call. destruct (op (eng w)) as [r0 e']. intros H.
  inversion H; subst. reflexivity.
Qed.

Section CallFacts.
Context {W : Type} (E : Engine W).
Variable P : call -> Prop.

Lemma exec_loop_calls stmts :
  (forall s, In s stmts -> P (Execute s)) -> P Fetchall -> P Commit ->
  forall acc w r w',
    exec_loop E stmts acc w = (r, w') ->
    exists added, calls w' = (calls w ++ added)%list /\ Forall P added.
Proof.
  intros Hex Hf Hc. induction stmts as [|stmt rest IH]; intros acc w r w' H.
  - simpl in H. inversion H; subst. exists []. now rewrite app_nil_r.
  - assert (Hstmt : P (Execute stmt)) by (apply Hex; now left).
    assert (Hrest : forall s, In s rest -> P (Execute s)) by (intros s Hs; apply Hex; now right).
    specialize (IH Hrest).
    simpl in H. unfold bind, cursor_execute, cursor_fetchall, conn_commit in H.
    destruct (is_select stmt).
    + destruct (engine_call (Execute stmt) (e_execute E stmt) w) as [[cur|e] w1] eqn:H1;
        apply engine_call_calls in H1.
      * destruct (engine_call Fetchall (e_fetchall E) w1) as [[rows|e] w2] eqn:H2;
          apply engine_call_calls in H2.
        -- destruct (IH _ _ _ _ H) as [added [Ha HP]].
           exists (Execute stmt :: Fetchall :: added). split.
           ++ rewrite Ha, H2, H1, <- !app_assoc. reflexivity.
           ++ now repeat constructor.
        -- inversion H; subst. exists [Execute stmt; Fetchall]. split.
           ++ rewrite H2, H1, <- !app_assoc. reflexivity.
           ++ now repeat constructor.
      * inversion H; subst. exists [Execute stmt]. split; [exact H1 | now repeat constructor].
    + destruct (engine_call (Execute stmt) (e_execute E stmt) w) as [[cur|e] w1] eqn:H1;
        apply engine_call_calls in H1.
      * destruct (engine_call Commit (e_commit E) w1) as [[u|e] w2] eqn:H2;
          apply engine_call_calls in H2.
        -- destruct (IH _ _ _ _ H) as [added [Ha HP]].
           exists (Execute stmt :: Commit :: added). split.
           ++ rewrite Ha, H2, H1, <- !app_assoc. reflexivity.
           ++ now repeat constructor.
        -- inversion H; subst. exists [Execute stmt; Commit]. split.
           ++ rewrite H2, H1, <- !app_assoc. reflexivity.
           ++ now repeat constructor.
      * inversion H; subst. exists [Execute stmt]. split; [exact H1 | now repeat constructor].
Qed.

Lemma validate_loop_calls stmts :
  (forall s, In s stmts -> P (Execute (trial_of s))) -> P Fetchall -> P Rollback ->
  forall plans w r w',
    validate_loop E stmts plans w = (r, w') ->
    exists added, calls w' = (calls w ++ added)%list /\ Forall P added.
Proof.
  intros Hex Hf Hr. induction stmts as [|stmt rest IH]; intros plans w r w' H.
  - simpl in H. inversion H; subst. exists []. now rewrite app_nil_r.
  - assert (Hstmt : P (Execute (trial_of stmt))) by (apply Hex; now left).
    assert (Hrest : forall s, In s rest -> P (Execute (trial_of s)))
      by (intros s Hs; apply Hex; now right).
    specialize (IH Hrest). unfold trial_of in Hstmt.
    cbn [validate_loop] in H.
    unfold try_except, bind, cursor_execute, cursor_fetchall, conn_rollback, ret in H.
    destruct (is_select stmt).
    + destruct (engine_call (Execute ("EXPLAIN QUERY PLAN " ++ stmt))
                  (e_execute E ("EXPLAIN QUERY PLAN " ++ stmt)) w) as [[cur|e] w1] eqn:H1;
        apply engine_call_calls in H1.
      * destruct (engine_call Fetchall (e_fetchall E) w1) as [[rows|e] w2] eqn:H2;
          apply engine_call_calls in H2.
        -- destruct (IH _ _ _ _ H) as [added [Ha HP]].
           exists (Execute ("EXPLAIN QUERY PLAN " ++ stmt) :: Fetchall :: added). split.
           ++ rewrite Ha, H2, H1, <- !app_assoc. reflexivity.
           ++ now repeat constructor.
        -- inversion H; subst.
           exists [Execute ("EXPLAIN QUERY PLAN " ++ stmt); Fetchall]. split.
           ++ rewrite H2, H1, <- !app_assoc. reflexivity.
           ++ now repeat constructor.
      * inversion H; subst. exists [Execute ("EXPLAIN QUERY PLAN " ++ stmt)].
        split; [exact H1 | now repeat constructor].
    + destruct (engine_call (Execute stmt) (e_execute E stmt) w) as [[cur|e] w1] eqn:H1;
        apply engine_call_calls in H1.
      * destruct (engine_call Rollback (e_rollback E) w1) as [[u|e] w2] eqn:H2;
          apply engine_call_calls in H2;
          destruct (IH _ _ _ _ H) as [added [Ha HP]];
          (exists (Execute stmt :: Rollback :: added); split;
           [rewrite Ha, H2, H1, <- !app_assoc; reflexivity | now repeat constructor]).
      * destruct (IH _ _ _ _ H) as [added [Ha HP]].
        exists (Execute stmt :: added). split.
        -- rewrite Ha, H1, <- !app_assoc. reflexivity.
        -- now repeat constructor.
Qed.

End CallFacts.

Lemma existsb_eqb_in (s : string) (l : list string) :
  In s l -> existsb (String.eqb s) l = true.
Proof.
  intros H. apply existsb_exists. exists s. split; [exact H | apply String.eqb_refl].
Qed.

Lemma trial_is_no_select stmt : is_select (trial_of stmt) = false.
Proof.
  unfold trial_of. destruct (is_select stmt) eqn:H; [reflexivity | exact H].
Qed.

Lemma execute_sql_query_log :
  forall (W : Type) (E : Engine W) (sql : string) (w : world W),
    exists (r : list dict) (w' : world W) (added : list call),
      execute_sql_query E sql w = (Ok r, w')
      /\ calls w' = (calls w ++ Connect :: added)%list
      /\ forallb (exec_call_ok (statements sql)) added = true
      /\ ~ In Rollback added /\ ~ In Connect added.
Proof.
  intros W E sql w.
  assert (Hmain : exists r w' added,
             execute_sql_query E sql w = (Ok r, w')
             /\ calls w' = (calls w ++ Connect :: added)%list
             /\ Forall (fun c => exec_call_ok (statements sql) c = true) added).
  { unfold execute_sql_query, try_except, bind, sqlite3_connect, conn_close, ret.
    destruct (engine_call Connect (e_connect E) w) as [[u|e] w1] eqn:H1;
      apply engine_call_calls in H1.
    - destruct (statements sql) as [|s0 rest] eqn:Hst.
      + do 2 eexists. exists []. repeat split; [exact H1 | constructor].
      + rewrite <- Hst.
        destruct (exec_loop E (statements sql)
                    {| total_rows_affected := 0; last_row_id := None; select_result := [] |}
                    w1) as [[acc|e] w2] eqn:H2;
          apply (exec_loop_calls E (fun c => exec_call_ok (statements sql) c = true)) in H2;
          try (intros s Hs; simpl; now apply existsb_eqb_in); try reflexivity;
          destruct H2 as [added [Ha HP]].
        * destruct (engine_call Close (e_close E) w2) as [[u'|e] w3] eqn:H3;
            apply engine_call_calls in H3;
            (do 2 eexists; exists (added ++ [Close])%list; repeat split;
             [ rewrite H3, Ha, H1, <- !app_assoc; reflexivity
             | apply Forall_app; split; [exact HP | now repeat constructor] ]).
        * do 2 eexists. exists added. repeat split; [|exact HP].
          rewrite Ha, H1, <- !app_assoc. reflexivity.
    - do 2 eexists. exists []. repeat split; [exact H1 | constructor]. }
  destruct Hmain as [r [w' [added [H1 [H2 H3]]]]].
  exists r, w', added. rewrite Forall_forall in H3.
  repeat split; auto.
  - apply forallb_forall. exact H3.
  - intros Hin. apply H3 in Hin. discriminate.
  - intros Hin. apply H3 in Hin. discriminate.
Qed.

(** X4.  Whatever the engine does, [execute_sql_query] returns a value
    and lets no exception out.  It opens one connection, first; after
    that it executes only statements of the text, fetches, commits and
    closes: it never rolls back. *)
Theorem execute_sql_query_calls :
  forall (W : Type) (E : Engine W) (sql : string) (w : world W),
    exists (r : list dict) (w' : world W) (added : list call),
      execute_sql_query E sql w = (Ok r, w')
      /\ calls w' = (calls w ++ Connect :: added)%list
      /\ forallb (exec_call_ok (statements sql)) added = true
      /\ ~ In Rollback added /\ ~ In Connect added.
Proof. exact execute_sql_query_log. Qed.

Lemma validate_sql_query_log :
  forall (W : Type) (E : Engine W) (sql : string) (w : world W),
    exists (valid : dict) (w' : world W) (added : list call),
      validate_sql_query E sql w = (Ok valid, w')
      /\ calls w' = (calls w ++ Connect :: added)%list
      /\ forallb (validate_call_ok (statements sql)) added = true
      /\ ~ In Commit added /\ ~ In Connect added
      /\ (forall s, In (Execute s) added -> is_select s = false).
Proof.
  intros W E sql w.
  assert (Hmain : exists r w' added,
             validate_sql_query E sql w = (Ok r, w')
             /\ calls w' = (calls w ++ Connect :: added)%list
             /\ Forall (fun c => validate_call_ok (statements sql) c = true) added).
  { unfold validate_sql_query, try_except, bind, sqlite3_connect, conn_close, ret.
    destruct (engine_call Connect (e_connect E) w) as [[u|e] w1] eqn:H1;
      apply engine_call_calls in H1.
    - destruct (statements sql) as [|s0 rest] eqn:Hst.
      + do 2 eexists. exists []. repeat split; [exact H1 | constructor].
      + rewrite <- Hst.
        destruct (validate_loop E (statements sql) [] w1) as [[plans|e] w2] eqn:H2;
          apply (validate_loop_calls E
                   (fun c => validate_call_ok (statements sql) c = true)) in H2;
          try (intros s Hs; simpl; apply existsb_exists; exists s;
               split; [exact Hs | apply String.eqb_refl]);
          try reflexivity;
          destruct H2 as [added [Ha HP]].
        * destruct (engine_call Close (e_close E) w2) as [[u'|e] w3] eqn:H3;
            apply engine_call_calls in H3;
            (do 2 eexists; exists (added ++ [Close])%list; repeat split;
             [ rewrite H3, Ha, H1, <- !app_assoc; reflexivity
             | apply Forall_app; split; [exact HP | now repeat constructor] ]).
        * do 2 eexists. exists added. repeat split; [|exact HP].
          rewrite Ha, H1, <- !app_assoc. reflexivity.
    - do 2 eexists. exists []. repeat split; [exact H1 | constructor]. }
  destruct Hmain as [r [w' [added [H1 [H2 H3]]]]].
  exists r, w', added. rewrite Forall_forall in H3.
  repeat split; auto.
  - apply forallb_forall. exact H3.
  - intros Hin. apply H3 in Hin. discriminate.
  - intros Hin. apply H3 in Hin. discriminate.
  - intros s Hin. apply H3 in Hin. simpl in Hin.
    apply existsb_exists in Hin. destruct Hin as [stmt [_ Heq]].
    apply String.eqb_eq in Heq. subst s. apply trial_is_no_select.
Qed.

(** X5.  Whatever the engine does, [validate_sql_query] returns a value
    and lets no exception out.  It opens one connection, first; after
    that it executes only the statements of the text, each SELECT inside
    an [EXPLAIN QUERY PLAN], fetches, rolls back and closes: it never
    commits, and it never hands a SELECT itself to the engine. *)
Theorem validate_sql_query_calls :
  forall (W : Type) (E : Engine W) (sql : string) (w : world W),
    exists (valid : dict) (w' : world W) (added : list call),
      validate_sql_query E sql w = (Ok valid, w')
      /\ calls w' = (calls w ++ Connect :: added)%list
      /\ forallb (validate_call_ok (statements sql)) added = true
      /\ ~ In Commit added /\ ~ In Connect added
      /\ (forall s, In (Execute s) added -> is_select s = false).
Proof. exact validate_sql_query_log. Qed.

(** X6.  For a text without any statement (empty, white space, or
    semicolons and white space) both tools answer [Empty SQL] only after
    they have opened a connection, which they do not close; nothing is
    executed. *)
Theorem tools_on_text_without_statement :
  forall (W : Type) (E : Engine W) (sql : string) (w0 : W) (l : list call) (w1 : W),
    statements sql = [] ->
    e_connect E w0 = (Ok tt, w1) ->
    execute_sql_query E sql {| eng := w0; calls := l |}
    = (Ok [[("error", PStr "Empty SQL")]],
       {| eng := w1; calls := (l ++ [Connect])%list |})
    /\ validate_sql_query E sql {| eng := w0; calls := l |}
       = (Ok [("valid", PBool false); ("error", PStr "Empty SQL")],
          {| eng := w1; calls := (l ++ [Connect])%list |}).
Proof.
  intros W E sql w0 l w1 Hst Hconn. split.
  - unfold execute_sql_query, try_except, bind, sqlite3_connect.
    rewrite (engine_call_ok _ _ _ _ _ _ Hconn), Hst. reflexivity.
  - unfold validate_sql_query, try_except, bind, sqlite3_connect.
    rewrite (engine_call_ok _ _ _ _ _ _ Hconn), Hst. reflexivity.
Qed.

Lemma tools_on_text_without_statement_witness :
  execute_sql_query Toy.engine " ; ;; " (Toy.start ["1"])
  = (Ok [[("error", PStr "Empty SQL")]],
     {| eng := Toy.fresh ["1"]; calls := ([] ++ [Connect])%list |})
  /\ validate_sql_query Toy.engine " ; ;; " (Toy.start ["1"])
     = (Ok [("valid", PBool false); ("error", PStr "Empty SQL")],
        {| eng := Toy.fresh ["1"]; calls := ([] ++ [Connect])%list |}).
Proof.
  apply (tools_on_text_without_statement Toy.db Toy.engine " ; ;; "
           (Toy.fresh ["1"]) [] (Toy.fresh ["1"])); reflexivity.
Defined.

Lemma validate_loop_plans {W : Type} (E : Engine W) stmts :
  forall plans w plans' w',
    validate_loop E stmts plans w = (Ok plans', w') ->
    List.length plans' = List.length plans + List.length (filter is_select stmts).
Proof.
  induction stmts as [|stmt rest IH]; intros plans w plans' w' H.
  - simpl in H. inversion H; subst. simpl. lia.
  - cbn [validate_loop] in H. cbn [filter].
    unfold try_except, bind, ret in H.
    destruct (is_select stmt).
    + destruct (cursor_execute E ("EXPLAIN QUERY PLAN " ++ stmt) w) as [[cur|e] w1];
        [|discriminate].
      destruct (cursor_fetchall E w1) as [[rows|e] w2]; [|discriminate].
      apply IH in H. rewrite H, length_app. simpl. lia.
    + destruct (cursor_execute E stmt w) as [[cur|e] w1].
      * destruct (conn_rollback E w1) as [[u|e] w2]; now apply IH in H.
      * now apply IH in H.
Qed.

(** X7.  A verdict of the validator that says valid carries a plan list
    with exactly one entry for each SELECT statement of the text; the
    other statements leave no trace in it. *)
Theorem valid_verdict_has_one_plan_per_select :
  forall (W : Type) (E : Engine W) (sql : string) (w : world W)
         (valid : dict) (w' : world W),
    validate_sql_query E sql w = (Ok valid, w') ->
    truthy (dict_get "valid" valid) = true ->
    exists plans : list pyval,
      valid = [("valid", PBool true); ("plan", PList plans)]
      /\ List.length plans = List.length (filter is_select (statements sql)).
Proof.
  intros W E sql w valid w'.
  unfold validate_sql_query, try_except, bind, ret.
  destruct (sqlite3_connect E w) as [[u|e] w1].
  - destruct (statements sql) as [|s0 rest] eqn:Hst.
    + intros H Hv. inversion H; subst. discriminate.
    + destruct (validate_loop E (s0 :: rest) [] w1) as [[plans|e] w2] eqn:Hloop.
      * destruct (conn_close E w2) as [[u'|e] w3].
        -- intros H _. inversion H; subst. exists plans. split; [reflexivity|].
           now apply validate_loop_plans in Hloop.
        -- intros H Hv. inversion H; subst. discriminate.
      * intros H Hv. inversion H; subst. discriminate.
  - intros H Hv. inversion H; subst. discriminate.
Qed.

Lemma valid_verdict_has_one_plan_per_select_witness :
  exists plans : list pyval,
    [("valid", PBool true);
     ("plan", PList [PList [PTuple [PInt 2; PInt 0; PInt 0; PStr "SCAN t"]]])]
    = [("valid", PBool true); ("plan", PList plans)]
    /\ List.length plans
       = List.length (filter is_select
                        (statements "DELETE FROM t WHERE x=1; SELECT * FROM t")).
Proof.
  apply (valid_verdict_has_one_plan_per_select Toy.db Toy.engine
           "DELETE FROM t WHERE x=1; SELECT * FROM t" (Toy.start ["1"]) _
           (snd (validate_sql_query Toy.engine
                   "DELETE FROM t WHERE x=1; SELECT * FROM t" (Toy.start ["1"]))));
    reflexivity.
Defined.

(* ================================================================== *)
(** ** The executor nodes, on every path *)
(* ================================================================== *)

Section NodeFacts.
Variable str_other : pyval -> string.
Context {W : Type} (E : Engine W).

Lemma query_executor_node_result state w :
  query_executor_node str_other E state w
  = match executor_result str_other E (stripped_sql state) w with
    | (Ok result, w') =>
        (Ok {| user_query := user_query state;
               sql_query := sql_query state;
               query_result := Some result;
               final_response := Some "" |}, w')
    | (Exn e, w') => (Exn e, w')
    end.
Proof.
  unfold query_executor_node, executor_result.
  destruct (is_empty (stripped_sql state)); [reflexivity|].
  unfold bind.
  destruct (validate_sql_query E (stripped_sql state) w) as [[valid|e] w1]; [|reflexivity].
  destruct (negb (truthy (dict_get "valid" valid))).
  - destruct (negb (String.eqb (ensure_aliases (stripped_sql state)) (stripped_sql state))).
    + destruct (validate_sql_query E (ensure_aliases (stripped_sql state)) w1)
        as [[valid'|e] w2]; [|reflexivity].
      unfold ret. cbn [fst snd].
      destruct (negb (truthy (dict_get "valid" valid'))); [reflexivity|].
      destruct (execute_sql_query E (ensure_aliases (stripped_sql state)) w2)
        as [[result|e] w3]; reflexivity.
    + unfold ret. cbn [fst snd].
      destruct (negb (truthy (dict_get "valid" valid))); [reflexivity|].
      destruct (execute_sql_query E (stripped_sql state) w1) as [[result|e] w3]; reflexivity.
  - unfold ret. cbn [fst snd].
    destruct (negb (truthy (dict_get "valid" valid))); [reflexivity|].
    destruct (execute_sql_query E (stripped_sql state) w1) as [[result|e] w3]; reflexivity.
Qed.

Lemma query_executor_node_msgs_result state w :
  query_executor_node_msgs str_other E state w
  = match executor_result str_other E
            (strip (match m_sql_query state with Some q => q | None => EmptyString end)) w with
    | (Ok result, w') =>
        (Ok {| messages := messages state;
               m_sql_query := m_sql_query state;
               m_query_result := Some result;
               m_final_response := m_final_response state |}, w')
    | (Exn e, w') => (Exn e, w')
    end.
Proof.
  unfold query_executor_node_msgs, executor_result.
  set (sql := strip (match m_sql_query state with Some q => q | None => EmptyString end)).
  destruct (is_empty sql); [reflexivity|].
  unfold bind.
  destruct (validate_sql_query E sql w) as [[valid|e] w1]; [|reflexivity].
  destruct (negb (truthy (dict_get "valid" valid))).
  - destruct (negb (String.eqb (ensure_aliases sql) sql)).
    + destruct (validate_sql_query E (ensure_aliases sql) w1) as [[valid'|e] w2];
        [|reflexivity].
      unfold ret. cbn [fst snd].
      destruct (negb (truthy (dict_get "valid" valid'))); [reflexivity|].
      destruct (execute_sql_query E (ensure_aliases sql) w2) as [[result|e] w3]; reflexivity.
    + unfold ret. cbn [fst snd].
      destruct (negb (truthy (dict_get "valid" valid))); [reflexivity|].
      destruct (execute_sql_query E sql w1) as [[result|e] w3]; reflexivity.
  - unfold ret. cbn [fst snd].
    destruct (negb (truthy (dict_get "valid" valid))); [reflexivity|].
    destruct (execute_sql_query E sql w1) as [[result|e] w3]; reflexivity.
Qed.

Lemma no_connect_filter added :
  ~ In Connect added -> filter is_connect added = [].
Proof.
  induction added as [|c added IH]; [reflexivity|]. intros H. simpl.
  destruct c; simpl; try (apply IH; intros Hin; apply H; now right).
  exfalso. apply H. now left.
Qed.

(** What the nodes compute always comes back as a value, and costs at
    most three connections. *)
Lemma executor_result_log sql w :
  exists (result : list dict) (w' : world W) (added : list call),
    executor_result str_other E sql w = (Ok result, w')
    /\ calls w' = (calls w ++ added)%list
    /\ List.length (filter is_connect added) <= 3
    /\ (is_empty sql = true -> added = []).
Proof.
  unfold executor_result.
  destruct (is_empty sql) eqn:Hblank.
  - exists [[("error", PStr "No SQL query provided")]], w, [].
    rewrite app_nil_r. repeat split; simpl; auto.
  - unfold bind, ret.
    destruct (validate_sql_query_log W E sql w)
      as [valid [w1 [a1 [Hv [Hc1 [_ [_ [Hn1 _]]]]]]]].
    rewrite Hv.
    assert (Hexec : forall q wq aq, calls wq = (calls w ++ aq)%list ->
              List.length (filter is_connect aq) <= 2 ->
              exists result w' added,
                execute_sql_query E q wq = (Ok result, w')
                /\ calls w' = (calls w ++ added)%list
                /\ List.length (filter is_connect added) <= 3
                /\ (false = true -> added = [])).
    { intros q wq aq Hq Hlen.
      destruct (execute_sql_query_log W E q wq) as [r [w3 [a3 [He [Hc3 [_ [_ Hn3]]]]]]].
      exists r, w3, (aq ++ Connect :: a3)%list. repeat split.
      - exact He.
      - now rewrite Hc3, Hq, <- app_assoc.
      - rewrite filter_app, length_app. simpl. rewrite (no_connect_filter _ Hn3). simpl. lia.
      - discriminate. }
    assert (Hstop : forall (row : list dict) (wq : world W) aq,
              calls wq = (calls w ++ aq)%list ->
              List.length (filter is_connect aq) <= 2 ->
              exists result w' added,
                (@Ok (list dict) row, wq) = (Ok result, w')
                /\ calls w' = (calls w ++ added)%list
                /\ List.length (filter is_connect added) <= 3
                /\ (false = true -> added = [])).
    { intros row wq aq Hq Hlen. exists row, wq, aq.
      split; [reflexivity|]. split; [exact Hq|]. split; [lia | discriminate]. }
    assert (L1 : List.length (filter is_connect (Connect :: a1)) <= 2).
    { simpl. rewrite (no_connect_filter _ Hn1). simpl. lia. }
    destruct (negb (truthy (dict_get "valid" valid))) eqn:Hrej.
    + destruct (negb (String.eqb (ensure_aliases sql) sql)).
      * destruct (validate_sql_query_log W E (ensure_aliases sql) w1)
          as [valid' [w2 [a2 [Hv2 [Hc2 [_ [_ [Hn2 _]]]]]]]].
        rewrite Hv2. cbn [fst snd].
        assert (Hq : calls w2 = (calls w ++ (Connect :: a1) ++ Connect :: a2)%list)
          by (rewrite Hc2, Hc1, <- app_assoc; reflexivity).
        assert (L2 : List.length (filter is_connect ((Connect :: a1) ++ Connect :: a2)) <= 2).
        { rewrite filter_app, length_app. simpl.
          rewrite (no_connect_filter _ Hn1), (no_connect_filter _ Hn2). simpl. lia. }
        destruct (negb (truthy (dict_get "valid" valid'))).
        -- now apply Hstop with (aq := ((Connect :: a1) ++ Connect :: a2)%list).
        -- now apply Hexec with (aq := ((Connect :: a1) ++ Connect :: a2)%list).
      * cbn [fst snd]. rewrite Hrej.
        now apply Hstop with (aq := (Connect :: a1)).
    + cbn [fst snd]. rewrite Hrej.
      now apply Hexec with (aq := (Connect :: a1)).
Qed.

End NodeFacts.

(** X8.  Whatever the engine does, the executor node returns a state and
    lets no exception out.  The state keeps [user_query] and [sql_query]
    as they were, also when the text that ran was the repaired one; it
    holds a result and the empty reply.  The node opens at most three
    connections, and none when the text is blank. *)
Theorem query_executor_node_always_answers :
  forall (str_other : pyval -> string) (W : Type) (E : Engine W)
         (state : ChatBotState) (w : world W),
    exists (result : list dict) (w' : world W) (added : list call),
      query_executor_node str_other E state w
      = (Ok {| user_query := user_query state;
               sql_query := sql_query state;
               query_result := Some result;
               final_response := Some "" |}, w')
      /\ calls w' = (calls w ++ added)%list
      /\ List.length (filter is_connect added) <= 3
      /\ (is_empty (stripped_sql state) = true -> added = []).
Proof.
  intros str_other W E state w.
  destruct (executor_result_log str_other E (stripped_sql state) w)
    as [result [w' [added [H1 [H2 [H3 H4]]]]]].
  exists result, w', added.
  rewrite query_executor_node_result, H1. auto.
Qed.

(** X9.  The executor node over message states computes what the classic
    executor node computes: on states with the same [sql_query], from the
    same world, both store the same result and leave the same world.  The
    node over message states leaves [messages] and [final_response] as
    they were. *)
Theorem executor_nodes_agree :
  forall (str_other : pyval -> string) (W : Type) (E : Engine W)
         (state : ChatBotState) (mstate : MsgState) (w : world W),
    sql_query state = m_sql_query mstate ->
    exists (result : list dict) (w' : world W),
      query_executor_node str_other E state w
      = (Ok {| user_query := user_query state;
               sql_query := sql_query state;
               query_result := Some result;
               final_response := Some "" |}, w')
      /\ query_executor_node_msgs str_other E mstate w
         = (Ok {| messages := messages mstate;
                  m_sql_query := m_sql_query mstate;
                  m_query_result := Some result;
                  m_final_response := m_final_response mstate |}, w').
Proof.
  intros str_other W E state mstate w Hsql.
  destruct (executor_result_log str_other E (stripped_sql state) w)
    as [result [w' [added [H1 _]]]].
  exists result, w'.
  rewrite query_executor_node_result, query_executor_node_msgs_result.
  unfold stripped_sql in *. rewrite <- Hsql, H1. auto.
Qed.

Lemma executor_nodes_agree_witness :
  exists (result : list dict) (w' : world Toy.db),
    query_executor_node str_plain Toy.engine
      {| user_query := "all"; sql_query := Some "SELECT * FROM t";
         query_result := None; final_response := None |} (Toy.start ["1"])
    = (Ok {| user_query := "all"; sql_query := Some "SELECT * FROM t";
             query_result := Some result; final_response := Some "" |}, w')
    /\ query_executor_node_msgs str_plain Toy.engine
         {| messages := []; m_sql_query := Some "SELECT * FROM t";
            m_query_result := None; m_final_response := None |} (Toy.start ["1"])
       = (Ok {| messages := []; m_sql_query := Some "SELECT * FROM t";
                m_query_result := Some result; m_final_response := None |}, w').
Proof.
  apply (executor_nodes_agree str_plain Toy.db Toy.engine
           {| user_query := "all"; sql_query := Some "SELECT * FROM t";
              query_result := None; final_response := None |}
           {| messages := []; m_sql_query := Some "SELECT * FROM t";
              m_query_result := None; m_final_response := None |}).
  reflexivity.
Defined.

(* ================================================================== *)
(** ** The renderers *)
(* ================================================================== *)

(** X10.  The renderer over message states writes the reply that the
    classic renderer writes: on states with the same [sql_query] and
    [query_result] both store the same text under [final_response].  The
    classic renderer changes nothing else; the other one returns that text
    as its one message. *)
Theorem renderers_agree :
  forall (str_other : pyval -> string) (state : ChatBotState) (mstate : MsgState),
    sql_query state = m_sql_query mstate ->
    query_result state = m_query_result mstate ->
    exists final : string,
      response_generator_node str_other state
      = {| user_query := user_query state;
           sql_query := sql_query state;
           query_result := query_result state;
           final_response := Some final |}
      /\ response_generator_node_msgs str_other mstate
         = {| messages := [AIMessage final];
              m_sql_query := m_sql_query mstate;
              m_query_result := m_query_result mstate;
              m_final_response := Some final |}.
Proof.
  intros str_other state mstate Hsql Hres.
  unfold response_generator_node, response_generator_node_msgs, stripped_sql.
  rewrite <- Hsql, <- Hres.
  destruct (match
               match query_result state with Some r => r | None => [] end
             with first :: _ => dict_has "error" first | [] => false end).
  - eexists. split; reflexivity.
  - destruct (match
                 match query_result state with Some r => r | None => [] end
               with first :: _ => dict_has "rows_affected" first | [] => false end);
      eexists; split; reflexivity.
Qed.

Lemma renderers_agree_witness :
  exists final : string,
    response_generator_node str_plain
      {| user_query := "q"; sql_query := Some "DELETE FROM t WHERE x=1";
         query_result := Some [[("rows_affected", PInt 1); ("last_row_id", PNone)]];
         final_response := Some "" |}
    = {| user_query := "q"; sql_query := Some "DELETE FROM t WHERE x=1";
         query_result := Some [[("rows_affected", PInt 1); ("last_row_id", PNone)]];
         final_response := Some final |}
    /\ response_generator_node_msgs str_plain
         {| messages := []; m_sql_query := Some "DELETE FROM t WHERE x=1";
            m_query_result := Some [[("rows_affected", PInt 1); ("last_row_id", PNone)]];
            m_final_response := None |}
       = {| messages := [AIMessage final];
            m_sql_query := Some "DELETE FROM t WHERE x=1";
            m_query_result := Some [[("rows_affected", PInt 1); ("last_row_id", PNone)]];
            m_final_response := Some final |}.
Proof.
  apply (renderers_agree str_plain
           {| user_query := "q"; sql_query := Some "DELETE FROM t WHERE x=1";
              query_result := Some [[("rows_affected", PInt 1); ("last_row_id", PNone)]];
              final_response := Some "" |}
           {| messages := []; m_sql_query := Some "DELETE FROM t WHERE x=1";
              m_query_result := Some [[("rows_affected", PInt 1); ("last_row_id", PNone)]];
              m_final_response := None |}); reflexivity.
Defined.

(** X11.  The renderer tells an error from rows by the keys of the first
    row.  So the rows of a SELECT whose first row has a column named
    [error] are rendered as an error, with the value of that column as the
    message; and, without such a column, rows with a column named
    [rows_affected] are rendered as the summary of a write. *)
Theorem column_names_decide_the_reply :
  forall (str_other : pyval -> string) (state : ChatBotState)
         (cols : list string) (r : row) (rows : list row),
    query_result state = Some (rows_as_dicts cols (r :: rows)) ->
    (forall v : pyval,
        last_binding "error" (combine cols r) = Some v ->
        final_response (response_generator_node str_other state)
        = Some (error_mark ++ " Error: " ++ py_str str_other v))
    /\ (forall v : pyval,
           last_binding "error" (combine cols r) = None ->
           last_binding "rows_affected" (combine cols r) = Some v ->
           final_response (response_generator_node str_other state)
           = Some (sql_block (stripped_sql state) ++ "**Result**" ++ nl
                     ++ "- Rows affected: **" ++ py_str str_other v ++ "**" ++ nl
                     ++ "- Last inserted id: **"
                     ++ py_str str_other
                          (opt_val (last_binding "last_row_id" (combine cols r)))
                     ++ "**")).
Proof.
  intros str_other state cols r rows Hres.
  unfold response_generator_node. rewrite Hres.
  cbn [rows_as_dicts map]. unfold dict_has.
  rewrite !dict_of_pairs_get. split.
  - intros v Hv. rewrite Hv. reflexivity.
  - intros v He Hv. rewrite He, Hv. reflexivity.
Qed.

Lemma column_names_decide_the_reply_witness :
  final_response
    (response_generator_node str_plain
       {| user_query := "q"; sql_query := Some "SELECT id, error FROM log";
          query_result := Some (rows_as_dicts ["id"; "error"] [[PInt 1; PStr "disk full"]]);
          final_response := Some "" |})
  = Some (error_mark ++ " Error: " ++ py_str str_plain (PStr "disk full")).
Proof.
  apply (proj1 (column_names_decide_the_reply str_plain
                  {| user_query := "q"; sql_query := Some "SELECT id, error FROM log";
                     query_result :=
                       Some (rows_as_dicts ["id"; "error"] [[PInt 1; PStr "disk full"]]);
                     final_response := Some "" |}
                  ["id"; "error"] [PInt 1; PStr "disk full"] [] eq_refl)).
  reflexivity.
Defined.

Lemma mem_str_in k l : mem_str k l = true <-> In k l.
Proof.
  unfold mem_str. rewrite existsb_exists. split.
  - intros [x [Hx E]]. apply String.eqb_eq in E. now subst.
  - intros H. exists k. split; [exact H | apply String.eqb_refl].
Qed.

Lemma add_cols_spec ks :
  forall cols,
    NoDup cols ->
    NoDup (fold_left (fun cols k => if mem_str k cols then cols else (cols ++ [k])%list) ks cols)
    /\ forall k,
         In k (fold_left (fun cols k => if mem_str k cols then cols else (cols ++ [k])%list)
                 ks cols)
         <-> In k cols \/ In k ks.
Proof.
  induction ks as [|k0 ks IH]; intros cols Hnd; simpl.
  - split; [exact Hnd | intuition].
  - destruct (mem_str k0 cols) eqn:Hm.
    + destruct (IH cols Hnd) as [H1 H2]. split; [exact H1|].
      intros k. rewrite H2. apply mem_str_in in Hm. intuition. subst. auto.
    + assert (Hnin : ~ In k0 cols).
      { intros Hin. apply mem_str_in in Hin. congruence. }
      assert (Hnd' : NoDup (cols ++ [k0])%list).
      { apply NoDup_app; [exact Hnd | constructor; [intros [] | constructor] |].
        intros a Ha [<-|[]]. contradiction. }
      destruct (IH _ Hnd') as [H1 H2]. split; [exact H1|].
      intros k. rewrite H2, in_app_iff. simpl. intuition.
Qed.

(** X12.  The header of the Markdown table lists every key of every row,
    each once: the column list has no repetition, and a name is in it
    exactly when it is a key of some row. *)
Theorem table_columns_are_the_keys :
  forall rows : list dict,
    NoDup (collect_cols rows)
    /\ forall k : string,
         In k (collect_cols rows) <-> exists r, In r rows /\ In k (dict_keys r).
Proof.
  intros rows. unfold collect_cols.
  assert (H : forall cols, NoDup cols ->
            NoDup (fold_left
                     (fun cols r =>
                        fold_left (fun cols k => if mem_str k cols then cols
                                                 else (cols ++ [k])%list)
                          (dict_keys r) cols) rows cols)
            /\ forall k,
                 In k (fold_left
                         (fun cols r =>
                            fold_left (fun cols k => if mem_str k cols then cols
                                                     else (cols ++ [k])%list)
                              (dict_keys r) cols) rows cols)
                 <-> In k cols \/ exists r, In r rows /\ In k (dict_keys r)).
  { induction rows as [|r0 rows IH]; intros cols Hnd; simpl.
    - split; [exact Hnd|]. intros k. split; [auto|]. intros [H|[r [[] _]]]. exact H.
    - destruct (add_cols_spec (dict_keys r0) cols Hnd) as [Hnd' Hin].
      destruct (IH _ Hnd') as [H1 H2]. split; [exact H1|].
      intros k. rewrite H2, Hin. split.
      + intros [[H|H]|[r [Hr Hk]]]; eauto.
      + intros [H|[r [[<-|Hr] Hk]]]; eauto. }
  destruct (H [] (NoDup_nil _)) as [H1 H2]. split; [exact H1|].
  intros k. rewrite H2. split; [intros [[]|H']; exact H' | auto].
Qed.

Lemma add_known_cols ks :
  forall cols,
    (forall k, In k ks -> In k cols) ->
    fold_left (fun cols k => if mem_str k cols then cols else (cols ++ [k])%list) ks cols
    = cols.
Proof.
  induction ks as [|k ks IH]; intros cols H; simpl; [reflexivity|].
  assert (Hk : mem_str k cols = true) by (apply mem_str_in, H; now left).
  rewrite Hk. apply IH. intros k' Hk'. apply H. now right.
Qed.

Lemma add_new_cols ks :
  forall cols,
    NoDup (cols ++ ks)%list ->
    fold_left (fun cols k => if mem_str k cols then cols else (cols ++ [k])%list) ks cols
    = (cols ++ ks)%list.
Proof.
  induction ks as [|k ks IH]; intros cols H; simpl.
  - now rewrite app_nil_r.
  - assert (Hk : mem_str k cols = false).
    { destruct (mem_str k cols) eqn:Hm; [|reflexivity].
      apply mem_str_in in Hm. apply NoDup_remove_2 in H.
      exfalso. apply H, in_app_iff. now left. }
    rewrite Hk, IH; rewrite <- app_assoc; [reflexivity | exact H].
Qed.

(** X13.  The table of a SELECT result has the columns of the query, in
    their order, as its header: when the column names are distinct and
    every row has a value for each of them, the column list that
    [as_markdown_table] collects from the row mappings is the list of
    column names. *)
Theorem select_table_header :
  forall (cols : list string) (r : row) (rows : list row),
    NoDup cols ->
    Forall (fun r' : row => List.length cols <= List.length r') (r :: rows) ->
    collect_cols (rows_as_dicts cols (r :: rows)) = cols.
Proof.
  intros cols r rows Hnd Hlen.
  assert (Hkeys : forall r' : row, List.length cols <= List.length r' ->
                    dict_keys (dict_of_pairs (combine cols r')) = cols).
  { intros r' Hr. unfold dict_of_pairs. rewrite dict_of_distinct_pairs.
    - simpl. unfold dict_keys. now apply keys_of_combine.
    - simpl. now rewrite keys_of_combine. }
  unfold collect_cols, rows_as_dicts. cbn [map fold_left].
  inversion Hlen as [|? ? Hr Hrows]; subst.
  rewrite (Hkeys r Hr), add_new_cols by exact Hnd.
  cbn [app]. clear Hlen Hr.
  induction rows as [|r' rows IH]; [reflexivity|].
  inversion Hrows as [|? ? Hr' Hrows']; subst.
  cbn [map fold_left]. rewrite (Hkeys r' Hr'), add_known_cols by auto.
  now apply IH.
Qed.

Lemma select_table_header_witness :
  collect_cols (rows_as_dicts ["id"; "name"] [[PInt 1; PStr "a"]; [PInt 2; PStr "b"]])
  = ["id"; "name"].
Proof.
  apply (select_table_header ["id"; "name"] [PInt 1; PStr "a"] [[PInt 2; PStr "b"]]).
  - repeat constructor; simpl; intuition discriminate.
  - repeat constructor.
Defined.

(* ================================================================== *)
(** ** The schema tool *)
(* ================================================================== *)

Lemma engine_call_result {W A : Type} (c : call) (op : W -> res A * W) w r w' :
  engine_call c op w = (r, w') -> fst (op (eng w)) = r.
Proof.
  unfold engine_call. destruct (op (eng w)) as [r0 e']. intros H.
  inversion H; subst. reflexivity.
Qed.

Lemma tuple_item_pure {W : Type} (t : row) i (w : world W) :
  snd (tuple_item t i w) = w.
Proof. unfold tuple_item. destruct (nth_error t i); reflexivity. Qed.

Lemma first_items_pure {W : Type} rows (w : world W) : snd (first_items rows w) = w.
Proof.
  induction rows as [|t rows IH]; [reflexivity|].
  cbn [first_items]. unfold bind.
  pose proof (tuple_item_pure t 0 w) as Ht.
  destruct (tuple_item t 0 w) as [[v|e] w1]; simpl in Ht; subst w1; [|reflexivity].
  destruct (first_items rows w) as [[vs|e] w2]; simpl in IH; subst w2; reflexivity.
Qed.

Lemma columns_loop_pure str_other {W : Type} columns :
  forall info (w : world W), snd (columns_loop str_other columns info w) = w.
Proof.
  induction columns as [|col columns IH]; intros info w; [reflexivity|].
  cbn [columns_loop]. unfold bind.
  pose proof (tuple_item_pure col 1 w) as H1.
  destruct (tuple_item col 1 w) as [[v1|e] w1]; simpl in H1; subst w1; [|reflexivity].
  pose proof (tuple_item_pure col 2 w) as H2.
  destruct (tuple_item col 2 w) as [[v2|e] w2]; simpl in H2; subst w2; [|reflexivity].
  apply IH.
Qed.

Lemma tables_loop_log str_other {W : Type} (E : Engine W) tables :
  forall info (w : world W),
    exists added,
      calls (snd (tables_loop str_other E tables info w)) = (calls w ++ added)%list
      /\ forallb schema_read added = true.
Proof.
  induction tables as [|t tables IH]; intros info w.
  - exists []. simpl. now rewrite app_nil_r.
  - cbn [tables_loop]. unfold bind, cursor_execute, cursor_fetchall.
    assert (Hp : schema_read (Execute ("PRAGMA table_info(" ++ py_str str_other t ++ ")"))
                 = true).
    { cbn [schema_read]. rewrite startswith_app. apply orb_true_r. }
    destruct (engine_call (Execute ("PRAGMA table_info(" ++ py_str str_other t ++ ")"))
                (e_execute E ("PRAGMA table_info(" ++ py_str str_other t ++ ")")) w)
      as [[cur|e] w1] eqn:H1; apply engine_call_calls in H1.
    + destruct (engine_call Fetchall (e_fetchall E) w1) as [[columns|e] w2] eqn:H2;
        apply engine_call_calls in H2.
      * pose proof (columns_loop_pure str_other columns
                      (app info [nl ++ "Table: " ++ py_str str_other t]) w2) as H3.
        destruct (columns_loop str_other columns
                    (app info [nl ++ "Table: " ++ py_str str_other t]) w2)
          as [[info'|e] w3]; simpl in H3; subst w3.
        -- destruct (IH info' w2) as [added [Ha Hr]].
           exists (Execute ("PRAGMA table_info(" ++ py_str str_other t ++ ")")
                     :: Fetchall :: added).
           split.
           ++ rewrite Ha, H2, H1, <- !app_assoc. reflexivity.
           ++ cbn [forallb]. rewrite Hp, Hr. reflexivity.
        -- exists [Execute ("PRAGMA table_info(" ++ py_str str_other t ++ ")"); Fetchall].
           split.
           ++ cbn [snd]. rewrite H2, H1, <- !app_assoc. reflexivity.
           ++ cbn [forallb]. rewrite Hp. reflexivity.
      * exists [Execute ("PRAGMA table_info(" ++ py_str str_other t ++ ")"); Fetchall].
        split.
        -- cbn [snd]. rewrite H2, H1, <- !app_assoc. reflexivity.
        -- cbn [forallb]. rewrite Hp. reflexivity.
    + exists [Execute ("PRAGMA table_info(" ++ py_str str_other t ++ ")")].
      split; [exact H1|]. cbn [forallb]. rewrite Hp. reflexivity.
Qed.

Lemma get_database_schema_log str_other {W : Type} (E : Engine W) (w : world W) :
  exists mid,
    forallb schema_read mid = true
    /\ match get_database_schema str_other E w with
       | (Ok _, w') => calls w' = (calls w ++ Connect :: mid ++ [Close])%list
       | (Exn e, w') =>
           calls w' = (calls w ++ Connect :: mid)%list
           \/ (calls w' = (calls w ++ Connect :: mid ++ [Close])%list
               /\ exists x, fst (e_close E x) = Exn e)
       end.
Proof.
  unfold get_database_schema, bind, sqlite3_connect, cursor_execute, cursor_fetchall,
    conn_close, ret.
  destruct (engine_call Connect (e_connect E) w) as [[u|e] w1] eqn:H1;
    apply engine_call_calls in H1.
  2: { exists []. split; [reflexivity|]. left. exact H1. }
  destruct (engine_call (Execute catalog_query) (e_execute E catalog_query) w1)
    as [[cur|e] w2] eqn:H2; apply engine_call_calls in H2.
  2: { exists [Execute catalog_query]. split.
       - cbn [forallb schema_read]. now rewrite String.eqb_refl.
       - left. rewrite H2, H1, <- !app_assoc. reflexivity. }
  destruct (engine_call Fetchall (e_fetchall E) w2) as [[rows|e] w3] eqn:H3;
    apply engine_call_calls in H3.
  2: { exists [Execute catalog_query; Fetchall]. split.
       - cbn [forallb schema_read]. now rewrite String.eqb_refl.
       - left. rewrite H3, H2, H1, <- !app_assoc. reflexivity. }
  pose proof (first_items_pure rows w3) as H4.
  destruct (first_items rows w3) as [[tables|e] w4]; simpl in H4; subst w4.
  2: { exists [Execute catalog_query; Fetchall]. split.
       - cbn [forallb schema_read]. now rewrite String.eqb_refl.
       - left. rewrite H3, H2, H1, <- !app_assoc. reflexivity. }
  destruct (tables_loop_log str_other E tables [] w3) as [added [H5 Hadd]].
  assert (Hmid : forallb schema_read (Execute catalog_query :: Fetchall :: added) = true).
  { cbn [forallb schema_read]. now rewrite String.eqb_refl, Hadd. }
  exists (Execute catalog_query :: Fetchall :: added). split; [exact Hmid|].
  destruct (tables_loop str_other E tables [] w3) as [[info|e] w5]; cbn [snd] in H5.
  2: { left. rewrite H5, H3, H2, H1, <- !app_assoc. reflexivity. }
  destruct (engine_call Close (e_close E) w5) as [[u'|e] w6] eqn:H6;
    pose proof (engine_call_result _ _ _ _ _ H6) as Hres;
    apply engine_call_calls in H6.
  - rewrite H6, H5, H3, H2, H1, <- !app_assoc. reflexivity.
  - right. split; [|now exists (eng w5)].
    rewrite H6, H5, H3, H2, H1, <- !app_assoc. reflexivity.
Qed.

(** X14.  [get_database_schema] only reads.  It opens one connection,
    first; then it executes the query of the catalogue and [PRAGMA
    table_info] statements and fetches their rows; it commits nothing and
    rolls nothing back.  Closing the connection is the last call, and it
    is made whenever the schema text is returned. *)
Theorem get_database_schema_only_reads :
  forall (str_other : pyval -> string) (W : Type) (E : Engine W) (w : world W),
    exists (mid tail : list call),
      calls (snd (get_database_schema str_other E w))
      = (calls w ++ Connect :: mid ++ tail)%list
      /\ forallb schema_read mid = true
      /\ (tail = [] \/ tail = [Close])
      /\ (forall text : string,
             fst (get_database_schema str_other E w) = Ok text -> tail = [Close]).
Proof.
  intros str_other W E w.
  destruct (get_database_schema_log str_other E w) as [mid [Hmid H]].
  destruct (get_database_schema str_other E w) as [[text|e] w'].
  - exists mid, [Close]. cbn [fst snd]. repeat split; auto.
  - destruct H as [H|[H _]].
    + exists mid, []. cbn [fst snd]. rewrite app_nil_r.
      repeat split; auto. discriminate.
    + exists mid, [Close]. cbn [fst snd]. repeat split; auto.
Qed.

(** X15.  [get_database_schema] has no [finally]: when reading the
    schema fails, no call closes the connection.  For an engine whose
    [close] does not raise: if [get_database_schema] raises, then
    [get_schema_text] returns the failure text with the message, and the
    calls made are the opening of the connection and reads. *)
Theorem failed_schema_read_leaves_connection_open :
  forall (str_other : pyval -> string) (W : Type) (E : Engine W) (w w' : world W)
         (e : string),
    (forall x : W, fst (e_close E x) = Ok tt) ->
    get_database_schema str_other E w = (Exn e, w') ->
    get_schema_text str_other E w = (Ok ("-- Failed to load schema: " ++ e), w')
    /\ exists mid : list call,
         calls w' = (calls w ++ Connect :: mid)%list
         /\ forallb schema_read mid = true
         /\ ~ In Close mid.
Proof.
  intros str_other W E w w' e Hclose Hfail. split.
  - unfold get_schema_text, try_except. rewrite Hfail. reflexivity.
  - destruct (get_database_schema_log str_other E w) as [mid [Hmid H]].
    rewrite Hfail in H. destruct H as [H|[_ [x Hx]]].
    + exists mid. repeat split; auto. intros Hin.
      rewrite forallb_forall in Hmid. apply Hmid in Hin. discriminate.
    + rewrite Hclose in Hx. discriminate.
Qed.

Lemma failed_schema_read_leaves_connection_open_witness :
  get_schema_text str_plain Toy.engine (Toy.start [])
  = (Ok ("-- Failed to load schema: " ++ "syntax error"),
     {| eng := Toy.fresh []; calls := [Connect; Execute catalog_query] |})
  /\ exists mid : list call,
       calls {| eng := Toy.fresh []; calls := [Connect; Execute catalog_query] |}
       = (calls (Toy.start []) ++ Connect :: mid)%list
       /\ forallb schema_read mid = true
       /\ ~ In Close mid.
Proof.
  apply (failed_schema_read_leaves_connection_open str_plain Toy.db Toy.engine
           (Toy.start []) {| eng := Toy.fresh []; calls := [Connect; Execute catalog_query] |}
           "syntax error").
  - intros x. reflexivity.
  - reflexivity.
Defined.

(** X16.  The handler of [run_sql] is never reached: [execute_sql_query]
    turns every failure into an error row itself, so [run_sql] returns
    what [execute_sql_query] returns and leaves the engine as it does. *)
Theorem run_sql_is_execute_sql_query :
  forall (W : Type) (E : Engine W) (sql : string) (w : world W),
    run_sql E sql w = execute_sql_query E sql w
    /\ exists (r : list dict) (w' : world W), run_sql E sql w = (Ok r, w').
Proof.
  intros W E sql w. unfold run_sql, try_except.
  destruct (execute_sql_query_returns E sql w) as [r [w' H]].
  rewrite H. split; [reflexivity | eauto].
Qed.

(* ================================================================== *)
(** ** The write guard of [app.py] *)
(* ================================================================== *)

Lemma upper_s_char c :
  upper_char c = "S"%char -> is_space c = false /\ lower_char c = "s"%char.
Proof.
  destruct c as [[|] [|] [|] [|] [|] [|] [|] [|]]; vm_compute; intros H;
    (discriminate || (split; reflexivity)).
Qed.

Lemma is_select_head stmt :
  is_select stmt = true ->
  exists c t, lstrip stmt = String c t /\ upper_char c = "S"%char.
Proof.
  unfold is_select. destruct (lstrip stmt) as [|c t]; [discriminate|].
  cbn [upper]. rewrite startswith_cons. intros H.
  apply andb_true_iff in H. destruct H as [H _]. apply Ascii.eqb_eq in H.
  exists c, t. auto.
Qed.

Lemma lstrip_app_head s c t rest :
  lstrip s = String c t -> lstrip (s ++ rest) = String c (t ++ rest).
Proof.
  induction s as [|a s IH]; simpl; [discriminate|].
  destruct (is_space a); [exact IH|].
  intros H. inversion H; subst. reflexivity.
Qed.

(** X17.  [is_dml] looks at the first word only.  A text whose first
    statement is a SELECT is not taken for a write, whatever follows it:
    the guard of the page lets the text through to [run_sql], which
    executes every statement of it. *)
Theorem is_dml_looks_at_the_first_word :
  forall stmt rest : string,
    is_select stmt = true ->
    is_dml (Some (stmt ++ rest)) = false.
Proof.
  intros stmt rest Hsel.
  destruct (is_select_head _ Hsel) as [c [t [Hl Hc]]].
  destruct (upper_s_char _ Hc) as [Hsp Hlow].
  unfold is_dml, strip. rewrite (lstrip_app_head _ _ _ rest Hl).
  cbn [rstrip]. rewrite Hsp. cbn [andb lower]. rewrite Hlow.
  unfold DML_PREFIXES. cbn [existsb]. rewrite !startswith_cons. reflexivity.
Qed.

Lemma is_dml_looks_at_the_first_word_witness :
  is_dml (Some ("SELECT * FROM t" ++ "; DELETE FROM t WHERE x=a")) = false.
Proof.
  apply (is_dml_looks_at_the_first_word "SELECT * FROM t" "; DELETE FROM t WHERE x=a").
  reflexivity.
Defined.

(* ================================================================== *)
(** ** The last user message *)
(* ================================================================== *)

Lemma first_user_content_skip xs :
  forall ys,
    Forall (fun m => user_content m = None) xs ->
    first_user_content (xs ++ ys)%list = first_user_content ys.
Proof.
  induction xs as [|x xs IH]; intros ys H; [reflexivity|].
  inversion H as [|? ? Hx Hxs]; subst.
  simpl. rewrite Hx. now apply IH.
Qed.

(** X18.  [_extract_last_user_message] returns the content of the last
    message that is a user message (type [human] or role [user]), the
    empty text for one without content; when no message is a user
    message it returns the empty text. *)
Theorem last_user_message_is_found :
  forall state : MsgState,
    (Forall (fun m => user_content m = None) (messages state) ->
     _extract_last_user_message state = PStr "")
    /\ (forall (pre post : list message) (m : message) (v : pyval),
           messages state = (pre ++ m :: post)%list ->
           user_content m = Some v ->
           Forall (fun m' => user_content m' = None) post ->
           _extract_last_user_message state = v).
Proof.
  intros state. unfold _extract_last_user_message. split.
  - intros H. apply Forall_rev in H.
    rewrite <- (app_nil_r (rev (messages state))).
    now rewrite first_user_content_skip.
  - intros pre post m v E Hm Hpost. rewrite E, rev_app_distr. cbn [rev].
    rewrite <- app_assoc. apply Forall_rev in Hpost.
    rewrite first_user_content_skip by exact Hpost.
    simpl. now rewrite Hm.
Qed.

Lemma last_user_message_is_found_witness :
  _extract_last_user_message
    {| messages := [MsgObj (Some "human") None (Some (PStr "first"));
                    MsgDict [("role", PStr "user"); ("content", PStr "second")];
                    AIMessage "reply"];
       m_sql_query := None; m_query_result := None; m_final_response := None |}
  = PStr "second".
Proof.
  apply (proj2 (last_user_message_is_found
                  {| messages := [MsgObj (Some "human") None (Some (PStr "first"));
                                  MsgDict [("role", PStr "user"); ("content", PStr "second")];
                                  AIMessage "reply"];
                     m_sql_query := None; m_query_result := None;
                     m_final_response := None |})
           [MsgObj (Some "human") None (Some (PStr "first"))]
           [AIMessage "reply"]
           (MsgDict [("role", PStr "user"); ("content", PStr "second")])
           (PStr "second")).
  - reflexivity.
  - reflexivity.
  - repeat constructor.
Defined.

(* ================================================================== *)
(** ** What [ensure_aliases] leaves alone *)
(* ================================================================== *)

(** X19.  Without an opening parenthesis there is no call to give an
    alias to: [ensure_aliases] returns such a text as it is. *)
Theorem ensure_aliases_keeps_text_without_call :
  forall sql : string,
    all_chars not_open sql = true ->
    ensure_aliases sql = sql.
Proof.
  intros sql Hsql.
  destruct (re_match select_re sql) as [[m rest]|] eqn:Hm.
  - rewrite (ensure_aliases_unfold _ _ _ Hm).
    apply select_re_inv in Hm.
    destruct Hm as [ws1 [kw [ws2 [part [ws3 [kw2 [ws4 [E [-> _]]]]]]]]].
    cbn [group Nat.eqb].
    rewrite E, !all_chars_app in Hsql.
    apply andb_true_iff in Hsql. destruct Hsql as [_ Hsql].
    apply andb_true_iff in Hsql. destruct Hsql as [_ Hsql].
    apply andb_true_iff in Hsql. destruct Hsql as [_ Hsql].
    apply andb_true_iff in Hsql. destruct Hsql as [Hpart _].
    rewrite (patch_all_no_open _ Hpart), String.eqb_refl. reflexivity.
  - unfold ensure_aliases. rewrite Hm. reflexivity.
Qed.

Lemma ensure_aliases_keeps_text_without_call_witness :
  ensure_aliases "SELECT name FROM customers" = "SELECT name FROM customers".
Proof.
  apply (ensure_aliases_keeps_text_without_call "SELECT name FROM customers").
  reflexivity.
Defined.

Lemma inserted_refl s : inserted_into s s.
Proof. induction s; constructor; assumption. Qed.

Lemma inserted_nil t : inserted_into EmptyString t.
Proof. induction t; constructor; assumption. Qed.

Lemma inserted_more x : forall s t, inserted_into s t -> inserted_into s (x ++ t).
Proof. induction x as [|c x IH]; intros s t H; simpl; [exact H | constructor; now apply IH]. Qed.

Lemma inserted_app a a' b b' :
  inserted_into a a' -> inserted_into b b' -> inserted_into (a ++ b) (a' ++ b').
Proof.
  intros Ha Hb. induction Ha; simpl; [exact Hb | now constructor | now constructor].
Qed.

Lemma inserted_suffix s x : inserted_into s (s ++ x).
Proof. induction s; simpl; [apply inserted_nil | now constructor]. Qed.

Lemma inserted_trans b c :
  inserted_into b c -> forall a, inserted_into a b -> inserted_into a c.
Proof.
  induction 1 as [|c0 b c Hbc IH|c0 b c Hbc IH]; intros a Hab.
  - exact Hab.
  - inversion Hab; subst.
    + constructor. now apply IH.
    + apply ins_more. now apply IH.
  - apply ins_more. now apply IH.
Qed.

(** Whatever a pattern answers, it is the continuation that answered, on
    what is left of the text after a prefix. *)
Lemma rmatch_suffix r :
  forall (A : Type) s caps (cont : string -> captures -> option A) v,
    rmatch r s caps cont = Some v ->
    exists pre s' caps', s = pre ++ s' /\ cont s' caps' = Some v.
Proof.
  induction r as [c|k|g min k|a IHa b IHb|n a IHa|a IHa];
    intros A s caps cont v H; cbn [rmatch] in H.
  - destruct s as [|c' s]; [discriminate|].
    destruct (eqb_ci c c'); [|discriminate].
    exists (String c' EmptyString), s, caps. auto.
  - destruct s as [|c' s]; [discriminate|].
    destruct (in_class k c'); [|discriminate].
    exists (String c' EmptyString), s, caps. auto.
  - apply rep_match_inv in H. destruct H as [p [s' [E [_ [_ H]]]]].
    exists p, s', caps. auto.
  - apply IHa in H. destruct H as [p1 [s1 [c1 [E1 H]]]].
    apply IHb in H. destruct H as [p2 [s2 [c2 [E2 H]]]].
    exists (p1 ++ p2), s2, c2. split; [|exact H].
    now rewrite E1, E2, str_app_assoc.
  - apply IHa in H. destruct H as [p [s' [c' [E H]]]].
    exists p, s', ((n, consumed s s') :: c'). auto.
  - destruct (rmatch a s caps (fun _ _ => Some tt)); [discriminate|].
    exists EmptyString, s, caps. auto.
Qed.

(** The first group of a match of [agg_re] is the matched text. *)
Lemma agg_re_group f s caps rest :
  re_match (agg_re f) s = Some (caps, rest) ->
  exists pre, s = pre ++ rest /\ group 1 caps = pre.
Proof.
  unfold re_match, agg_re. cbn [rmatch]. intros H.
  apply rmatch_suffix in H. destruct H as [pre [s' [caps' [E H]]]].
  cbv beta in H. unfold alias_ahead in H. cbn [rmatch] in H.
  match type of H with
  | context [match ?x with Some _ => None | None => _ end] => destruct x
  end; [discriminate|].
  inversion H; subst. exists pre. split; [reflexivity|].
  cbn [group Nat.eqb]. apply consumed_app.
Qed.

Lemma sub_go_inserts r repl :
  (forall s caps rest,
      re_match r s = Some (caps, rest) ->
      exists pre, s = pre ++ rest /\ inserted_into pre (repl caps)) ->
  forall s k, inserted_into (drop k s) (sub_go r repl s k).
Proof.
  intros Hr. induction s as [|c s IH]; intros k.
  - destruct k; cbn [drop sub_go]; [|constructor].
    destruct (re_match r EmptyString) as [[caps rest]|] eqn:Hm; [|constructor].
    destruct (Hr _ _ _ Hm) as [pre [E Hins]].
    destruct pre; [exact Hins | discriminate].
  - destruct k as [|k]; [|cbn [drop sub_go]; apply IH].
    cbn [drop sub_go].
    destruct (re_match r (String c s)) as [[caps rest]|] eqn:Hm.
    + destruct (Hr _ _ _ Hm) as [pre [E Hins]].
      replace (String.length (String c s) - String.length rest)
        with (String.length pre) by (rewrite E, str_length_app; lia).
      destruct pre as [|a pre].
      * cbn [String.length]. apply inserted_more. constructor.
        specialize (IH 0). now rewrite drop_0 in IH.
      * cbn [String.length]. simpl in E. inversion E; subst.
        change (String a (pre ++ rest)) with (String a pre ++ rest).
        apply inserted_app; [exact Hins|].
        specialize (IH (String.length pre)). now rewrite drop_app in IH.
    + constructor. specialize (IH 0). now rewrite drop_0 in IH.
Qed.

Lemma patch_inserts s f alias : inserted_into s (patch s f alias).
Proof.
  unfold patch, re_sub. rewrite <- (drop_0 s) at 1.
  apply sub_go_inserts. intros t caps rest Hm.
  apply agg_re_group in Hm. destruct Hm as [pre [E Hg]].
  exists pre. split; [exact E|]. rewrite Hg. apply inserted_suffix.
Qed.

Lemma replace_first_inserts old new :
  inserted_into old new ->
  forall s, inserted_into s (replace_first old new s).
Proof.
  intros H. induction s as [|c s IH]; cbn [replace_first].
  - destruct (startswith old EmptyString) eqn:Hs; [|constructor].
    apply startswith_decompose in Hs. rewrite Hs at 1.
    apply inserted_app; [exact H | apply inserted_refl].
  - destruct (startswith old (String c s)) eqn:Hs; [|now constructor].
    apply startswith_decompose in Hs. rewrite Hs at 1.
    apply inserted_app; [exact H | apply inserted_refl].
Qed.

(** X20.  [ensure_aliases] only adds text.  Every character of the input
    is in the output, in the same order: nothing is removed and nothing
    is changed. *)
Theorem ensure_aliases_only_inserts :
  forall sql : string, inserted_into sql (ensure_aliases sql).
Proof.
  intros sql. unfold ensure_aliases.
  destruct (re_match select_re sql) as [[m rest]|]; [|apply inserted_refl].
  cbv zeta.
  match goal with |- context [if ?b then _ else _] => destruct b end;
    [apply inserted_refl|].
  apply replace_first_inserts.
  repeat (eapply inserted_trans; [apply patch_inserts|]).
  apply inserted_refl.
Qed.

(* ================================================================== *)
(** ** Every semicolon splits *)
(* ================================================================== *)

Lemma lstrip_idempotent s : lstrip (lstrip s) = lstrip s.
Proof. apply lstrip_fixed, lstrip_starts. Qed.

Lemma strip_comm s : rstrip (lstrip s) = lstrip (rstrip s).
Proof.
  induction s as [|c s IH]; [reflexivity|].
  cbn [lstrip rstrip]. destruct (is_space c) eqn:Hc.
  - cbn [andb]. destruct (rstrip s) as [|a t] eqn:Hr.
    + cbn [is_empty lstrip]. exact IH.
    + cbn [is_empty lstrip]. rewrite Hc. exact IH.
  - cbn [andb rstrip lstrip]. rewrite Hc. reflexivity.
Qed.

Lemma space_is_no_semicolon c : is_space c = true -> Ascii.eqb ";" c = false.
Proof. each_char c. Qed.

Lemma split_semi_cons c s :
  split_go ";" (String c s) 0
  = if Ascii.eqb ";" c
    then (EmptyString, fst (split_go ";" s 0) :: snd (split_go ";" s 0))
    else (String c (fst (split_go ";" s 0)), snd (split_go ";" s 0)).
Proof.
  cbn [split_go]. rewrite startswith_cons. cbn [String.length Nat.sub].
  assert (Hs : startswith EmptyString s = true) by (destruct s; reflexivity).
  rewrite Hs, andb_true_r.
  destruct (split_go ";" s 0) as [p ps]. destruct (Ascii.eqb ";" c); reflexivity.
Qed.

Lemma split_pieces s : split ";" s = fst (split_go ";" s 0) :: snd (split_go ";" s 0).
Proof. unfold split. destruct (split_go ";" s 0); reflexivity. Qed.

Lemma split_app a b :
  split ";" (a ++ String ";" b) = (split ";" a ++ split ";" b)%list.
Proof.
  rewrite (split_pieces (a ++ String ";" b)), (split_pieces a).
  induction a as [|c a IH].
  - simpl append. rewrite split_semi_cons. cbn [Ascii.eqb Bool.eqb fst snd].
    rewrite <- split_pieces. reflexivity.
  - simpl append. rewrite !split_semi_cons.
    destruct (Ascii.eqb ";" c); cbn [fst snd] in *.
    + rewrite IH. reflexivity.
    + inversion IH as [[H1 H2]]. rewrite H1, H2. reflexivity.
Qed.

Lemma split_lstrip x :
  split ";" (lstrip x) = lstrip (fst (split_go ";" x 0)) :: snd (split_go ";" x 0).
Proof.
  induction x as [|c x IH]; [reflexivity|].
  cbn [lstrip]. destruct (is_space c) eqn:Hc.
  - rewrite IH, split_semi_cons, (space_is_no_semicolon _ Hc).
    cbn [fst snd lstrip]. now rewrite Hc.
  - rewrite split_pieces, split_semi_cons.
    destruct (Ascii.eqb ";" c); cbn [fst snd lstrip]; [reflexivity|].
    now rewrite Hc.
Qed.

Lemma split_rstrip x :
  Forall2 (fun u v => rstrip u = rstrip v) (split ";" (rstrip x)) (split ";" x).
Proof.
  induction x as [|c x IH]; [repeat constructor|].
  rewrite (split_pieces (String c x)), split_semi_cons.
  rewrite (split_pieces x) in IH.
  cbn [rstrip]. destruct (is_space c && is_empty (rstrip x)) eqn:Hb.
  - apply andb_true_iff in Hb. destruct Hb as [Hc He].
    destruct (rstrip x) as [|a t]; [|discriminate].
    rewrite (space_is_no_semicolon _ Hc). cbn [fst snd].
    change (split ";" EmptyString) with [EmptyString] in *.
    inversion IH as [|? ? ? ? HR Ht]; subst. inversion Ht; subst.
    constructor; [|constructor].
    cbn [rstrip]. rewrite Hc, <- HR. reflexivity.
  - rewrite (split_pieces (String c (rstrip x))), split_semi_cons.
    rewrite (split_pieces (rstrip x)) in IH.
    destruct (Ascii.eqb ";" c); cbn [fst snd].
    + constructor; [reflexivity | exact IH].
    + inversion IH as [|? ? ? ? HR Ht]; subst.
      constructor; [|exact Ht]. cbn [rstrip]. now rewrite HR.
Qed.

Lemma clean_pieces_rstrip l l' :
  Forall2 (fun u v => rstrip u = rstrip v) l l' -> clean_pieces l = clean_pieces l'.
Proof.
  induction 1 as [|u v l l' HR Hl IH]; [reflexivity|].
  assert (Hs : strip u = strip v).
  { unfold strip. now rewrite !strip_comm, HR. }
  unfold clean_pieces in *. cbn [filter]. rewrite Hs.
  destruct (negb (is_empty (strip v))); cbn [map]; now rewrite ?Hs, IH.
Qed.

Lemma clean_pieces_app l l' :
  clean_pieces (l ++ l') = (clean_pieces l ++ clean_pieces l')%list.
Proof. unfold clean_pieces. now rewrite filter_app, map_app. Qed.

(** Stripping the whole text first changes nothing in the statements. *)
Lemma statements_plain q : statements q = clean_pieces (split ";" q).
Proof.
  change (statements q) with (clean_pieces (split ";" (strip q))).
  unfold strip. rewrite (clean_pieces_rstrip _ _ (split_rstrip (lstrip q))).
  rewrite split_lstrip, split_pieces.
  assert (Hs : strip (lstrip (fst (split_go ";" q 0))) = strip (fst (split_go ";" q 0))).
  { unfold strip. now rewrite lstrip_idempotent. }
  unfold clean_pieces. cbn [filter]. rewrite Hs.
  destruct (negb (is_empty (strip (fst (split_go ";" q 0))))); cbn [map]; now rewrite ?Hs.
Qed.

(** X21.  Every semicolon ends a statement, wherever it stands: the
    statements of two texts joined by a semicolon are those of the first
    followed by those of the second.  A semicolon inside a quoted SQL
    string is no exception. *)
Theorem statements_split_at_every_semicolon :
  forall a b : string,
    statements (a ++ ";" ++ b) = (statements a ++ statements b)%list.
Proof.
  intros a b. rewrite !statements_plain.
  change (";" ++ b) with (String ";" b).
  now rewrite split_app, clean_pieces_app.
Qed.

(* ================================================================== *)
(** ** The chat bot, end to end *)
(* ================================================================== *)

(** X22.  For the empty question, the analyser writes a request for a
    question into the state, but the graph goes on: the executor finds no
    SQL text and the renderer turns its error row into the reply.  So
    [chat] answers the empty question with the error about the missing
    SQL text, not with the analyser's request; no engine call is made, the
    model is not asked, and the history gets its entry. *)
Theorem chat_on_the_empty_question :
  forall (str_other : pyval -> string) (W : Type) (E : Engine W)
         (llm : string -> string -> res string)
         (chat_history : list chat_entry) (w : world W),
    chat str_other E llm "" chat_history w
    = (Ok (Some (error_mark ++ " Error: No SQL query provided")),
       app chat_history
         [{| h_user := "";
                 h_bot := Some (error_mark ++ " Error: No SQL query provided");
                 h_sql_query := Some "" |}],
       w).
Proof. intros. reflexivity. Qed.

Lemma renderer_keeps_sql_query str_other state :
  sql_query (response_generator_node str_other state) = sql_query state.
Proof.
  unfold response_generator_node.
  destruct (match
               match query_result state with Some r => r | None => [] end
             with first :: _ => dict_has "error" first | [] => false end);
    [reflexivity|].
  destruct (match
               match query_result state with Some r => r | None => [] end
             with first :: _ => dict_has "rows_affected" first | [] => false end);
    reflexivity.
Qed.

Lemma chat_after_analysis (str_other : pyval -> string) {W : Type} (E : Engine W)
    (llm : string -> string -> res string) question chat_history (w : world W)
    schema w1 response :
  question <> "" ->
  get_database_schema str_other E w = (Ok schema, w1) ->
  llm (system_prompt schema question) question = Ok response ->
  exists (result : list dict) (w2 : world W),
    let state := {| user_query := question;
                    sql_query := Some (ensure_aliases (clean_code_fences response));
                    query_result := Some result;
                    final_response := Some "" |} in
    chat str_other E llm question chat_history w
    = (Ok (final_response (response_generator_node str_other state)),
       app chat_history
         [{| h_user := question;
                 h_bot := final_response (response_generator_node str_other state);
                 h_sql_query := Some (ensure_aliases (clean_code_fences response)) |}],
       w2).
Proof.
  intros Hq Hschema Hllm.
  unfold chat, chatbot_graph, bind, query_analyzer_node. cbn [user_query].
  destruct question as [|c q]; [congruence|]. cbn [is_empty].
  unfold bind. rewrite Hschema. unfold llm_invoke. rewrite Hllm. unfold ret.
  rewrite query_executor_node_result.
  destruct (executor_result_log str_other E
              (stripped_sql
                 {| user_query := String c q;
                    sql_query := Some (ensure_aliases (clean_code_fences response));
                    query_result := Some [];
                    final_response := Some "" |}) w1)
    as [result [w2 [added [H1 _]]]].
  rewrite H1. cbn [user_query sql_query].
  exists result, w2. rewrite renderer_keeps_sql_query. reflexivity.
Qed.

(** X23.  The analyser has no handler.  When the schema cannot be read,
    or when the model raises, the exception leaves [chat]: there is no
    reply, and the history stays as it was. *)
Theorem chat_lets_analyser_failures_out :
  forall (str_other : pyval -> string) (W : Type) (E : Engine W)
         (llm : string -> string -> res string)
         (question : string) (chat_history : list chat_entry) (w : world W),
    question <> "" ->
    (forall (e : string) (w' : world W),
        get_database_schema str_other E w = (Exn e, w') ->
        chat str_other E llm question chat_history w = (Exn e, chat_history, w'))
    /\ (forall (schema e : string) (w' : world W),
           get_database_schema str_other E w = (Ok schema, w') ->
           llm (system_prompt schema question) question = Exn e ->
           chat str_other E llm question chat_history w = (Exn e, chat_history, w')).
Proof.
  intros str_other W E llm question chat_history w Hq.
  destruct question as [|c q]; [congruence|].
  split.
  - intros e w' Hschema.
    unfold chat, chatbot_graph, bind, query_analyzer_node. cbn [user_query is_empty].
    unfold bind. rewrite Hschema. reflexivity.
  - intros schema e w' Hschema Hllm.
    unfold chat, chatbot_graph, bind, query_analyzer_node. cbn [user_query is_empty].
    unfold bind. rewrite Hschema. unfold llm_invoke. rewrite Hllm. reflexivity.
Qed.

Lemma chat_lets_analyser_failures_out_witness :
  chat str_plain Toy.engine (fun _ _ => Ok "SELECT * FROM t") "all rows" [] (Toy.start ["1"])
  = (Exn "syntax error", [],
     {| eng := Toy.fresh ["1"]; calls := [Connect; Execute catalog_query] |}).
Proof.
  apply (proj1 (chat_lets_analyser_failures_out str_plain Toy.db Toy.engine
                  (fun _ _ => Ok "SELECT * FROM t") "all rows" [] (Toy.start ["1"])
                  ltac:(discriminate))).
  reflexivity.
Defined.

(** X24.  Once the model has answered, [chat] replies, whatever the text
    of the answer and whatever the engine does with it.  The history
    gets an entry with the question, the reply and the SQL text that the
    analyser made of the answer.  The reply is an error line, or it
    begins with the SQL block that shows that text, stripped. *)
Theorem chat_replies_to_every_answer :
  forall (str_other : pyval -> string) (W : Type) (E : Engine W)
         (llm : string -> string -> res string)
         (question : string) (chat_history : list chat_entry) (w w1 : world W)
         (schema response : string),
    question <> "" ->
    get_database_schema str_other E w = (Ok schema, w1) ->
    llm (system_prompt schema question) question = Ok response ->
    exists (reply : string) (w2 : world W),
      chat str_other E llm question chat_history w
      = (Ok (Some reply),
         app chat_history
         [{| h_user := question;
                   h_bot := Some reply;
                   h_sql_query := Some (ensure_aliases (clean_code_fences response)) |}],
         w2)
      /\ (startswith (error_mark ++ " Error: ") reply = true
          \/ startswith (sql_block (strip (ensure_aliases (clean_code_fences response))))
               reply = true).
Proof.
  intros str_other W E llm question chat_history w w1 schema response Hq Hschema Hllm.
  destruct (chat_after_analysis str_other E llm question chat_history w
              schema w1 response Hq Hschema Hllm) as [result [w2 H]].
  cbv zeta in H. rewrite H. clear H.
  unfold response_generator_node, stripped_sql. cbn [sql_query query_result final_response].
  destruct (match result with first :: _ => dict_has "error" first | [] => false end).
  - eexists. exists w2. split; [reflexivity|]. left.
    rewrite <- str_app_assoc. apply startswith_app.
  - destruct (match result with first :: _ => dict_has "rows_affected" first | [] => false end);
      (eexists; exists w2; split; [reflexivity|]; right; apply startswith_app).
Qed.

Lemma chat_replies_to_every_answer_witness :
  exists (reply : string) (w2 : world unit),
    chat str_plain Quiet.engine (fun _ _ => Ok "SELECT COUNT(id) FROM t") "how many" [] Quiet.start
    = (Ok (Some reply),
       app [] [{| h_user := "how many";
                  h_bot := Some reply;
                  h_sql_query :=
                    Some (ensure_aliases (clean_code_fences "SELECT COUNT(id) FROM t")) |}],
       w2)
    /\ (startswith (error_mark ++ " Error: ") reply = true
        \/ startswith (sql_block (strip (ensure_aliases (clean_code_fences "SELECT COUNT(id) FROM t")))) reply = true).
Proof.
  apply (chat_replies_to_every_answer str_plain unit Quiet.engine
           (fun _ _ => Ok "SELECT COUNT(id) FROM t") "how many" [] Quiet.start
           {| eng := tt; calls := [Connect; Execute catalog_query; Fetchall; Close] |}
           EmptyString).
  - discriminate.
  - reflexivity.
  - reflexivity.
Defined.

(* ================================================================== *)
(** ** Every way the call pattern can match *)
(* ================================================================== *)







(* ================================================================== *)
(** ** The name in front of the parenthesis *)
(* ================================================================== *)






(* ================================================================== *)
(** ** The look-ahead for an alias *)
(* ================================================================== *)






(* ================================================================== *)
(** ** The pattern of a function at one place *)
(* ================================================================== *)











(* ================================================================== *)
(** ** One patch over a parenthesised text and the text in front *)
(* ================================================================== *)

Section BlockScan.
Variables g alias : string.
Hypothesis Hg : all_chars is_upper g = true.
Hypothesis Hne : g <> EmptyString.





End BlockScan.

(* ================================================================== *)
(** ** What stands in front of and behind a call *)
(* ================================================================== *)










(* ================================================================== *)
(** ** One patch over a clause *)
(* ================================================================== *)


(* ================================================================== *)
(** ** The five patches over a clause *)
(* ================================================================== *)








(* ================================================================== *)
(** ** Where the SELECT clause ends *)
(* ================================================================== *)

Section NowhereMore.
Variable F : string -> Prop.



End NowhereMore.












(* ================================================================== *)
(** ** One alias for each call, and no more on a second pass *)
(* ================================================================== *)




